(* ===== verification/_CoqProject ===== *)
-Q . S2P
Prelude.v
GoStrings.v
Unicode.v
Receive.v
Csv.v
KeepAlive.v
Server.v
Loop.v
