(* ===== verification/Prelude.v ===== *)
(** * A verification development of the GoIP SMS gateway (src/main.go)

    ** The program

    [src/main.go] is a UDP server for the text protocol of GoIP GSM/VoIP
    gateways.  Its parts, and how they interact:

    - the receive loop ([main], lines 21-93): resolves and binds
      [0.0.0.0:44444] ([log.Fatal] on failure), then, in a [for] loop that
      never ends, reads one datagram at a time into a 2048-byte buffer,
      logs it and dispatches on its prefix;
    - the classifier (lines 58 and 70): [strings.HasPrefix] with
      ["RECEIVE:"], then with ["req"]; anything else is only logged;
    - the RECEIVE parser ([parseGoIPMessage], lines 96-135): splits the
      datagram after ["RECEIVE:"], then on [';'] into fields and each field on
      [':'], trims key and value with [strings.TrimSpace], and fills the
      [GoIPMessage] record (lines 13-19); the loop logs the result;
    - the keep-alive responder (lines 70-91): replaces every [':'] by [';'],
      decodes the first record with [encoding/csv] ([Comma = ';']), and sends
      ["reg:" ++ messageArray[1] ++ ";status:200;"] back to the sender.

    The handlers share only the datagram; the loop keeps no state between
    datagrams.  The collaborators are the [net] socket and the logrus
    logger.  The Go library functions the code calls ([strings],
    [unicode/utf8], [unicode], [encoding/csv]) are not part of the
    repository; they are transcribed
    from the Go sources, because the behaviour of the program (what is
    split where, what a quote or a newline does, when a record has one
    field) is theirs.  The map of the development names only lines of
    src/main.go.

    ** Files, in dependency order, and what they model

    - [Prelude.v] (this file): byte strings ([bytes] = [list Byte.byte];
      Stdlib string literals are coerced), decidable equality of bytes and
      strings, the [result] type of fallible Go functions, the [goip] hint
      databases, the tactics [go_simpl], [literal] and [decide_literals], and
      generic list lemmas.
    - [GoStrings.v], Module [GoStrings] (Go library): [HasPrefix], [Index],
      [Count], [genSplit] with [Split] and [SplitN], [Replace]/[ReplaceAll].
      Reference definitions [split_on], [join], [subst_byte], and the lemmas
      that the library loops compute them ([Split_single], [SplitN_2],
      [ReplaceAll_single]); the specification of [TrimSpace], the removal of
      whole UTF-8 encodings of the Unicode White_Space runes from both ends
      ([TrimSpace_decomp]).
    - [Unicode.v], Modules [Utf8] and [Trim] (Go library): the code Go runs
      for [strings.TrimSpace]: [utf8.DecodeRuneInString] with its [first]
      and [acceptRanges] tables and its masks and shifts on [Z],
      [utf8.DecodeLastRuneInString] with its backward scan, [unicode.IsSpace],
      the loops of [indexFunc] and [lastIndexFunc], [TrimLeftFunc],
      [TrimRightFunc], [TrimFunc] and [TrimSpace] with its ASCII fast path.
      [TrimSpace_spec] proves it equal to [GoStrings.TrimSpace]; the RECEIVE
      parser calls this transcription.
    - [Receive.v], Module [Receive]: [GoIPMessage], [set_field] (the
      [switch]), [apply_field] (one round of the field loop),
      [parseGoIPMessage]; its abstract specification [parse_spec] (last
      binding of each key wins, absent keys are empty) and the refinement
      theorem, with roundtrip, field-order and malformed-field theorems.
    - [Csv.v], Module [Csv] (Go library): [readLine] with [drop_cr] and
      [crlf_to_lf], the empty-line loop [skip_empty], the field loops
      [parse_field]/[parse_quoted], [readRecord] and [Read]; termination
      of the fuelled loops, the record of quote-free input (the first line
      split at every [';']), and where errors come from (a quote for a
      syntax error, a leading empty line for [io.EOF]).
    - [KeepAlive.v], Module [KeepAlive]: [keepalive] (lines 72-82) with its
      three outcomes (CSV error, index panic, response) and
      [format_response] ([fmt.Sprintf]).
    - [Server.v], Module [Server]: the loop as a state machine.  Effects
      (log lines and sent datagrams), [startup], [classify], [handle] (one
      round, as a function of the datagram and of the send's success), the
      server state (process status and trace), [step], the reachability
      relation [reachable], [run] over a finite input sequence, [panics]
      (the rounds that stop the process).
    - [Loop.v], Module [Loop]: [main] as the program it is, an interaction
      tree [itree mainE void] over the collaborator calls ([ResolveUDPAddr],
      [ListenUDP], [ReadFromUDP], [WriteToUDP], [Logrus], [Exit] for
      [os.Exit], [Panic]); [round] is the loop body on the shared 2048-byte
      buffer ([read_into] is what a read does to it, [dispatch] lines
      52-90), and [main] ends in [loop], an [ITree.iter] of rounds carrying
      the buffer.  The class [Source] is the interface of the
      datagram source; a finite script ([list_source]) and an endless feed
      ([feed_source]) implement it.  [handler] interprets the events into a
      state monad over the world and stops with the event [Halt] when the
      process exits or crashes or the source is exhausted.

    ** What the theorems show

    - Refinement: [Loop.main_refines_run] proves the interaction tree, run
      against any finite script, stops with exactly the status and effects
      of [Server.run] (stale bytes of the reused buffer never reach a
      message); [Receive.parseGoIPMessage_refines] proves the parser
      equal to its specification.
      The state-machine theorems of Server.v are therefore theorems of
      [main].
    - Equivalence: on every keep-alive datagram whose first line has no
      quote, the CSV decoder can be replaced by the plain split the spec
      allows ([KeepAlive.keepalive_plain_split]); Go's [strings.TrimSpace],
      fast path and UTF-8 decoding included, equals the removal of whole
      White_Space runes ([TrimSpace_spec] in Unicode.v), so the parser
      strips exactly those runes, ASCII or not
      ([Receive.parse_strips_space_runes]).
    - Safety of the loop: a keep-alive datagram without [':'] or [';']
      (["req"]) panics on [messageArray[1]] and stops the server
      ([Server.req_datagram_crashes]); every sent datagram answers the
      keep-alive datagram logged just before it; the RECEIVE parse error is
      dead code; a round reads, logs and processes only the first 2048
      bytes of a datagram ([Server.received_bounded]).
    - Liveness: fed an endless sequence of datagrams none of which panics,
      [main] never stops ([Loop.main_runs_forever], by coinduction with
      ITree's [euttG] and Paco).  Termination of the library loops is a
      matter of fuel, proved sufficient ([Csv.Read_terminates],
      [Unicode.decode_width]).
    - Functional behaviour: the keep-alive response echoes the second field;
      only the first line of a datagram counts; CSV errors need a quote and
      are never [io.EOF]; the classifier is exact; parsed values are
      trimmed; a field whose value holds [':'] is lost; with a key bound
      twice the last binding wins ([Receive.parse_duplicate_key_last_wins]).
    - Roundtrip: parsing the wire form of a record gives it back, and
      parsing is idempotent ([Receive.parse_idempotent]).

    ** Bounds and fuel

    The Go loops that do not recurse structurally take fuel.  [count_loop],
    the trimming loops of the specification, the [indexFunc] and
    [lastIndexFunc] loops and the two byte loops of [TrimSpace] get the
    string length: each round consumes at least one byte, since a decoded
    rune is one to four bytes wide ([Unicode.decode_width]).  [skip_empty]
    gets the input length plus one, and the CSV field loops the length of
    the current line plus the unread input plus one (each call consumes
    input).  [Csv.Read_terminates] proves the CSV fuel is never exhausted;
    the trimming and counting lemmas hold for any fuel at least the length,
    which is the fuel given.  The backward scan of
    [DecodeLastRuneInString] visits at most [UTFMax - 1] indices, as in Go,
    and the split loop of [genSplit] is bounded by its counter; neither
    needs fuel.  Integers: the sizes are the 2048-byte buffer and [SplitN]'s
    [n], kept as [nat] and [Z], which cannot overflow; runes are Go's
    [int32] values as [Z], and the one computation that could leave the
    [int32] range, the mask of the ASCII branch of [DecodeRuneInString]
    ([rune(x) << 31 >> 31]), is written with its wrap ([Utf8.int32]).  The
    loop of [main] needs no fuel: it is an [ITree.iter] that never leaves,
    and the finite and infinite behaviours are theorems about its
    interpretation.

    ** Not modelled

    The socket ([net]) and the logrus output are I/O: read results and send
    success come from the [Source], log calls are recorded as effects with
    their level, message, fields and error.  [conn.Close], deferred past a
    loop that never returns, runs only while the panic unwinds and is not
    observable.  The positions inside [csv.ParseError] are only logged and
    are left out; the branches of the [strings] functions for an empty
    separator are never reached; the ASCII fast paths of [Split] and
    [Index] compute the same results as the loops modelled.  [IsSpace]
    lists the White_Space runes above Latin-1 instead of searching Go's
    range table for them. *)

From Stdlib Require Export Strings.String Strings.Byte.
From stdpp Require Export base list sets.

(** ** Byte strings *)

Abbreviation bytes := (list Byte.byte).

Coercion list_byte_of_string : string >-> list.

#[export] Instance byte_eq_decision : EqDecision Byte.byte := Byte.byte_eq_dec.
#[export] Instance string_eq_decision : EqDecision string := string_dec.

(** The bytes the protocol and the CSV decoder give a meaning to. *)
Abbreviation NL := x0a (only parsing).
Abbreviation CR := x0d (only parsing).
Abbreviation QUOTE := x22 (only parsing).
Abbreviation COLON := x3a (only parsing).
Abbreviation SEMI := x3b (only parsing).

(** ** Results of fallible Go functions

    A Go function returning [(T, error)] returns [Ok v] or [Err e]. *)

Inductive result (A E : Type) : Type :=
| Ok (v : A)
| Err (e : E).
Arguments Ok {A E} v.
Arguments Err {A E} e.

(** ** Automation *)

Create HintDb goip discriminated.
Create Rewrite HintDb goip_rw.

Ltac go_simpl :=
  repeat first
    [ progress simplify_eq/=
    | progress rewrite ?app_nil_r, ?length_app, ?length_take, ?length_drop in *
    | match goal with
      | H : Ok _ = Ok _ |- _ => injection H as H
      | H : Err _ = Err _ |- _ => injection H as H
      | H : Ok _ = Err _ |- _ => discriminate H
      | H : Err _ = Ok _ |- _ => discriminate H
      end ].

(** Close a decidable proposition about literals by evaluation. *)
Ltac literal := apply (bool_decide_unpack _); vm_compute; reflexivity.

(** Resolve every [decide (a = b)] between literals in the goal. *)
Ltac decide_literals :=
  repeat match goal with
  | |- context [if decide (?a = ?b) then _ else _] =>
      first [ rewrite (decide_True (P := a = b)) by (vm_compute; reflexivity)
            | rewrite (decide_False (P := a = b)) by (vm_compute; discriminate) ]
  end.

(** ** Generic lemmas on byte lists *)

Section ListLemmas.
Context {A : Type}.
Implicit Types (l p q r : list A) (x : A).

Lemma take_drop_middle_app l p r :
  take (length l) (l ++ p ++ r) = l /\ drop (length l + length p) (l ++ p ++ r) = r.
Proof.
  split; [by rewrite take_app_length|].
  by rewrite app_assoc, <-length_app, drop_app_length.
Qed.
Lemma drop_app_cons l x r : drop (length l + 1) (l ++ x :: r) = r.
Proof. by rewrite <-drop_drop, drop_app_length. Qed.

Lemma fmap_cons_eq {B} (f : A -> B) x l : f <$> x :: l = f x :: (f <$> l).
Proof. done. Qed.

(** A prefix that does not hold [x] ends before the first [x]. *)
Lemma prefix_app_cons_notin p l x r :
  p `prefix_of` l ++ x :: r -> x ∉ p -> p `prefix_of` l.
Proof.
  revert l. induction p as [|y p IH]; intros l Hp Hx; [apply prefix_nil|].
  destruct l as [|z l].
  - destruct Hp as [k Hk]. simplify_eq/=. by destruct Hx; left.
  - apply prefix_cons_inv_1 in Hp as Hyz. subst z.
    apply prefix_cons_inv_2 in Hp. apply prefix_cons, IH; [done|set_solver].
Qed.

Lemma omap_cons_eq {B} (f : A -> option B) x l :
  omap f (x :: l) = match f x with Some y => y :: omap f l | None => omap f l end.
Proof. done. Qed.
End ListLemmas.

#[export] Hint Rewrite @take_app_length @drop_app_length @drop_app_cons : goip_rw.
#[export] Hint Resolve elem_of_app : goip.
