(* ===== verification/GoStrings.v ===== *)
(** * The Go [strings] functions that src/main.go calls

    Each definition follows the loop of the Go standard library
    (go/src/strings/strings.go) on byte strings: [HasPrefix] (line 58, 70),
    [Index] and [Count] (used by the next ones), [genSplit] with its wrappers
    [Split] (lines 107, 114) and [SplitN] (line 98) and [Replace]/[ReplaceAll]
    (line 72).  Every call site passes a non-empty literal separator, so the
    separate branch Go takes for an empty separator (explode into UTF-8
    runes) is not modelled.

    Beside the Go loops the module states reference specifications
    ([split_on], [join], [subst_byte]) and proves the loops equal to them.
    For [TrimSpace] (lines 119-120) it states the specification only: strip
    whole UTF-8 encodings of the White_Space runes from both ends; Go's code
    for it is transcribed and proved equal in Unicode.v.
    This is library code, not part of the repository: the definitions are
    transcriptions the models of main.go call, and the map of the
    development does not name them. *)

From S2P Require Import Prelude.
From Stdlib Require Import ZArith NArith Lia.
Open Scope string_scope.
Open Scope list_scope.

Module GoStrings.

(** ** Prefix and index *)

(** [func HasPrefix(s, prefix string) bool]:
    [len(s) >= len(prefix) && s[0:len(prefix)] == prefix]. *)
Definition HasPrefix (s prefix : bytes) : bool :=
  bool_decide (length prefix ≤ length s) && bool_decide (take (length prefix) s = prefix).

(** [func Index(s, substr string) int]: the first position where [substr]
    occurs in [s]; [None] is Go's [-1]. *)
Fixpoint Index (s sep : bytes) : option nat :=
  if HasPrefix s sep then Some 0
  else match s with
       | [] => None
       | _ :: s' => S <$> Index s' sep
       end.

(** [func Count(s, substr string) int], non-empty [substr]: the loop
    [for { i := Index(s, substr); if i == -1 { return n }; n++;
    s = s[i+len(substr):] }].  Each round drops at least one byte, so
    [length s + 1] rounds reach the exit. *)
Fixpoint count_loop (fuel : nat) (s sep : bytes) : nat :=
  match fuel with
  | O => 0
  | S f =>
      match Index s sep with
      | None => 0
      | Some i => S (count_loop f (drop (i + length sep) s) sep)
      end
  end.

Definition Count (s sep : bytes) : nat := count_loop (S (length s)) s sep.

(** ** Splitting *)

(** The loop of [genSplit(s, sep, sepSave = 0, n)]:
    [for i < n { m := Index(s, sep); if m < 0 { break };
     a[i] = s[:m]; s = s[m+len(sep):]; i++ }; a[i] = s].
    [k] is the number of rounds left, [n - 1 - i]. *)
Fixpoint genSplit_loop (k : nat) (s sep : bytes) : list bytes :=
  match k with
  | O => [s]
  | S k' =>
      match Index s sep with
      | None => [s]
      | Some m => take m s :: genSplit_loop k' (drop (m + length sep) s) sep
      end
  end.

(** [genSplit]: [n == 0] gives [nil]; [n < 0] means [Count(s, sep) + 1];
    [n] is capped at [len(s) + 1]. *)
Definition genSplit (s sep : bytes) (n : Z) : list bytes :=
  if bool_decide (n = 0%Z) then []
  else
    let n := if bool_decide (n < 0)%Z then (Z.of_nat (Count s sep) + 1)%Z else n in
    let n := if bool_decide (Z.of_nat (length s) + 1 < n)%Z
             then (Z.of_nat (length s) + 1)%Z else n in
    genSplit_loop (Z.to_nat (n - 1)) s sep.

(** [func Split(s, sep string) []string { return genSplit(s, sep, 0, -1) }] *)
Definition Split (s sep : bytes) : list bytes := genSplit s sep (-1).

(** [func SplitN(s, sep string, n int) []string { return genSplit(s, sep, 0, n) }] *)
Definition SplitN (s sep : bytes) (n : Z) : list bytes := genSplit s sep n.

(** ** Reference specifications *)

(** Splitting at every occurrence of one byte, by structural recursion. *)
Fixpoint split_on (c : Byte.byte) (s : bytes) : list bytes :=
  match s with
  | [] => [[]]
  | b :: s' =>
      let rest := split_on c s' in
      if decide (b = c) then [] :: rest
      else match rest with
           | r :: rs => (b :: r) :: rs
           | [] => [[b]]
           end
  end.

(** [strings.Join]: the inverse of splitting. *)
Fixpoint join (sep : bytes) (l : list bytes) : bytes :=
  match l with
  | [] => []
  | [x] => x
  | x :: l' => x ++ sep ++ join sep l'
  end.

(** Number of occurrences of a byte. *)
Definition occurrences (c : Byte.byte) (s : bytes) : nat := length (filter (.= c) s).

(** ** Lemmas on [HasPrefix] and [Index] *)

Lemma HasPrefix_spec s p : HasPrefix s p = true <-> p `prefix_of` s.
Proof.
  unfold HasPrefix. rewrite andb_true_iff, !bool_decide_eq_true. split.
  - intros [_ <-]. apply prefix_take.
  - intros [r ->]. rewrite length_app, take_app_length. split; [lia|done].
Qed.

Lemma HasPrefix_app p r : HasPrefix (p ++ r) p = true.
Proof. apply HasPrefix_spec. by exists r. Qed.

Lemma HasPrefix_nil_l s : HasPrefix [] s = true -> s = [].
Proof. intros ?%HasPrefix_spec. by apply prefix_nil_inv. Qed.

Lemma HasPrefix_single s c : HasPrefix s [c] = true <-> exists r, s = c :: r.
Proof. rewrite HasPrefix_spec. split; intros [r ->]; by exists r. Qed.

Lemma Index_nil sep : sep <> [] -> Index [] sep = None.
Proof.
  intros Hsep. simpl. destruct (HasPrefix [] sep) eqn:E; [|done].
  by apply HasPrefix_nil_l in E.
Qed.

Lemma Index_single_notin (s : bytes) c : c ∉ s -> Index s [c] = None.
Proof.
  induction s as [|b s IH]; intros Hc; [done|]. simpl.
  destruct (HasPrefix (b :: s) [c]) eqn:E.
  - apply HasPrefix_single in E as [r Hr]. simplify_eq. set_solver.
  - rewrite IH; [done|set_solver].
Qed.

Lemma Index_single_app (pre post : bytes) c :
  c ∉ pre -> Index (pre ++ c :: post) [c] = Some (length pre).
Proof.
  induction pre as [|b pre IH]; intros Hc; simpl.
  - by rewrite (proj2 (HasPrefix_single _ _) (ex_intro _ post eq_refl)).
  - destruct (HasPrefix (b :: pre ++ c :: post) [c]) eqn:E.
    + apply HasPrefix_single in E as [r Hr]. simplify_eq. set_solver.
    + rewrite IH; [done|set_solver].
Qed.

Lemma Index_prefix s sep : HasPrefix s sep = true -> Index s sep = Some 0.
Proof. intros H. destruct s; simpl; by rewrite H. Qed.

Lemma Index_Some s sep i :
  Index s sep = Some i -> s = take i s ++ sep ++ drop (i + length sep) s.
Proof.
  revert i. induction s as [|b s IH]; intros i; simpl.
  - destruct (HasPrefix [] sep) eqn:E; intros; simplify_eq/=.
    by apply HasPrefix_nil_l in E as ->.
  - destruct (HasPrefix (b :: s) sep) eqn:E; intros Hi.
    + simplify_eq/=. apply HasPrefix_spec in E as [r Hr]. rewrite Hr.
      by rewrite drop_app_length.
    + destruct (Index s sep) as [i'|] eqn:E'; simplify_eq/=.
      rewrite (IH i') at 1 by done. done.
Qed.

Lemma Index_None s sep :
  Index s sep = None -> ~ exists k k', s = k ++ sep ++ k'.
Proof.
  induction s as [|b s IH]; simpl; intros Hi [k [k' Hs]].
  - destruct (HasPrefix [] sep) eqn:E; [done|].
    destruct k, sep; simplify_eq/=.
  - destruct (HasPrefix (b :: s) sep) eqn:E; [done|].
    destruct (Index s sep); [done|].
    destruct k as [|b' k]; simpl in Hs.
    + rewrite Hs, HasPrefix_app in E. discriminate.
    + injection Hs as -> Hs. apply IH; [done|]. by exists k, k'.
Qed.

(** Every byte string either lacks [c] or splits at its first [c]. *)
Lemma first_occurrence (s : bytes) (c : Byte.byte) :
  c ∉ s \/ exists pre post, s = pre ++ c :: post /\ c ∉ pre.
Proof.
  destruct (decide (c ∈ s)) as [Hin|]; [right|by left].
  destruct (list_elem_of_split_l s c Hin) as (pre & post & -> & ?). eauto.
Qed.

(** ** [Count] and [Split] on a one-byte separator *)

Lemma occurrences_app c l1 l2 :
  occurrences c (l1 ++ l2) = occurrences c l1 + occurrences c l2.
Proof. unfold occurrences. by rewrite filter_app, length_app. Qed.

Lemma occurrences_notin c (s : bytes) : c ∉ s -> occurrences c s = 0.
Proof.
  unfold occurrences. induction s as [|b s IH]; intros Hc; [done|].
  rewrite filter_cons_False by set_solver. apply IH. set_solver.
Qed.

Lemma occurrences_cons_eq c s : occurrences c (c :: s) = S (occurrences c s).
Proof. unfold occurrences. by rewrite filter_cons_True. Qed.

Lemma occurrences_le c s : occurrences c s ≤ length s.
Proof. apply length_filter. Qed.

Lemma count_loop_single fuel s c :
  length s < fuel -> count_loop fuel s [c] = occurrences c s.
Proof.
  revert s. induction fuel as [|fuel IH]; intros s Hlen; [lia|]. simpl.
  destruct (first_occurrence s c) as [Hc|(pre & post & -> & Hc)].
  - by rewrite Index_single_notin, occurrences_notin.
  - rewrite Index_single_app by done. simpl.
    rewrite drop_app_cons.
    rewrite IH by (rewrite length_app in Hlen; simpl in Hlen; lia).
    rewrite occurrences_app, (occurrences_notin c pre), occurrences_cons_eq by done.
    done.
Qed.

Lemma Count_single s c : Count s [c] = occurrences c s.
Proof. apply count_loop_single. lia. Qed.

Lemma split_on_notin c (s : bytes) : c ∉ s -> split_on c s = [s].
Proof.
  induction s as [|b s IH]; intros Hc; [done|]. simpl.
  rewrite decide_False by set_solver. rewrite IH by set_solver. done.
Qed.

(** Every part of a split avoids the separator and is made of bytes of the
    input. *)
Lemma split_on_parts c (s : bytes) : Forall (λ part, c ∉ part /\ part ⊆ s) (split_on c s).
Proof.
  induction s as [|b s IH]; simpl; [repeat constructor; set_solver|].
  case_decide as Hb.
  - constructor; [set_solver|]. eapply Forall_impl; [done|]. set_solver.
  - destruct (split_on c s) as [|r rs] eqn:E.
    + constructor; [set_solver|constructor].
    + inversion IH as [|? ? Hr Hrs]; subst. constructor; [set_solver|].
      eapply Forall_impl; [done|]. set_solver.
Qed.

Lemma split_on_app c (pre post : bytes) :
  c ∉ pre -> split_on c (pre ++ c :: post) = pre :: split_on c post.
Proof.
  induction pre as [|b pre IH]; intros Hc; simpl.
  - by rewrite decide_True.
  - rewrite decide_False by set_solver. rewrite IH by set_solver. done.
Qed.

Lemma genSplit_loop_single k s c :
  occurrences c s ≤ k -> genSplit_loop k s [c] = split_on c s.
Proof.
  revert s. induction k as [|k IH]; intros s Hk; simpl.
  - destruct (first_occurrence s c) as [Hc|(pre & post & -> & Hc)].
    + by rewrite split_on_notin.
    + rewrite occurrences_app, occurrences_cons_eq in Hk. lia.
  - destruct (first_occurrence s c) as [Hc|(pre & post & -> & Hc)].
    + by rewrite Index_single_notin, split_on_notin.
    + rewrite Index_single_app, split_on_app by done. simpl.
      autorewrite with goip_rw.
      f_equal. apply IH.
      rewrite occurrences_app, occurrences_cons_eq, (occurrences_notin c pre) in Hk
        by done.
      lia.
Qed.

Lemma split_on_ne_nil c s : split_on c s <> [].
Proof.
  destruct s as [|b s]; simpl; [done|].
  case_decide; [done|]. by destruct (split_on c s).
Qed.

Lemma length_split_on c s : length (split_on c s) = S (occurrences c s).
Proof.
  induction s as [|b s IH]; [done|]. simpl. unfold occurrences in *.
  case_decide; simplify_eq/=.
  - by rewrite filter_cons_True, IH.
  - rewrite filter_cons_False by done.
    destruct (split_on c s) eqn:E; [by apply split_on_ne_nil in E|done].
Qed.

(** [Split] with a one-byte separator is [split_on]. *)
Lemma Split_single s c : Split s [c] = split_on c s.
Proof.
  unfold Split, genSplit.
  rewrite (bool_decide_false (-1 = 0)%Z), (bool_decide_true (-1 < 0)%Z) by lia.
  cbv zeta. rewrite Count_single. pose proof (occurrences_le c s).
  rewrite bool_decide_false by lia.
  apply genSplit_loop_single. lia.
Qed.

(** [SplitN(s, sep, 2)] cuts [s] at the first occurrence of [sep]. *)
Lemma SplitN_2 s sep :
  sep <> [] ->
  SplitN s sep 2 =
    match Index s sep with
    | Some m => [take m s; drop (m + length sep) s]
    | None => [s]
    end.
Proof.
  intros Hsep. unfold SplitN, genSplit.
  rewrite (bool_decide_false (2 = 0)%Z), (bool_decide_false (2 < 0)%Z) by lia.
  destruct s as [|b s]; [by rewrite Index_nil|].
  rewrite bool_decide_false by (simpl; lia). simpl.
  by destruct (HasPrefix (b :: s) sep), (Index s sep).
Qed.

Lemma join_cons_ne sep x l : l <> [] -> join sep (x :: l) = x ++ sep ++ join sep l.
Proof. by destruct l. Qed.

Lemma join_split_on c s : join [c] (split_on c s) = s.
Proof.
  induction s as [|b s IH]; [done|]. simpl. case_decide; subst.
  - rewrite join_cons_ne by apply split_on_ne_nil. by rewrite IH.
  - destruct (split_on c s) as [|r [|r' rs]] eqn:E; [by apply split_on_ne_nil in E| |];
      simpl in *; by rewrite IH.
Qed.

Lemma split_on_join c l :
  l <> [] -> Forall (λ x, c ∉ x) l -> split_on c (join [c] l) = l.
Proof.
  induction l as [|x [|y l] IH]; intros Hne Hl; [done| |].
  - apply Forall_inv in Hl. by apply split_on_notin.
  - apply Forall_cons in Hl as [Hx Hl].
    rewrite join_cons_ne by done. cbn [app].
    rewrite split_on_app by done. by rewrite IH.
Qed.

(** ** Replacing *)

(** The loop of [Replace]: [for i < n { j := start + Index(s[start:], old);
    b.WriteString(s[start:j]); b.WriteString(new); start = j + len(old) }],
    then [b.WriteString(s[start:])].  [s] is the unread rest [s[start:]].
    [n] never exceeds [Count], so [Index] always succeeds in the loop. *)
Fixpoint replace_loop (k : nat) (s old new : bytes) : bytes :=
  match k with
  | O => s
  | S k' =>
      match Index s old with
      | Some j => take j s ++ new ++ replace_loop k' (drop (j + length old) s) old new
      | None => s
      end
  end.

(** [func Replace(s, old, new string, n int) string], non-empty [old]. *)
Definition Replace (s old new : bytes) (n : Z) : bytes :=
  if bool_decide (old = new) || bool_decide (n = 0%Z) then s
  else
    let m := Count s old in
    if bool_decide (m = 0) then s
    else
      let n := if bool_decide (n < 0)%Z || bool_decide (Z.of_nat m < n)%Z
               then m else Z.to_nat n in
      replace_loop n s old new.

(** [func ReplaceAll(s, old, new string) string { return Replace(s, old, new, -1) }] *)
Definition ReplaceAll (s old new : bytes) : bytes := Replace s old new (-1).

(** Replacing one byte by another maps over the string. *)
Definition subst_byte (a b : Byte.byte) (s : bytes) : bytes :=
  map (λ x, if decide (x = a) then b else x) s.

Lemma subst_byte_notin a b s : a ∉ s -> subst_byte a b s = s.
Proof.
  induction s as [|x s IH]; intros Ha; [done|]. simpl.
  rewrite decide_False by set_solver. f_equal. apply IH. set_solver.
Qed.

Lemma replace_loop_single k s a b :
  occurrences a s ≤ k -> replace_loop k s [a] [b] = subst_byte a b s.
Proof.
  revert s. induction k as [|k IH]; intros s Hk; simpl.
  - destruct (first_occurrence s a) as [Ha|(pre & post & -> & Ha)].
    + by rewrite subst_byte_notin.
    + rewrite occurrences_app, occurrences_cons_eq in Hk. lia.
  - destruct (first_occurrence s a) as [Ha|(pre & post & -> & Ha)].
    + by rewrite Index_single_notin, subst_byte_notin.
    + rewrite Index_single_app by done. autorewrite with goip_rw.
      rewrite occurrences_app, occurrences_cons_eq, (occurrences_notin a pre) in Hk
        by done.
      rewrite IH by lia. unfold subst_byte. rewrite map_app. simpl.
      rewrite decide_True by done. fold (subst_byte a b pre).
      by rewrite subst_byte_notin.
Qed.

Lemma subst_byte_app a c l1 l2 :
  subst_byte a c (l1 ++ l2) = subst_byte a c l1 ++ subst_byte a c l2.
Proof. apply map_app. Qed.

Lemma subst_byte_cons_ne a c x l : x <> a -> subst_byte a c (x :: l) = x :: subst_byte a c l.
Proof. intros Hx. unfold subst_byte. cbn [map]. by rewrite decide_False. Qed.

Lemma subst_byte_same a s : subst_byte a a s = s.
Proof. induction s as [|x s IH]; [done|]. simpl. case_decide; by subst; f_equal. Qed.

Lemma occurrences_zero c s : occurrences c s = 0 -> c ∉ s.
Proof.
  intros H Hin. destruct (first_occurrence s c) as [|(pre & post & -> & _)]; [done|].
  rewrite occurrences_app, occurrences_cons_eq in H. lia.
Qed.

(** [ReplaceAll] of one byte by another is [subst_byte]. *)
Lemma ReplaceAll_single s a b : ReplaceAll s [a] [b] = subst_byte a b s.
Proof.
  unfold ReplaceAll, Replace.
  destruct (decide (a = b)) as [->|Hab].
  { rewrite bool_decide_true by done. by rewrite subst_byte_same. }
  rewrite (bool_decide_false ([a] = [b])) by congruence.
  rewrite (bool_decide_false (-1 = 0)%Z) by lia. cbv zeta. rewrite Count_single.
  case_bool_decide as Hocc.
  - by rewrite subst_byte_notin by (by apply occurrences_zero).
  - rewrite (bool_decide_true (-1 < 0)%Z) by lia. by apply replace_loop_single.
Qed.

Lemma subst_byte_elem a c s b : b ∈ subst_byte a c s -> b = c \/ (b ∈ s /\ b <> a).
Proof.
  induction s as [|x s IH]; simpl; [set_solver|].
  rewrite elem_of_cons. intros [->|Hb]; [case_decide; [by left|right; set_solver]|].
  destruct (IH Hb) as [|[??]]; [by left|right; set_solver].
Qed.

Lemma subst_byte_notin_new a c s b : b ∉ s -> b <> c -> b ∉ subst_byte a c s.
Proof. intros Hs Hc Hb. apply subst_byte_elem in Hb as [|[]]; done. Qed.

Lemma subst_byte_removes a c s : a <> c -> a ∉ subst_byte a c s.
Proof. intros Hac Hb. apply subst_byte_elem in Hb as [|[]]; done. Qed.

Lemma subst_byte_nil a c s : subst_byte a c s = [] <-> s = [].
Proof. destruct s; simpl; done. Qed.

Lemma last_subst_byte a c s :
  last (subst_byte a c s) = (λ x, if decide (x = a) then c else x) <$> last s.
Proof.
  induction s as [|x s IH]; [done|]. cbn [subst_byte map].
  rewrite !last_cons. unfold subst_byte in IH. rewrite IH. by destruct (last s).
Qed.

Lemma occurrences_subst_byte a c s :
  a <> c -> occurrences c (subst_byte a c s) = occurrences a s + occurrences c s.
Proof.
  intros Hac. induction s as [|x s IH]; [done|].
  unfold occurrences in *. simpl. rewrite !filter_cons.
  repeat case_decide; simplify_eq/=; lia.
Qed.

(** ** Trimming white space *)

(** [unicode.IsSpace]: the code points of the Unicode White_Space property. *)
Definition space_runes : list N :=
  [0x09; 0x0A; 0x0B; 0x0C; 0x0D; 0x20; 0x85; 0xA0; 0x1680;
   0x2000; 0x2001; 0x2002; 0x2003; 0x2004; 0x2005; 0x2006; 0x2007; 0x2008;
   0x2009; 0x200A; 0x2028; 0x2029; 0x202F; 0x205F; 0x3000]%N.

Definition byte_of (n : N) : Byte.byte :=
  match Byte.of_N n with Some b => b | None => x00 end.

(** [utf8.EncodeRune] on a valid code point. *)
Definition utf8_encode (r : N) : bytes :=
  if bool_decide (r < 0x80)%N then [byte_of r]
  else if bool_decide (r < 0x800)%N then
    [byte_of (0xC0 + r / 64); byte_of (0x80 + r mod 64)]%N
  else if bool_decide (r < 0x10000)%N then
    [byte_of (0xE0 + r / 4096); byte_of (0x80 + (r / 64) mod 64);
     byte_of (0x80 + r mod 64)]%N
  else
    [byte_of (0xF0 + r / 262144); byte_of (0x80 + (r / 4096) mod 64);
     byte_of (0x80 + (r / 64) mod 64); byte_of (0x80 + r mod 64)]%N.

Definition space_encodings : list bytes := map utf8_encode space_runes.

(** [func HasSuffix(s, suffix string) bool]:
    [len(s) >= len(suffix) && s[len(s)-len(suffix):] == suffix]. *)
Definition HasSuffix (s suffix : bytes) : bool :=
  bool_decide (length suffix ≤ length s)
  && bool_decide (drop (length s - length suffix) s = suffix).

(** Width of the space encoding [s] starts with, or [0].  It is the width
    of the rune [utf8.DecodeRuneInString] decodes when that rune is a space
    ([Unicode.lead_space_len_decode]). *)
Definition lead_space_len (s : bytes) : nat :=
  match list_find (λ e, HasPrefix s e = true) space_encodings with
  | Some (_, e) => length e
  | None => 0
  end.

(** Width of the space encoding [s] ends with, or [0]: the width of the
    rune [utf8.DecodeLastRuneInString] decodes when that rune is a space
    ([Unicode.trail_space_len_decode]). *)
Definition trail_space_len (s : bytes) : nat :=
  match list_find (λ e, HasSuffix s e = true) space_encodings with
  | Some (_, e) => length e
  | None => 0
  end.

(** Drop space encodings from the front; each round drops at least one
    byte. *)
Fixpoint trim_left_loop (fuel : nat) (s : bytes) : bytes :=
  match fuel with
  | O => s
  | S f =>
      match lead_space_len s with
      | O => s
      | w => trim_left_loop f (drop w s)
      end
  end.

Definition TrimLeftSpace (s : bytes) : bytes := trim_left_loop (length s) s.

(** Drop space encodings from the end. *)
Fixpoint trim_right_loop (fuel : nat) (s : bytes) : bytes :=
  match fuel with
  | O => s
  | S f =>
      match trail_space_len s with
      | O => s
      | w => trim_right_loop f (take (length s - w) s)
      end
  end.

Definition TrimRightSpace (s : bytes) : bytes := trim_right_loop (length s) s.

(** The specification of [func TrimSpace(s string) string]: strip whole
    space encodings from the front, then from the end.  Go's code, with its
    ASCII fast path and its fallback to [TrimFunc(s, unicode.IsSpace)], is
    transcribed in [Unicode.Trim.TrimSpace] and proved equal to this
    ([Unicode.TrimSpace_spec]). *)
Definition TrimSpace (s : bytes) : bytes := TrimRightSpace (TrimLeftSpace s).

(** *** Properties of the trimming functions *)

(** Byte strings made of whole space runes. *)
Inductive spaces : bytes -> Prop :=
| spaces_nil : spaces []
| spaces_app e s : e ∈ space_encodings -> spaces s -> spaces (e ++ s).

Lemma spaces_app_r p q : spaces p -> spaces q -> spaces (p ++ q).
Proof. intros Hp Hq. induction Hp; [done|]. rewrite <-app_assoc. by constructor. Qed.

Lemma space_encodings_ne e : e ∈ space_encodings -> e <> [].
Proof.
  assert (Forall (λ e, e <> []) space_encodings) as Hall
    by (apply (bool_decide_unpack _); vm_compute; reflexivity).
  intros He. by eapply Forall_forall in Hall.
Qed.

Lemma HasSuffix_spec s e : HasSuffix s e = true <-> e `suffix_of` s.
Proof.
  unfold HasSuffix. rewrite andb_true_iff, !bool_decide_eq_true. split.
  - intros [_ <-]. apply suffix_drop.
  - intros [k ->]. rewrite length_app. split; [lia|].
    rewrite Nat.add_sub. apply drop_app_length.
Qed.

Lemma lead_space_len_cases s :
  (lead_space_len s = 0 /\ forall e, e ∈ space_encodings -> ~ e `prefix_of` s)
  \/ (exists e, e ∈ space_encodings /\ e `prefix_of` s /\ lead_space_len s = length e).
Proof.
  unfold lead_space_len. destruct (list_find _ _) as [[i e]|] eqn:E.
  - right. apply list_find_Some in E as (Hl & Hp & _).
    exists e. split; [by eapply list_elem_of_lookup_2|]. by rewrite <-HasPrefix_spec.
  - left. split; [done|]. apply list_find_None in E.
    intros e He Hp%HasPrefix_spec. by eapply Forall_forall in E.
Qed.

Lemma trail_space_len_cases s :
  (trail_space_len s = 0 /\ forall e, e ∈ space_encodings -> ~ e `suffix_of` s)
  \/ (exists e, e ∈ space_encodings /\ e `suffix_of` s /\ trail_space_len s = length e).
Proof.
  unfold trail_space_len. destruct (list_find _ _) as [[i e]|] eqn:E.
  - right. apply list_find_Some in E as (Hl & Hp & _).
    exists e. split; [by eapply list_elem_of_lookup_2|]. by rewrite <-HasSuffix_spec.
  - left. split; [done|]. apply list_find_None in E.
    intros e He Hp%HasSuffix_spec. by eapply Forall_forall in E.
Qed.

Lemma lead_space_len_zero s e :
  lead_space_len s = 0 -> e ∈ space_encodings -> ~ e `prefix_of` s.
Proof.
  intros H0 He. destruct (lead_space_len_cases s) as [[_ H]|(e' & He' & _ & Hl)];
    [by apply H|].
  apply space_encodings_ne in He'. destruct e'; simpl in *; congruence.
Qed.

Lemma trail_space_len_zero s e :
  trail_space_len s = 0 -> e ∈ space_encodings -> ~ e `suffix_of` s.
Proof.
  intros H0 He. destruct (trail_space_len_cases s) as [[_ H]|(e' & He' & _ & Hl)];
    [by apply H|].
  apply space_encodings_ne in He'. destruct e'; simpl in *; congruence.
Qed.

Lemma lead_space_len_nil : lead_space_len [] = 0.
Proof. reflexivity. Qed.

Lemma trail_space_len_nil : trail_space_len [] = 0.
Proof. reflexivity. Qed.

Lemma lead_space_len_take s k :
  lead_space_len s = 0 -> lead_space_len (take k s) = 0.
Proof.
  intros H0. destruct (lead_space_len_cases (take k s)) as [[? _]|(e & He & Hp & _)];
    [done|].
  exfalso. apply (lead_space_len_zero s e H0 He). by trans (take k s); [|apply prefix_take].
Qed.

Lemma trim_left_loop_spec fuel s :
  length s ≤ fuel ->
  exists p, spaces p /\ s = p ++ trim_left_loop fuel s
            /\ lead_space_len (trim_left_loop fuel s) = 0.
Proof.
  revert s. induction fuel as [|fuel IH]; intros s Hlen; simpl.
  - destruct s; [|simpl in Hlen; lia]. exists []. repeat split; constructor.
  - destruct (lead_space_len_cases s) as [[H0 _]|(e & He & [r ->] & Hl)].
    { rewrite H0. exists []. by repeat split; [constructor|]. }
    rewrite Hl. pose proof (space_encodings_ne e He).
    destruct e as [|b e']; [done|]. simpl. rewrite drop_app_length.
    destruct (IH r) as (p & Hp & Hr & H0); [simpl in Hlen; rewrite length_app in Hlen; lia|].
    exists ((b :: e') ++ p). split; [by constructor|]. split; [|done].
    rewrite Hr at 1. by rewrite <-app_assoc.
Qed.

Lemma trim_right_loop_spec fuel s :
  length s ≤ fuel ->
  exists q, spaces q /\ s = trim_right_loop fuel s ++ q
            /\ trail_space_len (trim_right_loop fuel s) = 0.
Proof.
  revert s. induction fuel as [|fuel IH]; intros s Hlen; simpl.
  - destruct s; [|simpl in Hlen; lia]. exists []. repeat split; constructor.
  - destruct (trail_space_len_cases s) as [[H0 _]|(e & He & [k ->] & Hl)].
    { rewrite H0. exists []. rewrite app_nil_r. by repeat split; [constructor|]. }
    rewrite Hl. pose proof (space_encodings_ne e He).
    destruct e as [|b e']; [done|]. cbn [length].
    rewrite (take_app_length' k) by (rewrite length_app; simpl; lia).
    destruct (IH k) as (q & Hq & Hk & H0); [rewrite length_app in Hlen; simpl in Hlen; lia|].
    exists (q ++ b :: e'). split.
    + apply spaces_app_r; [done|]. rewrite <-(app_nil_r (b :: e')). by constructor; [|constructor].
    + split; [|done]. rewrite Hk at 1. by rewrite <-app_assoc.
Qed.

Lemma TrimLeftSpace_id s : lead_space_len s = 0 -> TrimLeftSpace s = s.
Proof. intros H0. unfold TrimLeftSpace. destruct (length s); simpl; by rewrite ?H0. Qed.

Lemma TrimRightSpace_id s : trail_space_len s = 0 -> TrimRightSpace s = s.
Proof. intros H0. unfold TrimRightSpace. destruct (length s); simpl; by rewrite ?H0. Qed.

Lemma TrimSpace_decomp s :
  exists p q, spaces p /\ spaces q /\ s = p ++ TrimSpace s ++ q
    /\ lead_space_len (TrimSpace s) = 0 /\ trail_space_len (TrimSpace s) = 0.
Proof.
  unfold TrimSpace, TrimLeftSpace, TrimRightSpace.
  destruct (trim_left_loop_spec (length s) s) as (p & Hp & Hs & Hl); [done|].
  set (t := trim_left_loop (length s) s) in *.
  destruct (trim_right_loop_spec (length t) t) as (q & Hq & Ht & Hr); [done|].
  exists p, q. do 2 (split; [done|]). split; [by rewrite <-Ht|].
  split; [|done]. rewrite Ht in Hl.
  rewrite <-(take_app_length (trim_right_loop (length t) t) q).
  by apply lead_space_len_take.
Qed.

Lemma TrimSpace_id s :
  lead_space_len s = 0 -> trail_space_len s = 0 -> TrimSpace s = s.
Proof.
  intros Hl Hr. unfold TrimSpace. by rewrite TrimLeftSpace_id, TrimRightSpace_id.
Qed.

(** [strings.TrimSpace] is idempotent. *)
Lemma TrimSpace_idempotent s : TrimSpace (TrimSpace s) = TrimSpace s.
Proof.
  destruct (TrimSpace_decomp s) as (p & q & _ & _ & _ & Hl & Ht).
  by apply TrimSpace_id.
Qed.

End GoStrings.
