(* ===== verification/Unicode.v ===== *)
(** * UTF-8 decoding and [strings.TrimSpace] as Go writes them

    src/main.go trims every key and value of a RECEIVE datagram with
    [strings.TrimSpace] (lines 119-120).  [GoStrings] specifies trimming as
    the removal of whole UTF-8 encodings of White_Space runes
    ([GoStrings.TrimSpace]).  This file transcribes the code Go runs and
    proves it equal to that specification.
    - [Module Utf8] (go/src/unicode/utf8/utf8.go, go/src/unicode/graphic.go):
      [DecodeRuneInString] with its [first] and [acceptRanges] tables and its
      masks, shifts and ors, [RuneStart], [DecodeLastRuneInString] with its
      backward scan bounded by [UTFMax], and [unicode.IsSpace].
    - [Module Trim] (go/src/strings/strings.go): [indexFunc] (a
      [for i, r := range s] loop), [lastIndexFunc], [TrimLeftFunc],
      [TrimRightFunc], [TrimFunc] and [TrimSpace] with its ASCII fast path
      over the [asciiSpace] table.
    Runes are Go's [int32] values as [Z]; a byte is read as its unsigned
    value ([byte_val], [at_]).  The loops take a fuel argument of [len(s)],
    enough because every iteration consumes at least one byte
    ([decode_width], [decode_last_width]).

    The proofs: the rune assembled from masks and shifts is a sum of
    digits ([rune2], [rune3], [rune4]) which [utf8_encode] inverts
    ([encode_2], [encode_3]); a White_Space rune is decoded, forward and
    backward, exactly where the specification sees its encoding
    ([lead_space_len_decode], [trail_space_len_decode]); the two loops
    compute the specification's trimming ([TrimLeftFunc_IsSpace],
    [TrimRightFunc_IsSpace]); and the fast path agrees with them
    ([TrimSpace_spec]).  This is library code, not part of the repository:
    the map of the development does not name these definitions. *)

From S2P Require Import Prelude GoStrings.
From Stdlib Require Import ZArith NArith Lia.
Import GoStrings.
Local Open Scope list_scope.
Local Open Scope Z_scope.

Module Utf8.

(** ** Constants of go/src/unicode/utf8/utf8.go *)

Definition RuneError : Z := 0xFFFD.
Definition RuneSelf : Z := 0x80.
Definition UTFMax : Z := 4.

Definition maskx : Z := 0x3F.
Definition mask2 : Z := 0x1F.
Definition mask3 : Z := 0x0F.
Definition mask4 : Z := 0x07.
Definition locb : Z := 0x80.
Definition hicb : Z := 0xBF.

(** The entries of the [first] table: [xx] invalid, [as] ASCII, [s1] to
    [s7] the size of the sequence in the low nibble and the index of its
    accept range in the high nibble. *)
Definition xx : Z := 0xF1.
Definition as_ : Z := 0xF0.
Definition s1 : Z := 0x02.
Definition s2 : Z := 0x13.
Definition s3 : Z := 0x03.
Definition s4 : Z := 0x23.
Definition s5 : Z := 0x34.
Definition s6 : Z := 0x04.
Definition s7 : Z := 0x44.

(** [var first = [256]uint8{...}], written by the ranges of its rows. *)
Definition first (b : Z) : Z :=
  if b <? 0x80 then as_
  else if b <? 0xC2 then xx
  else if b <? 0xE0 then s1
  else if b =? 0xE0 then s2
  else if b <? 0xED then s3
  else if b =? 0xED then s4
  else if b <? 0xF0 then s3
  else if b =? 0xF0 then s5
  else if b <? 0xF4 then s6
  else if b =? 0xF4 then s7
  else xx.

Record acceptRange := { lo : Z; hi : Z }.

(** [var acceptRanges = [16]acceptRange{...}]: entries 5 to 15 are zero. *)
Definition acceptRanges (i : Z) : acceptRange :=
  if i =? 0 then {| lo := locb; hi := hicb |}
  else if i =? 1 then {| lo := 0xA0; hi := hicb |}
  else if i =? 2 then {| lo := locb; hi := 0x9F |}
  else if i =? 3 then {| lo := 0x90; hi := hicb |}
  else if i =? 4 then {| lo := locb; hi := 0x8F |}
  else {| lo := 0; hi := 0 |}.

(** A Go [byte] read as an integer. *)
Definition byte_val (b : Byte.byte) : Z := Z.of_N (Byte.to_N b).

(** [s[i]] as an unsigned byte value.  Every read below is guarded by a
    length test, so the default is never used. *)
Definition at_ (s : bytes) (i : Z) : Z :=
  match s !! Z.to_nat i with
  | Some b => byte_val b
  | None => 0
  end.

(** The value of a Go [int32] computed as [z]: two's complement wrap. *)
Definition int32 (z : Z) : Z :=
  let m := z mod 2 ^ 32 in if m <? 2 ^ 31 then m else m - 2 ^ 32.

(** [func DecodeRuneInString(s string) (rune, int)]. *)
Definition DecodeRuneInString (s : bytes) : Z * Z :=
  let n := Z.of_nat (length s) in
  if n <? 1 then (RuneError, 0) else
  let s0 := at_ s 0 in
  let x := first s0 in
  if as_ <=? x then
    (* mask := rune(x) << 31 >> 31 // Create 0x0000 or 0xFFFF. *)
    let mask := Z.shiftr (int32 (Z.shiftl x 31)) 31 in
    (Z.lor (Z.land s0 (Z.lnot mask)) (Z.land RuneError mask), 1)
  else
  let sz := Z.land x 7 in
  let accept := acceptRanges (Z.shiftr x 4) in
  if n <? sz then (RuneError, 1) else
  let b1 := at_ s 1 in
  if (b1 <? lo accept) || (hi accept <? b1) then (RuneError, 1) else
  if sz <=? 2 then
    (Z.lor (Z.shiftl (Z.land s0 mask2) 6) (Z.land b1 maskx), 2) else
  let b2 := at_ s 2 in
  if (b2 <? locb) || (hicb <? b2) then (RuneError, 1) else
  if sz <=? 3 then
    (Z.lor (Z.lor (Z.shiftl (Z.land s0 mask3) 12) (Z.shiftl (Z.land b1 maskx) 6))
           (Z.land b2 maskx), 3) else
  let b3 := at_ s 3 in
  if (b3 <? locb) || (hicb <? b3) then (RuneError, 1) else
  (Z.lor (Z.lor (Z.lor (Z.shiftl (Z.land s0 mask4) 18) (Z.shiftl (Z.land b1 maskx) 12))
                (Z.shiftl (Z.land b2 maskx) 6)) (Z.land b3 maskx), 4).

(** [func RuneStart(b byte) bool { return b&0xC0 != 0x80 }]. *)
Definition RuneStart (b : Z) : bool := negb (Z.land b 0xC0 =? 0x80).

(** The loop [for start--; start >= lim; start-- { if RuneStart(s[start])
    { break } }] after its first decrement, run for the [k] indices
    [start, start-1, ..., lim]: it stops at the first rune start or one
    below [lim]. *)
Fixpoint scan_back (s : bytes) (start : Z) (k : nat) : Z :=
  match k with
  | O => start
  | S k' => if RuneStart (at_ s start) then start else scan_back s (start - 1) k'
  end.

(** [func DecodeLastRuneInString(s string) (rune, int)]. *)
Definition DecodeLastRuneInString (s : bytes) : Z * Z :=
  let end_ := Z.of_nat (length s) in
  if end_ =? 0 then (RuneError, 0) else
  let start := end_ - 1 in
  let r := at_ s start in
  if r <? RuneSelf then (r, 1) else
  let lim := Z.max (end_ - UTFMax) 0 in
  let start := scan_back s (start - 1) (Z.to_nat (start - lim)) in
  let start := Z.max start 0 in
  let '(r, size) := DecodeRuneInString (drop (Z.to_nat start) s) in
  if negb (start + size =? end_) then (RuneError, 1) else (r, size).

(** [func IsSpace(r rune) bool] of go/src/unicode/graphic.go: the Latin-1
    switch, and the White_Space table above Latin-1. *)
Definition MaxLatin1 : Z := 0xFF.

Definition white_space_above_latin1 : list Z :=
  [0x1680; 0x2000; 0x2001; 0x2002; 0x2003; 0x2004; 0x2005; 0x2006; 0x2007;
   0x2008; 0x2009; 0x200A; 0x2028; 0x2029; 0x202F; 0x205F; 0x3000].

Definition IsSpace (r : Z) : bool :=
  if (0 <=? r) && (r <=? MaxLatin1) then
    bool_decide (r ∈ [0x09; 0x0A; 0x0B; 0x0C; 0x0D; 0x20; 0x85; 0xA0])
  else bool_decide (r ∈ white_space_above_latin1).

End Utf8.

Module Trim.
Import Utf8.

(** [func indexFunc(s string, f func(rune) bool, truth bool) int]:
    [for i, r := range s { if f(r) == truth { return i } }; return -1].
    [range] decodes the rune at [i] as [DecodeRuneInString(s[i:])] does and
    steps by its width, at least one byte: [fuel] counts the iterations,
    [len(s)] of them are enough ([index_loop_fuel]). *)
Fixpoint index_loop (f : Z -> bool) (truth : bool) (s : bytes) (i : Z) (fuel : nat) : Z :=
  match fuel with
  | O => -1
  | S fuel =>
      if i <? Z.of_nat (length s) then
        let '(r, width) := DecodeRuneInString (drop (Z.to_nat i) s) in
        if Bool.eqb (f r) truth then i else index_loop f truth s (i + width) fuel
      else -1
  end.

Definition indexFunc (s : bytes) (f : Z -> bool) (truth : bool) : Z :=
  index_loop f truth s 0 (length s).

(** [func lastIndexFunc(s string, f func(rune) bool, truth bool) int]:
    [for i := len(s); i > 0; { r, size := utf8.DecodeLastRuneInString(s[0:i]);
    i -= size; if f(r) == truth { return i } }; return -1]. *)
Fixpoint last_index_loop (f : Z -> bool) (truth : bool) (s : bytes) (i : Z) (fuel : nat) : Z :=
  match fuel with
  | O => -1
  | S fuel =>
      if 0 <? i then
        let '(r, size) := DecodeLastRuneInString (take (Z.to_nat i) s) in
        let i := i - size in
        if Bool.eqb (f r) truth then i else last_index_loop f truth s i fuel
      else -1
  end.

Definition lastIndexFunc (s : bytes) (f : Z -> bool) (truth : bool) : Z :=
  last_index_loop f truth s (Z.of_nat (length s)) (length s).

(** [func TrimLeftFunc(s string, f func(rune) bool) string]. *)
Definition TrimLeftFunc (s : bytes) (f : Z -> bool) : bytes :=
  let i := indexFunc s f false in
  if i =? -1 then [] else drop (Z.to_nat i) s.

(** [func TrimRightFunc(s string, f func(rune) bool) string]: after the last
    rune that is not trimmed, keep its whole width. *)
Definition TrimRightFunc (s : bytes) (f : Z -> bool) : bytes :=
  let i := lastIndexFunc s f false in
  let i := if (0 <=? i) && (RuneSelf <=? at_ s i)
           then i + snd (DecodeRuneInString (drop (Z.to_nat i) s))
           else i + 1 in
  take (Z.to_nat i) s.

(** [func TrimFunc(s string, f func(rune) bool) string]. *)
Definition TrimFunc (s : bytes) (f : Z -> bool) : bytes :=
  TrimRightFunc (TrimLeftFunc s f) f.

(** [var asciiSpace = [256]uint8{'\t': 1, '\n': 1, '\v': 1, '\f': 1,
    '\r': 1, ' ': 1}]. *)
Definition asciiSpace (c : Z) : Z :=
  if bool_decide (c ∈ [0x09; 0x0A; 0x0B; 0x0C; 0x0D; 0x20]) then 1 else 0.

(** The first loop of [TrimSpace]: [for ; start < len(s); start++ { c :=
    s[start]; if c >= utf8.RuneSelf { return TrimFunc(s[start:],
    unicode.IsSpace) }; if asciiSpace[c] == 0 { break } }], with [k]
    iterations left.  [inl] is the early return, [inr] the final [start]. *)
Fixpoint space_start (s : bytes) (start : Z) (k : nat) : bytes + Z :=
  match k with
  | O => inr start
  | S k =>
      if start <? Z.of_nat (length s) then
        let c := at_ s start in
        if RuneSelf <=? c then inl (TrimFunc (drop (Z.to_nat start) s) IsSpace)
        else if asciiSpace c =? 0 then inr start
        else space_start s (start + 1) k
      else inr start
  end.

(** The second loop: [for ; stop > start; stop-- { c := s[stop-1]; if c >=
    utf8.RuneSelf { return TrimRightFunc(s[start:stop], unicode.IsSpace) };
    if asciiSpace[c] == 0 { break } }]. *)
Fixpoint space_stop (s : bytes) (start stop : Z) (k : nat) : bytes + Z :=
  match k with
  | O => inr stop
  | S k =>
      if start <? stop then
        let c := at_ s (stop - 1) in
        if RuneSelf <=? c then
          inl (TrimRightFunc (take (Z.to_nat (stop - start)) (drop (Z.to_nat start) s)) IsSpace)
        else if asciiSpace c =? 0 then inr stop
        else space_stop s start (stop - 1) k
      else inr stop
  end.

(** [func TrimSpace(s string) string]: the ASCII fast path, falling back to
    [TrimFunc] and [TrimRightFunc] at the first byte that is not ASCII;
    [len(s)] iterations of each loop are enough. *)
Definition TrimSpace (s : bytes) : bytes :=
  match space_start s 0 (length s) with
  | inl r => r
  | inr start =>
      match space_stop s start (Z.of_nat (length s)) (length s) with
      | inl r => r
      | inr stop => take (Z.to_nat (stop - start)) (drop (Z.to_nat start) s)
      end
  end.

End Trim.

(** ** Reading bytes *)

Import Utf8 Trim.

Lemma byte_val_range b : 0 <= byte_val b < 256.
Proof. unfold byte_val. pose proof (Byte.to_N_bounded b). lia. Qed.

Lemma byte_val_inj a b : byte_val a = byte_val b -> a = b.
Proof.
  unfold byte_val. intros H%N2Z.inj.
  apply (f_equal Byte.of_N) in H. rewrite !Byte.of_to_N in H. congruence.
Qed.

Lemma byte_of_val b : byte_of (Z.to_N (byte_val b)) = b.
Proof. unfold byte_of, byte_val. by rewrite N2Z.id, Byte.of_to_N. Qed.

Lemma at_range s i : 0 <= at_ s i < 256.
Proof. unfold at_. destruct (s !! Z.to_nat i); [apply byte_val_range|lia]. Qed.

Lemma at_cons_0 b l : at_ (b :: l) 0 = byte_val b.
Proof. done. Qed.

Lemma at_cons_1 b l : at_ (b :: l) 1 = at_ l 0.
Proof. done. Qed.
Lemma at_cons_2 b l : at_ (b :: l) 2 = at_ l 1.
Proof. done. Qed.
Lemma at_cons_3 b l : at_ (b :: l) 3 = at_ l 2.
Proof. done. Qed.
Lemma at_nil i : at_ [] i = 0.
Proof. done. Qed.


Lemma at_app_l l q i : 0 <= i < Z.of_nat (length l) -> at_ (l ++ q) i = at_ l i.
Proof. intros Hi. unfold at_. by rewrite lookup_app_l by lia. Qed.

Lemma at_app_r l q i :
  Z.of_nat (length l) <= i -> at_ (l ++ q) i = at_ q (i - Z.of_nat (length l)).
Proof.
  intros Hi. unfold at_. rewrite lookup_app_r by lia.
  by replace (Z.to_nat i - length l)%nat with (Z.to_nat (i - Z.of_nat (length l))) by lia.
Qed.

Lemma at_drop s k i : 0 <= i -> at_ (drop k s) i = at_ s (Z.of_nat k + i).
Proof.
  intros Hi. unfold at_. rewrite lookup_drop.
  by replace (k + Z.to_nat i)%nat with (Z.to_nat (Z.of_nat k + i)) by lia.
Qed.

Lemma at_take s k i : 0 <= i < Z.of_nat k -> at_ (take k s) i = at_ s i.
Proof. intros Hi. unfold at_. by rewrite lookup_take_lt by lia. Qed.

(** Settle the comparisons of the goal [lia] decides, split on the others. *)
Ltac zcmp :=
  match goal with
  | |- context [Z.ltb ?a ?b] =>
      first [ rewrite (proj2 (Z.ltb_lt a b)) by lia
            | rewrite (proj2 (Z.ltb_ge a b)) by lia
            | destruct (Z.ltb_spec a b) ]
  | |- context [Z.leb ?a ?b] =>
      first [ rewrite (proj2 (Z.leb_le a b)) by lia
            | rewrite (proj2 (Z.leb_gt a b)) by lia
            | destruct (Z.leb_spec a b) ]
  | |- context [Z.eqb ?a ?b] =>
      first [ rewrite (proj2 (Z.eqb_eq a b)) by lia
            | rewrite (proj2 (Z.eqb_neq a b)) by lia
            | destruct (Z.eqb_spec a b) ]
  end; cbn [orb andb negb fst snd lo hi].

(** Split on every comparison, closing the impossible branches. *)
Ltac zcases := repeat (zcmp; try lia).

(** The rows of [first], by ranges of the byte. *)
Lemma first_cases b : 0 <= b < 256 ->
  (b < 0x80 /\ first b = 0xF0) \/ (0x80 <= b < 0xC2 /\ first b = 0xF1)
  \/ (0xC2 <= b < 0xE0 /\ first b = 0x02) \/ (b = 0xE0 /\ first b = 0x13)
  \/ (0xE1 <= b < 0xED /\ first b = 0x03) \/ (b = 0xED /\ first b = 0x23)
  \/ (0xEE <= b < 0xF0 /\ first b = 0x03) \/ (b = 0xF0 /\ first b = 0x34)
  \/ (0xF1 <= b < 0xF4 /\ first b = 0x04) \/ (b = 0xF4 /\ first b = 0x44)
  \/ (0xF4 < b /\ first b = 0xF1).
Proof.
  intros Hb. revert b Hb.
  enough (Hall : forall n : nat, n ∈ seq 0 256 -> let b := Z.of_nat n in
    (b < 0x80 /\ first b = 0xF0) \/ (0x80 <= b < 0xC2 /\ first b = 0xF1)
    \/ (0xC2 <= b < 0xE0 /\ first b = 0x02) \/ (b = 0xE0 /\ first b = 0x13)
    \/ (0xE1 <= b < 0xED /\ first b = 0x03) \/ (b = 0xED /\ first b = 0x23)
    \/ (0xEE <= b < 0xF0 /\ first b = 0x03) \/ (b = 0xF0 /\ first b = 0x34)
    \/ (0xF1 <= b < 0xF4 /\ first b = 0x04) \/ (b = 0xF4 /\ first b = 0x44)
    \/ (0xF4 < b /\ first b = 0xF1)).
  { intros b Hb. rewrite <-(Z2Nat.id b) by lia. apply Hall.
    apply list_elem_of_In, in_seq. lia. }
  apply Forall_forall, (bool_decide_unpack _). vm_compute. reflexivity.
Qed.

(** [t] mentions no variable. *)
Ltac zclosed t := assert_fails (idtac; match t with context [?x] => is_var x end).
(** Replace the closed term [t] by its value. *)
Ltac zeval t := let v := eval vm_compute in t in change t with v in *.

(** Evaluate what the row [x] of [first] selects: its size [x & 7], its
    accept range [acceptRanges[x >> 4]], the ASCII test and the mask. *)
Ltac decode_row :=
  repeat match goal with
  | |- context [Z.land ?c 7] => zclosed c; zeval (Z.land c 7)
  | |- context [acceptRanges (Z.shiftr ?c 4)] =>
      zclosed c; zeval (acceptRanges (Z.shiftr c 4))
  | |- context [Z.leb 0xF0 ?c] => zclosed c; zeval (Z.leb 0xF0 c)
  | |- context [Z.shiftr (int32 (Z.shiftl ?c 31)) 31] =>
      zclosed c; zeval (Z.shiftr (int32 (Z.shiftl c 31)) 31)
  end; cbn [lo hi orb andb negb] in *.

(** ** Bit operations as arithmetic *)

(** An [or] of bit-disjoint values is their sum. *)
Lemma lor_add x b n : 0 <= n -> x mod 2 ^ n = 0 -> 0 <= b < 2 ^ n -> Z.lor x b = x + b.
Proof.
  intros Hn Hx Hb.
  assert (Z.land x b = 0) as H0.
  { apply Z.bits_inj_0. intros i. rewrite Z.land_spec.
    destruct (Z.lt_ge_cases i n) as [Hi|Hi].
    - destruct (Z.lt_ge_cases i 0) as [Hneg|Hpos]; [by rewrite Z.testbit_neg_r|].
      rewrite <-(Z.mod_pow2_bits_low x n i) by lia. rewrite Hx, Z.bits_0. done.
    - rewrite <-(Z.mod_small b (2 ^ n)) by lia.
      rewrite Z.mod_pow2_bits_high by lia. apply andb_false_r. }
  rewrite <-Z.lxor_lor by done. symmetry. by apply Z.add_nocarry_lxor.
Qed.

(** [lia] after turning [/] and [mod] into equations. *)
Ltac zlia := Z.div_mod_to_equations; lia.

Lemma land_ones_lit a n m k : 0 <= n -> m = Z.ones n -> k = 2 ^ n -> Z.land a m = a mod k.
Proof. intros Hn -> ->. by apply Z.land_ones. Qed.

Lemma shiftl_lit a n m : 0 <= n -> m = 2 ^ n -> Z.shiftl a n = a * m.
Proof. intros Hn ->. by apply Z.shiftl_mul_pow2. Qed.

(** Masks and shifts by literals as arithmetic. *)
Ltac bits_arith :=
  repeat first
    [ rewrite (land_ones_lit _ 6 63 64) in * by done
    | rewrite (land_ones_lit _ 5 31 32) in * by done
    | rewrite (land_ones_lit _ 4 15 16) in * by done
    | rewrite (land_ones_lit _ 3 7 8) in * by done
    | rewrite (shiftl_lit _ 6 64) in * by done
    | rewrite (shiftl_lit _ 12 4096) in * by done
    | rewrite (shiftl_lit _ 18 262144) in * by done ];
  idtac.

Lemma lor_lit x b n m : 0 <= n -> m = 2 ^ n -> x mod m = 0 -> 0 <= b < m -> Z.lor x b = x + b.
Proof. intros Hn -> Hx Hb. by apply (lor_add x b n). Qed.

(** The value the two-, three- and four-byte branches of
    [DecodeRuneInString] assemble with masks, shifts and ors. *)
Lemma rune2 a b :
  Z.lor (Z.shiftl (Z.land a 31) 6) (Z.land b 63) = (a mod 32) * 64 + b mod 64.
Proof.
  bits_arith. pose proof (Z.mod_pos_bound a 32 ltac:(lia)). pose proof (Z.mod_pos_bound b 64 ltac:(lia)).
  rewrite (lor_lit _ _ 6 64) by first [reflexivity | zlia]; lia.
Qed.

Lemma rune3 a b c :
  Z.lor (Z.lor (Z.shiftl (Z.land a 15) 12) (Z.shiftl (Z.land b 63) 6)) (Z.land c 63)
  = (a mod 16) * 4096 + (b mod 64) * 64 + c mod 64.
Proof.
  bits_arith. pose proof (Z.mod_pos_bound a 16 ltac:(lia)). pose proof (Z.mod_pos_bound b 64 ltac:(lia)).
  pose proof (Z.mod_pos_bound c 64 ltac:(lia)).
  rewrite (lor_lit (a mod 16 * 4096) _ 12 4096), (lor_lit _ (c mod 64) 6 64)
    by first [reflexivity | zlia]; lia.
Qed.

Lemma rune4 a b c d :
  Z.lor (Z.lor (Z.lor (Z.shiftl (Z.land a 7) 18) (Z.shiftl (Z.land b 63) 12))
               (Z.shiftl (Z.land c 63) 6)) (Z.land d 63)
  = (a mod 8) * 262144 + (b mod 64) * 4096 + (c mod 64) * 64 + d mod 64.
Proof.
  bits_arith. pose proof (Z.mod_pos_bound a 8 ltac:(lia)). pose proof (Z.mod_pos_bound b 64 ltac:(lia)).
  pose proof (Z.mod_pos_bound c 64 ltac:(lia)). pose proof (Z.mod_pos_bound d 64 ltac:(lia)).
  rewrite (lor_lit (a mod 8 * 262144) _ 18 262144), (lor_lit _ (c mod 64 * 64) 12 4096),
    (lor_lit _ (d mod 64) 6 64)
    by first [reflexivity | zlia]; lia.
Qed.

(** The same on [N] goals about values computed in [Z]. *)
Ltac nlia :=
  repeat match goal with |- context [byte_val ?a] => generalize dependent (byte_val a) end;
  intros; apply N2Z.inj; rewrite ?N2Z.inj_add, ?N2Z.inj_mod, ?N2Z.inj_div, ?Z2N.id by zlia;
  zlia.

(** [unicode.IsSpace] holds exactly of the White_Space runes. *)
Lemma IsSpace_spec r : IsSpace r = true <-> r ∈ Z.of_N <$> space_runes.
Proof.
  unfold IsSpace, MaxLatin1, white_space_above_latin1.
  destruct (andb _ _) eqn:E; rewrite bool_decide_eq_true; cbn;
    rewrite ?andb_true_iff, ?andb_false_iff, ?Z.leb_le, ?Z.leb_gt in E;
    rewrite !elem_of_cons, ?elem_of_nil; lia.
Qed.

Lemma IsSpace_range r : IsSpace r = true -> 0 <= r <= 0x3000 /\ r <> RuneError.
Proof. rewrite IsSpace_spec. cbn. rewrite !elem_of_cons, elem_of_nil. unfold RuneError. lia. Qed.

Lemma byte_of_N_val a n : n = Z.to_N (byte_val a) -> byte_of n = a.
Proof. intros ->. apply byte_of_val. Qed.

(** [utf8.EncodeRune] inverts the assembly of a valid sequence. *)
Lemma encode_1 a : byte_val a < 0x80 -> utf8_encode (Z.to_N (byte_val a)) = [a].
Proof.
  intros Ha. unfold utf8_encode. rewrite bool_decide_true by lia.
  by rewrite byte_of_val.
Qed.

Lemma encode_2 a b :
  0xC2 <= byte_val a < 0xE0 -> 0x80 <= byte_val b < 0xC0 ->
  utf8_encode (Z.to_N ((byte_val a mod 32) * 64 + byte_val b mod 64)) = [a; b].
Proof.
  intros Ha Hb. unfold utf8_encode.
  rewrite bool_decide_false, bool_decide_true by zlia.
  f_equal; [|f_equal]; apply byte_of_N_val; nlia.
Qed.

Lemma encode_3 a b c :
  0xE0 <= byte_val a < 0xF0 -> 0x80 <= byte_val b < 0xC0 -> 0x80 <= byte_val c < 0xC0 ->
  (byte_val a = 0xE0 -> 0xA0 <= byte_val b) ->
  utf8_encode (Z.to_N ((byte_val a mod 16) * 4096 + (byte_val b mod 64) * 64
                       + byte_val c mod 64)) = [a; b; c].
Proof.
  intros Ha Hb Hc Hab. unfold utf8_encode.
  assert (0x800 <= (byte_val a mod 16) * 4096 + (byte_val b mod 64) * 64)
    by (destruct (Z.eq_dec (byte_val a) 0xE0); [specialize (Hab ltac:(done))|]; zlia).
  rewrite bool_decide_false, bool_decide_false, bool_decide_true by zlia.
  f_equal; [|f_equal; [|f_equal]]; apply byte_of_N_val; nlia.
Qed.

Lemma RuneStart_iff b : 0 <= b < 256 -> RuneStart b = true <-> b < 0x80 \/ 0xC0 <= b.
Proof.
  intros Hb.
  assert (Hall : forallb (λ n, let b := Z.of_nat n in
            Bool.eqb (RuneStart b) ((b <? 0x80) || (0xC0 <=? b))) (seq 0 256) = true)
    by (vm_compute; reflexivity).
  rewrite forallb_forall in Hall. specialize (Hall (Z.to_nat b)).
  rewrite in_seq, Z2Nat.id in Hall by lia. specialize (Hall ltac:(lia)).
  apply Bool.eqb_prop in Hall. rewrite Hall, orb_true_iff, Z.ltb_lt, Z.leb_le. done.
Qed.

(** Reads [s[0]] to [s[3]] of a list whose first bytes are known. *)
Ltac reads := rewrite ?at_cons_3, ?at_cons_2, ?at_cons_1, ?at_cons_0, ?at_nil.

(** Split on the row of [first] the first byte selects. *)
Ltac split_first :=
  match goal with
  | |- context [first ?v] =>
      let Hr := fresh in
      assert (Hr : 0 <= v < 256) by first [apply byte_val_range | apply at_range];
      let Hc := fresh in pose proof (first_cases v Hr) as Hc;
      let Hf := fresh in destruct_or! Hc; destruct Hc as [? Hf]; rewrite Hf; clear Hf
  end.

(** Unfold [DecodeRuneInString] on a list of known shape, down to the
    comparisons on its bytes. *)
Ltac decode_unfold :=
  unfold DecodeRuneInString; cbv zeta; cbn [app length]; reads; split_first;
  unfold as_, RuneError, locb, hicb, maskx, mask2, mask3, mask4; decode_row.

(** Decoding stops before a byte that starts a rune. *)
Lemma decode_app_start x q :
  x <> [] -> RuneStart (at_ q 0) = true ->
  DecodeRuneInString (x ++ q) = DecodeRuneInString x.
Proof.
  intros Hx Hq. apply RuneStart_iff in Hq; [|apply at_range].
  pose proof (at_range q 0).
  destruct x as [|a [|b [|c [|d x']]]]; [done| | | |]; decode_unfold; zcases; reflexivity.
Qed.

(** Evaluate the mask of the one-byte branch. *)
Ltac mask_simpl :=
  repeat match goal with
  | |- context [Z.lnot ?c] => zclosed c; zeval (Z.lnot c)
  | |- context [Z.land ?a ?b] => zclosed a; zclosed b; zeval (Z.land a b)
  end;
  rewrite ?Z.land_m1_r, ?Z.land_0_r, ?Z.lor_0_r, ?Z.lor_0_l.

(** Evaluate [Z.to_nat] of literals. *)
Ltac to_nat_lits :=
  repeat match goal with |- context [Z.to_nat ?c] => zclosed c; zeval (Z.to_nat c) end.

(** Close a goal with a hypothesis that a literal is a space. *)
Ltac not_space :=
  match goal with H : IsSpace ?c = true |- _ => zclosed c; vm_compute in H; discriminate H end.

(** A space rune decoded from the whole of [x] is decoded the same from
    any extension of [x]. *)
Lemma decode_app_whole x y :
  snd (DecodeRuneInString x) = Z.of_nat (length x) ->
  IsSpace (fst (DecodeRuneInString x)) = true ->
  DecodeRuneInString (x ++ y) = DecodeRuneInString x.
Proof.
  destruct x as [|a [|b [|c [|d x']]]]; [done| | | |]; decode_unfold; zcases;
    intros ? Hsp; first [reflexivity | lia | not_space].
Qed.

(** A space rune is decoded from its own UTF-8 encoding. *)
Lemma decode_space s :
  IsSpace (fst (DecodeRuneInString s)) = true ->
  (Z.to_nat (snd (DecodeRuneInString s)) <= length s)%nat /\
  take (Z.to_nat (snd (DecodeRuneInString s))) s = utf8_encode (Z.to_N (fst (DecodeRuneInString s))).
Proof.
  destruct s as [|a [|b [|c [|d s']]]]; [done| | | |]; decode_unfold; mask_simpl; zcases;
    intros Hsp; try not_space; rewrite ?rune2, ?rune3, ?rune4 in *; to_nat_lits; cbn [take].
  all: first [ split; [lia|]; symmetry; first [apply encode_1 | apply encode_2 | apply encode_3]; lia
             | apply IsSpace_range in Hsp; zlia ].
Qed.

(** ** Widths *)

Lemma decode_width s :
  s <> [] -> 1 <= snd (DecodeRuneInString s) <= Z.of_nat (length s).
Proof.
  intros Hs. assert (1 <= Z.of_nat (length s)) by (destruct s; [done|simpl; lia]).
  unfold DecodeRuneInString; cbv zeta. split_first.
  all: unfold as_, RuneError, locb, hicb, maskx, mask2, mask3, mask4; decode_row; zcases.
Qed.

Lemma decode_width_nonneg s : 0 <= snd (DecodeRuneInString s).
Proof. destruct s as [|b s]; [done|]. pose proof (decode_width (b :: s) ltac:(done)). lia. Qed.

(** The backward scan stops at the first rune start it meets. *)
Lemma scan_back_spec s j k m :
  (m < k)%nat ->
  (forall i, (i < m)%nat -> RuneStart (at_ s (j - Z.of_nat i)) = false) ->
  RuneStart (at_ s (j - Z.of_nat m)) = true ->
  scan_back s j k = j - Z.of_nat m.
Proof.
  revert j k. induction m as [|m IH]; intros j [|k] Hk Hnot Hst; try lia; cbn [scan_back].
  - rewrite Z.sub_0_r in Hst. by rewrite Hst, Z.sub_0_r.
  - pose proof (Hnot 0%nat ltac:(lia)) as H0. rewrite Z.sub_0_r in H0. rewrite H0.
    rewrite (IH (j - 1) k); [lia|lia| |].
    + intros i Hi. replace (j - 1 - Z.of_nat i) with (j - Z.of_nat (S i)) by lia. apply Hnot; lia.
    + by replace (j - 1 - Z.of_nat m) with (j - Z.of_nat (S m)) by lia.
Qed.

(** A space rune decoded from the end of [s] is its UTF-8 encoding. *)
Lemma decode_last_space s :
  IsSpace (fst (DecodeLastRuneInString s)) = true ->
  (Z.to_nat (snd (DecodeLastRuneInString s)) <= length s)%nat /\
  drop (length s - Z.to_nat (snd (DecodeLastRuneInString s))) s
  = utf8_encode (Z.to_N (fst (DecodeLastRuneInString s))).
Proof.
  unfold DecodeLastRuneInString; cbv zeta.
  destruct (Z.eqb_spec (Z.of_nat (length s)) 0) as [H0|H0]; [cbn [fst]; intros Hsp; not_space|].
  destruct (exists_last (l := s)) as (p & b & ->); [by intros ->|].
  rewrite length_app in *. cbn [length] in *.
  rewrite (at_app_r p [b] (Z.of_nat (length p + 1) - 1)) by lia. replace (Z.of_nat (length p + 1) - 1 - Z.of_nat (length p)) with 0 by lia.
  rewrite at_cons_0.
  destruct (Z.ltb_spec (byte_val b) RuneSelf).
  - cbn [fst snd]. intros _. split; [lia|]. to_nat_lits.
    replace (length p + 1 - 1)%nat with (length p) by lia. rewrite drop_app_length.
    symmetry. apply encode_1. unfold RuneSelf in *. lia.
  - set (start := Z.max _ 0).
    destruct (DecodeRuneInString (drop (Z.to_nat start) (p ++ [b]))) as [r size] eqn:Hd.
    destruct (negb (start + size =? Z.of_nat (length p + 1))) eqn:E;
      cbn [fst snd]; intros Hsp; [not_space|].
    apply negb_false_iff, Z.eqb_eq in E.
    pose proof (decode_space (drop (Z.to_nat start) (p ++ [b]))) as Hs.
    rewrite Hd in Hs. cbn [fst snd] in Hs. destruct (Hs Hsp) as [Hle Ht].
    rewrite length_drop, length_app in Hle. cbn [length] in Hle.
    rewrite take_ge in Ht by (rewrite length_drop, length_app; cbn [length]; lia).
    pose proof (decode_width_nonneg (drop (Z.to_nat start) (p ++ [b]))) as Hw.
    rewrite Hd in Hw. cbn [snd] in Hw. assert (0 <= start) by apply Z.le_max_r.
    split; [lia|]. rewrite <-Ht. f_equal. lia.
Qed.

(** The shape of the 25 encodings of White_Space runes. *)
Lemma space_encoding_shape r : r ∈ space_runes ->
  DecodeRuneInString (utf8_encode r) = (Z.of_N r, Z.of_nat (length (utf8_encode r))) /\
  ((length (utf8_encode r) = 1%nat /\ at_ (utf8_encode r) 0 = Z.of_N r /\ Z.of_N r < 0x80)
   \/ (length (utf8_encode r) = 2%nat /\ RuneStart (at_ (utf8_encode r) 0) = true
       /\ 0x80 <= at_ (utf8_encode r) 1)
   \/ (length (utf8_encode r) = 3%nat /\ RuneStart (at_ (utf8_encode r) 0) = true
       /\ RuneStart (at_ (utf8_encode r) 1) = false /\ 0x80 <= at_ (utf8_encode r) 2)).
Proof.
  revert r. apply Forall_forall. apply (bool_decide_unpack _). vm_compute. reflexivity.
Qed.

(** Finish the branch of [DecodeLastRuneInString] whose scan stopped at the
    start of the space rune after [p]. *)
Ltac last_start p :=
  match goal with |- context [Z.max ?x 0] => replace (Z.max x 0) with (Z.of_nat (length p)) by lia end;
  rewrite Nat2Z.id, drop_app_length;
  match goal with Hd : DecodeRuneInString _ = _ |- _ => rewrite Hd end;
  rewrite (proj2 (Z.eqb_eq _ _)) by lia; f_equal; lia.

(** A space rune at the end of [s] is what [DecodeLastRuneInString] finds. *)
Lemma decode_last_suffix p r : r ∈ space_runes ->
  DecodeLastRuneInString (p ++ utf8_encode r)
  = (Z.of_N r, Z.of_nat (length (utf8_encode r))).
Proof.
  intros Hr. destruct (space_encoding_shape r Hr) as [Hd Hshape].
  set (e := utf8_encode r) in *.
  unfold DecodeLastRuneInString; cbv zeta. rewrite length_app.
  rewrite (proj2 (Z.eqb_neq _ _)) by (destruct_or! Hshape; lia).
  rewrite at_app_r by (destruct_or! Hshape; lia).
  destruct Hshape as [(Hl & H0 & Ha)|[(Hl & Hs0 & H1)|(Hl & Hs0 & Hs1 & H2)]].
  - rewrite Hl. replace (_ - _ - _) with 0 by lia. rewrite H0.
    rewrite (proj2 (Z.ltb_lt _ _)) by (unfold RuneSelf; lia). done.
  - rewrite Hl. replace (_ - _ - _) with 1 by lia.
    rewrite (proj2 (Z.ltb_ge _ _)) by (unfold RuneSelf; lia).
    rewrite (scan_back_spec _ _ _ 0); [|unfold UTFMax; lia|intros; lia|].
    + last_start p.
    + rewrite at_app_r by lia. by replace (_ - _) with 0 by lia.
  - rewrite Hl. replace (_ - _ - _) with 2 by lia.
    rewrite (proj2 (Z.ltb_ge _ _)) by (unfold RuneSelf; lia).
    rewrite (scan_back_spec _ _ _ 1); [|unfold UTFMax; lia| |].
    + last_start p.
    + intros i Hi. replace i with 0%nat by lia.
      rewrite at_app_r by lia. by replace (_ - _) with 1 by lia.
    + rewrite at_app_r by lia. by replace (_ - _) with 0 by lia.
Qed.

(** ** Trimming whole space runes *)

(** UTF-8 is prefix-free and suffix-free on the space encodings. *)
Lemma space_encodings_prefix_free e e' :
  e ∈ space_encodings -> e' ∈ space_encodings -> e `prefix_of` e' -> e = e'.
Proof.
  intros He He'.
  assert (Forall (λ e, Forall (λ e', e `prefix_of` e' -> e = e') space_encodings)
            space_encodings) as Hall by (apply (bool_decide_unpack _); vm_compute; reflexivity).
  rewrite Forall_forall in Hall. specialize (Hall e He).
  rewrite Forall_forall in Hall. by apply Hall.
Qed.

Lemma space_encodings_suffix_free e e' :
  e ∈ space_encodings -> e' ∈ space_encodings -> e `suffix_of` e' -> e = e'.
Proof.
  intros He He'.
  assert (Forall (λ e, Forall (λ e', e `suffix_of` e' -> e = e') space_encodings)
            space_encodings) as Hall by (apply (bool_decide_unpack _); vm_compute; reflexivity).
  rewrite Forall_forall in Hall. specialize (Hall e He).
  rewrite Forall_forall in Hall. by apply Hall.
Qed.

Lemma lead_space_len_enc e s :
  e ∈ space_encodings -> e `prefix_of` s -> lead_space_len s = length e.
Proof.
  intros He Hp. destruct (lead_space_len_cases s) as [[_ Hn]|(e' & He' & Hp' & ->)].
  - by destruct (Hn e He).
  - destruct (prefix_weak_total e e' s Hp Hp') as [H|H].
    + by rewrite (space_encodings_prefix_free e e').
    + by rewrite (space_encodings_prefix_free e' e).
Qed.

Lemma trail_space_len_enc e s :
  e ∈ space_encodings -> e `suffix_of` s -> trail_space_len s = length e.
Proof.
  intros He Hp. destruct (trail_space_len_cases s) as [[_ Hn]|(e' & He' & Hp' & ->)].
  - by destruct (Hn e He).
  - destruct (suffix_weak_total e e' s Hp Hp') as [H|H].
    + by rewrite (space_encodings_suffix_free e e').
    + by rewrite (space_encodings_suffix_free e' e).
Qed.

(** Whole space runes split off at the end. *)
Lemma spaces_snoc q :
  spaces q -> q = [] \/ exists q' e, q = q' ++ e /\ spaces q' /\ e ∈ space_encodings.
Proof.
  induction 1 as [|e s He Hs IH]; [by left|right].
  destruct IH as [->|(q' & e' & -> & Hq' & He')].
  - exists [], e. rewrite app_nil_r. split_and!; [done|constructor|done].
  - exists (e ++ q'), e'. rewrite app_assoc. split_and!; [done|by constructor|done].
Qed.

Lemma trim_left_loop_app f p r :
  spaces p -> lead_space_len r = 0%nat -> (length (p ++ r) <= f)%nat ->
  trim_left_loop f (p ++ r) = r.
Proof.
  intros Hp Hr. revert f. induction Hp as [|e p He Hp IH]; intros [|f] Hf; cbn [app trim_left_loop].
  - destruct r; [done|simpl in Hf; lia].
  - by rewrite Hr.
  - pose proof (space_encodings_ne e He). destruct e; [done|simpl in Hf; lia].
  - rewrite <-app_assoc, (lead_space_len_enc e) by (done || by eexists).
    pose proof (space_encodings_ne e He). destruct e as [|b e]; [done|].
    cbn [length drop app]. rewrite drop_app_length. apply IH. rewrite !length_app in *. simpl in Hf. lia.
Qed.

Lemma trim_right_loop_app f r q :
  spaces q -> trail_space_len r = 0%nat -> (length (r ++ q) <= f)%nat ->
  trim_right_loop f (r ++ q) = r.
Proof.
  intros Hq Hr. revert q Hq. induction f as [|f IH]; intros q Hq Hf; cbn [trim_right_loop].
  - rewrite length_app in Hf. destruct r, q; simpl in Hf; [done|lia..].
  - destruct (spaces_snoc q Hq) as [->|(q' & e & -> & Hq' & He)].
    { by rewrite app_nil_r, Hr. }
    rewrite app_assoc, (trail_space_len_enc e) by (done || by eexists).
    pose proof (space_encodings_ne e He). destruct (length e) as [|n] eqn:Hl.
    { by destruct e. }
    rewrite <-Hl, length_app, Nat.add_sub, take_app_length. apply IH; [done|].
    rewrite !length_app in *. destruct e; simpl in *; lia.
Qed.

Lemma TrimLeftSpace_app p r :
  spaces p -> lead_space_len r = 0%nat -> TrimLeftSpace (p ++ r) = r.
Proof. intros Hp Hr. by apply trim_left_loop_app. Qed.

Lemma TrimRightSpace_app r q :
  spaces q -> trail_space_len r = 0%nat -> TrimRightSpace (r ++ q) = r.
Proof. intros Hq Hr. by apply trim_right_loop_app. Qed.

(** Leading whole space runes do not change [TrimLeftSpace]; trailing ones
    do not change [TrimRightSpace]. *)
Lemma TrimLeftSpace_spaces p u : spaces p -> TrimLeftSpace (p ++ u) = TrimLeftSpace u.
Proof.
  intros Hp. destruct (trim_left_loop_spec (length u) u) as (p' & Hp' & Hu & H0); [done|].
  rewrite Hu at 1. rewrite app_assoc. apply TrimLeftSpace_app; [|done].
  by apply spaces_app_r.
Qed.

Lemma TrimRightSpace_spaces u q : spaces q -> TrimRightSpace (u ++ q) = TrimRightSpace u.
Proof.
  intros Hq. destruct (trim_right_loop_spec (length u) u) as (q' & Hq' & Hu & H0); [done|].
  rewrite Hu at 1. rewrite <-app_assoc. apply TrimRightSpace_app; [|done].
  by apply spaces_app_r.
Qed.

Lemma spaces_enc e : e ∈ space_encodings -> spaces e.
Proof. intros He. rewrite <-(app_nil_r e). by constructor; [|constructor]. Qed.

Lemma space_encodings_elem e :
  e ∈ space_encodings <-> exists r, e = utf8_encode r /\ r ∈ space_runes.
Proof.
  unfold space_encodings. rewrite list_elem_of_In, in_map_iff.
  split; intros (r & ? & ?); exists r; split; [done|by apply list_elem_of_In|done|by apply list_elem_of_In].
Qed.

Lemma IsSpace_space_rune r : r ∈ space_runes -> IsSpace (Z.of_N r) = true.
Proof. intros Hr. apply IsSpace_spec. by apply list_elem_of_fmap_2. Qed.

Lemma IsSpace_encoding r :
  IsSpace r = true -> Z.to_N r ∈ space_runes /\ utf8_encode (Z.to_N r) ∈ space_encodings.
Proof.
  intros Hsp. apply IsSpace_spec, list_elem_of_fmap in Hsp as (n & -> & Hn).
  rewrite N2Z.id. split; [done|]. apply space_encodings_elem. eauto.
Qed.

(** [DecodeRuneInString] finds a space rune exactly where the
    specification sees a leading space encoding. *)
Lemma lead_space_len_decode s :
  s <> [] ->
  lead_space_len s = if IsSpace (fst (DecodeRuneInString s))
                     then Z.to_nat (snd (DecodeRuneInString s)) else 0%nat.
Proof.
  intros Hs. destruct (IsSpace _) eqn:Hsp.
  - destruct (decode_space s Hsp) as [Hle Ht]. destruct (IsSpace_encoding _ Hsp) as [_ He].
    rewrite <-Ht in He. rewrite (lead_space_len_enc _ _ He (prefix_take _ _)).
    rewrite length_take. lia.
  - destruct (lead_space_len_cases s) as [[-> _]|(e & He & [y ->] & _)]; [done|].
    apply space_encodings_elem in He as (r & -> & Hr).
    destruct (space_encoding_shape r Hr) as [Hd _].
    rewrite decode_app_whole, Hd in Hsp
      by (rewrite Hd; first [done | apply IsSpace_space_rune, Hr]).
    cbn [fst] in Hsp. by rewrite IsSpace_space_rune in Hsp.
Qed.

(** [DecodeLastRuneInString] finds a space rune exactly where the
    specification sees a trailing space encoding. *)
Lemma trail_space_len_decode s :
  trail_space_len s = if IsSpace (fst (DecodeLastRuneInString s))
                      then Z.to_nat (snd (DecodeLastRuneInString s)) else 0%nat.
Proof.
  destruct (IsSpace _) eqn:Hsp.
  - destruct (decode_last_space s Hsp) as [Hle Ht]. destruct (IsSpace_encoding _ Hsp) as [_ He].
    rewrite <-Ht in He. rewrite (trail_space_len_enc _ _ He (suffix_drop _ _)).
    rewrite length_drop. lia.
  - destruct (trail_space_len_cases s) as [[-> _]|(e & He & [p ->] & _)]; [done|].
    apply space_encodings_elem in He as (r & -> & Hr).
    rewrite decode_last_suffix in Hsp by done. cbn [fst] in Hsp.
    by rewrite IsSpace_space_rune in Hsp.
Qed.

(** ** The loops of [TrimLeftFunc] and [TrimRightFunc] *)

Lemma scan_back_le s j k : scan_back s j k <= j.
Proof.
  revert j. induction k as [|k IH]; intros j; cbn [scan_back]; [lia|].
  destruct (RuneStart _); [lia|]. specialize (IH (j - 1)). lia.
Qed.

(** An ASCII byte decodes to itself. *)
Lemma decode_ascii x :
  x <> [] -> at_ x 0 < 0x80 -> DecodeRuneInString x = (at_ x 0, 1).
Proof.
  intros Hx Ha. destruct x as [|a x]; [done|]. rewrite at_cons_0 in *.
  unfold DecodeRuneInString; cbv zeta. rewrite at_cons_0.
  assert (first (byte_val a) = as_) as ->
    by (pose proof (byte_val_range a); unfold first, as_; zcases).
  unfold as_. rewrite (proj2 (Z.leb_le _ _)) by lia.
  rewrite (proj2 (Z.ltb_ge _ _)) by (simpl; lia). decode_row. mask_simpl. done.
Qed.


Lemma decode_ascii_width x :
  x <> [] -> at_ x 0 < 0x80 -> snd (DecodeRuneInString x) = 1.
Proof. intros Hx Ha. by rewrite decode_ascii. Qed.

(** Decoding forward from where [DecodeLastRuneInString] puts the start of
    the last rune gives the same width. *)
Lemma decode_last_width t :
  t <> [] ->
  1 <= snd (DecodeLastRuneInString t) <= Z.of_nat (length t) /\
  snd (DecodeRuneInString (drop (length t - Z.to_nat (snd (DecodeLastRuneInString t))) t))
  = snd (DecodeLastRuneInString t).
Proof.
  intros Ht. destruct (exists_last Ht) as (p & b & ->).
  assert (Hone : snd (DecodeRuneInString [b]) = 1)
    by (pose proof (decode_width [b] ltac:(done)); simpl in *; lia).
  unfold DecodeLastRuneInString; cbv zeta. rewrite length_app. cbn [length].
  rewrite (proj2 (Z.eqb_neq _ _)) by lia.
  destruct (_ <? RuneSelf).
  - cbn [snd]. to_nat_lits. rewrite Nat.add_sub, drop_app_length. split; [lia|done].
  - set (start := Z.max _ 0).
    assert (0 <= start <= Z.of_nat (length p)).
    { pose proof (scan_back_le (p ++ [b]) (Z.of_nat (length p + 1) - 1 - 1)
        (Z.to_nat (Z.of_nat (length p + 1) - 1 - Z.max (Z.of_nat (length p + 1) - UTFMax) 0))).
      unfold start. lia. }
    destruct (DecodeRuneInString (drop (Z.to_nat start) (p ++ [b]))) as [r size] eqn:Hd.
    pose proof (decode_width (drop (Z.to_nat start) (p ++ [b]))) as Hw.
    rewrite Hd, length_drop, length_app in Hw. cbn [length snd] in Hw.
    specialize (Hw ltac:(rewrite <-length_zero_iff_nil, length_drop, length_app; simpl; lia)).
    destruct (negb _) eqn:E; cbn [snd].
    + to_nat_lits. rewrite Nat.add_sub, drop_app_length. split; [lia|done].
    + apply negb_false_iff, Z.eqb_eq in E. split; [lia|].
      replace (length p + 1 - Z.to_nat size)%nat with (Z.to_nat start) by lia.
      by rewrite Hd.
Qed.

(** Whole space runes begin with a rune start. *)
Lemma spaces_rune_start q : spaces q -> RuneStart (at_ q 0) = true.
Proof.
  intros [|e s He Hs]; [done|].
  apply space_encodings_elem in He as (r & -> & Hr).
  destruct (space_encoding_shape r Hr) as [_ Hshape].
  rewrite at_app_l by (destruct_or! Hshape; lia).
  destruct Hshape as [(_ & -> & ?)|[(_ & ? & _)|(_ & ? & _)]]; [|done..].
  apply RuneStart_iff; lia.
Qed.

Lemma lead_space_take s :
  lead_space_len s <> 0%nat -> spaces (take (lead_space_len s) s).
Proof.
  intros H0. destruct (lead_space_len_cases s) as [[? _]|(e & He & [y ->] & ->)]; [done|].
  rewrite take_app_length. by apply spaces_enc.
Qed.

Lemma trail_space_drop s :
  trail_space_len s <> 0%nat -> spaces (drop (length s - trail_space_len s) s).
Proof.
  intros H0. destruct (trail_space_len_cases s) as [[? _]|(e & He & [y ->] & ->)]; [done|].
  rewrite length_app, Nat.add_sub, drop_app_length. by apply spaces_enc.
Qed.

(** The loop of [indexFunc(s, unicode.IsSpace, false)] from [i] finds what
    [TrimLeftSpace] keeps of [s[i:]]. *)
Lemma index_loop_trim s fuel i :
  0 <= i -> (length s - Z.to_nat i <= fuel)%nat ->
  (let j := index_loop IsSpace false s i fuel in
   if j =? -1 then [] else drop (Z.to_nat j) s) = TrimLeftSpace (drop (Z.to_nat i) s).
Proof.
  revert i. induction fuel as [|fuel IH]; intros i Hi Hf; cbn [index_loop]; cbv zeta.
  { by rewrite (drop_ge s (Z.to_nat i)) by lia. }
  destruct (Z.ltb_spec i (Z.of_nat (length s))) as [Hlt|Hge]; [|by rewrite (drop_ge s (Z.to_nat i)) by lia].
  set (t := drop (Z.to_nat i) s).
  assert (Ht : t <> []) by (unfold t; rewrite <-length_zero_iff_nil, length_drop; lia).
  pose proof (lead_space_len_decode t Ht) as Hl. pose proof (decode_width t Ht) as Hw.
  destruct (DecodeRuneInString t) as [r w] eqn:Hd. cbn [fst snd] in *.
  unfold t in Hw. rewrite length_drop in Hw.
  destruct (IsSpace r) eqn:Hsp; cbn [Bool.eqb].
  - rewrite IH by lia.
    rewrite <-(take_drop (Z.to_nat w) t). rewrite TrimLeftSpace_spaces.
    + unfold t. rewrite drop_drop. do 3 f_equal. lia.
    + rewrite <-Hl. apply lead_space_take. lia.
  - rewrite (proj2 (Z.eqb_neq _ _)) by lia. by rewrite TrimLeftSpace_id.
Qed.

(** [TrimLeftFunc(s, unicode.IsSpace)] drops the leading space runes. *)
Lemma TrimLeftFunc_IsSpace s : TrimLeftFunc s IsSpace = TrimLeftSpace s.
Proof. unfold TrimLeftFunc, indexFunc. apply (index_loop_trim s (length s) 0); lia. Qed.

(** Where [TrimRightFunc] cuts after the last rune that is not a space:
    decoding forward from its start, before whole space runes, gives back
    the width [DecodeLastRuneInString] found. *)
Lemma trim_right_end s i :
  0 < i <= Z.of_nat (length s) -> spaces (drop (Z.to_nat i) s) ->
  let j := i - snd (DecodeLastRuneInString (take (Z.to_nat i) s)) in
  (if (0 <=? j) && (RuneSelf <=? at_ s j)
   then j + snd (DecodeRuneInString (drop (Z.to_nat j) s)) else j + 1) = i.
Proof.
  intros Hi Hq. cbv zeta. set (t := take (Z.to_nat i) s).
  assert (Hlen : length t = Z.to_nat i) by (unfold t; rewrite length_take; lia).
  assert (Ht : t <> []) by (rewrite <-length_zero_iff_nil; lia).
  destruct (decode_last_width t Ht) as [Hw Hfw].
  set (size := snd (DecodeLastRuneInString t)) in *. rewrite Hlen in Hw, Hfw.
  rewrite (proj2 (Z.leb_le 0 _)) by lia. cbn [andb].
  assert (Hs : drop (Z.to_nat (i - size)) s = drop (Z.to_nat (i - size)) t ++ drop (Z.to_nat i) s).
  { rewrite <-(take_drop (Z.to_nat i) s) at 1. rewrite drop_app_le; [done|].
    rewrite length_take. lia. }
  assert (Hne : drop (Z.to_nat (i - size)) t <> []).
  { rewrite <-length_zero_iff_nil, length_drop. lia. }
  replace (Z.to_nat i - Z.to_nat size)%nat with (Z.to_nat (i - size)) in Hfw by lia.
  destruct (Z.leb_spec RuneSelf (at_ s (i - size))).
  - rewrite Hs, decode_app_start, Hfw by (done || by apply spaces_rune_start). lia.
  - rewrite decode_ascii_width in Hfw; [lia|done|].
    rewrite at_drop, Z2Nat.id, Z.add_0_r by lia. unfold t. rewrite at_take by lia.
    unfold RuneSelf in *. lia.
Qed.

(** The loop of [lastIndexFunc(s, unicode.IsSpace, false)] from [i], with
    whole space runes after [i], ends where [TrimRightSpace] cuts
    [s[:i]]. *)
Lemma last_index_loop_trim s fuel i :
  0 <= i <= Z.of_nat (length s) -> (Z.to_nat i <= fuel)%nat -> spaces (drop (Z.to_nat i) s) ->
  (let j := last_index_loop IsSpace false s i fuel in
   take (Z.to_nat (if (0 <=? j) && (RuneSelf <=? at_ s j)
                   then j + snd (DecodeRuneInString (drop (Z.to_nat j) s)) else j + 1)) s)
  = TrimRightSpace (take (Z.to_nat i) s).
Proof.
  revert i. induction fuel as [|fuel IH]; intros i Hi Hf Hq; cbn [last_index_loop]; cbv zeta.
  { by replace i with 0 by lia. }
  destruct (Z.ltb_spec 0 i) as [Hpos|Hz]; [|by replace i with 0 by lia].
  pose proof (trim_right_end s i ltac:(lia) Hq) as Hend. cbv zeta in Hend.
  set (t := take (Z.to_nat i) s) in *.
  assert (Hlen : length t = Z.to_nat i) by (unfold t; rewrite length_take; lia).
  assert (Ht : t <> []) by (rewrite <-length_zero_iff_nil; lia).
  pose proof (trail_space_len_decode t) as Hl. destruct (decode_last_width t Ht) as [Hw _].
  destruct (DecodeLastRuneInString t) as [r size] eqn:Hd. cbn [fst snd] in *.
  rewrite Hlen in Hw.
  destruct (IsSpace r) eqn:Hsp; cbn [Bool.eqb].
  - assert (Hsplit : t = take (Z.to_nat (i - size)) s ++ drop (Z.to_nat (i - size)) t).
    { rewrite <-(take_drop (Z.to_nat (i - size)) t) at 1. f_equal.
      unfold t. rewrite take_take. f_equal. lia. }
    assert (Htail : spaces (drop (Z.to_nat (i - size)) t)).
    { replace (Z.to_nat (i - size)) with (length t - trail_space_len t)%nat by lia.
      apply trail_space_drop. lia. }
    rewrite IH by (lia || (rewrite <-(take_drop (Z.to_nat i) s), drop_app_le
                            by (rewrite length_take; lia);
                          apply spaces_app_r; [exact Htail|exact Hq])).
    rewrite Hsplit. by rewrite TrimRightSpace_spaces.
  - rewrite Hend. by rewrite TrimRightSpace_id.
Qed.

(** [TrimRightFunc(s, unicode.IsSpace)] drops the trailing space runes. *)
Lemma TrimRightFunc_IsSpace s : TrimRightFunc s IsSpace = TrimRightSpace s.
Proof.
  unfold TrimRightFunc, lastIndexFunc. cbv zeta.
  pose proof (last_index_loop_trim s (length s) (Z.of_nat (length s))) as H. cbv zeta in H.
  rewrite H, Nat2Z.id, take_ge by (lia || (rewrite Nat2Z.id, drop_ge by lia; constructor)).
  done.
Qed.

(** [TrimFunc(s, unicode.IsSpace)] is the specification's [TrimSpace]. *)
Lemma TrimFunc_IsSpace s : TrimFunc s IsSpace = GoStrings.TrimSpace s.
Proof. unfold TrimFunc, GoStrings.TrimSpace. by rewrite TrimLeftFunc_IsSpace, TrimRightFunc_IsSpace. Qed.

(** ** The ASCII fast path of [TrimSpace] *)

(** [asciiSpace] is [unicode.IsSpace] on ASCII. *)
Lemma asciiSpace_IsSpace c :
  0 <= c < 0x80 -> asciiSpace c = if IsSpace c then 1 else 0.
Proof.
  intros Hc.
  assert (Hall : forallb (λ n, let c := Z.of_nat n in
            asciiSpace c =? (if IsSpace c then 1 else 0)) (seq 0 128) = true)
    by (vm_compute; reflexivity).
  rewrite forallb_forall in Hall. specialize (Hall (Z.to_nat c)).
  rewrite in_seq, Z2Nat.id in Hall by lia. apply Z.eqb_eq, Hall. lia.
Qed.

(** An ASCII byte at the end decodes to itself backward. *)
Lemma decode_last_ascii x :
  x <> [] -> at_ x (Z.of_nat (length x) - 1) < 0x80 ->
  DecodeLastRuneInString x = (at_ x (Z.of_nat (length x) - 1), 1).
Proof.
  intros Hx Ha. unfold DecodeLastRuneInString; cbv zeta.
  rewrite (proj2 (Z.eqb_neq _ _)) by (destruct x; [done|simpl; lia]).
  rewrite (proj2 (Z.ltb_lt _ _)) by (unfold RuneSelf; lia). done.
Qed.

Lemma lookup_at (s : bytes) i b : s !! Z.to_nat i = Some b -> at_ s i = byte_val b.
Proof. unfold at_. by intros ->. Qed.

Lemma at_lookup (s : bytes) i : 0 <= i < Z.of_nat (length s) -> exists b, s !! Z.to_nat i = Some b.
Proof. intros Hi. apply lookup_lt_is_Some_2. lia. Qed.

(** An ASCII space is a whole space rune. *)
Lemma ascii_space_enc b :
  byte_val b < 0x80 -> IsSpace (byte_val b) = true -> [b] ∈ space_encodings.
Proof.
  intros Ha Hsp. destruct (IsSpace_encoding _ Hsp) as [_ He]. by rewrite encode_1 in He.
Qed.

(** An ASCII byte that is not a space ends the trimming. *)
Lemma lead_space_ascii x :
  x <> [] -> at_ x 0 < 0x80 -> IsSpace (at_ x 0) = false -> lead_space_len x = 0%nat.
Proof.
  intros Hx Ha Hsp. rewrite lead_space_len_decode, decode_ascii by done. cbn [fst]. by rewrite Hsp.
Qed.

Lemma trail_space_ascii x :
  x <> [] -> at_ x (Z.of_nat (length x) - 1) < 0x80 ->
  IsSpace (at_ x (Z.of_nat (length x) - 1)) = false -> trail_space_len x = 0%nat.
Proof.
  intros Hx Ha Hsp. rewrite trail_space_len_decode, decode_last_ascii by done. cbn [fst].
  by rewrite Hsp.
Qed.

(** The first loop of [TrimSpace]: it either falls back to [TrimFunc],
    with the specification's result, or stops at the first byte that is
    not an ASCII space, after whole space runes. *)
Lemma space_start_spec s k start :
  0 <= start <= Z.of_nat (length s) -> (length s - Z.to_nat start <= k)%nat ->
  spaces (take (Z.to_nat start) s) ->
  match space_start s start k with
  | inl res => res = GoStrings.TrimSpace s
  | inr st => start <= st <= Z.of_nat (length s) /\ spaces (take (Z.to_nat st) s)
              /\ lead_space_len (drop (Z.to_nat st) s) = 0%nat
  end.
Proof.
  revert start. induction k as [|k IH]; intros start Hst Hk Hp; cbn [space_start].
  { split_and!; [lia|lia|done|]. by rewrite drop_ge by lia. }
  destruct (Z.ltb_spec start (Z.of_nat (length s))) as [Hlt|Hge].
  2:{ split_and!; [lia|lia|done|]. by rewrite drop_ge by lia. }
  destruct (at_lookup s start ltac:(lia)) as [b Hb].
  rewrite (lookup_at _ _ _ Hb). pose proof (byte_val_range b).
  assert (Hd : drop (Z.to_nat start) s = b :: drop (S (Z.to_nat start)) s) by (by apply drop_S).
  destruct (Z.leb_spec RuneSelf (byte_val b)).
  { rewrite TrimFunc_IsSpace. unfold GoStrings.TrimSpace.
    rewrite <-(take_drop (Z.to_nat start) s) at 2. by rewrite TrimLeftSpace_spaces. }
  unfold RuneSelf in *. rewrite asciiSpace_IsSpace by lia.
  destruct (IsSpace (byte_val b)) eqn:Hsp; cbn -[space_start].
  - assert (Hp' : spaces (take (Z.to_nat (start + 1)) s)).
    { replace (Z.to_nat (start + 1)) with (S (Z.to_nat start)) by lia.
      rewrite (take_S_r _ _ b Hb). apply spaces_app_r; [done|].
      apply spaces_enc, ascii_space_enc; [lia|done]. }
    specialize (IH (start + 1) ltac:(lia) ltac:(lia) Hp').
    destruct (space_start s (start + 1) k); [done|].
    destruct IH as (? & ? & ?). split_and!; [lia|lia|done|done].
  - split_and!; [lia|lia|done|]. rewrite Hd. apply lead_space_ascii; [done|by rewrite at_cons_0..].
Qed.

(** The second loop of [TrimSpace], from [stop] down to [start], with whole
    space runes after [stop]: it computes [TrimRightSpace] of [s[start:]]. *)
Lemma space_stop_spec s st k stop :
  0 <= st <= stop -> stop <= Z.of_nat (length s) -> (Z.to_nat (stop - st) <= k)%nat ->
  spaces (drop (Z.to_nat stop) s) ->
  match space_stop s st stop k with
  | inl res => res = TrimRightSpace (drop (Z.to_nat st) s)
  | inr stop' => take (Z.to_nat (stop' - st)) (drop (Z.to_nat st) s)
                 = TrimRightSpace (drop (Z.to_nat st) s)
  end.
Proof.
  revert stop. induction k as [|k IH]; intros stop Hst Hlen Hk Hq.
  all: assert (Hw : TrimRightSpace (drop (Z.to_nat st) s)
                    = TrimRightSpace (take (Z.to_nat (stop - st)) (drop (Z.to_nat st) s)))
         by (rewrite <-(take_drop (Z.to_nat (stop - st)) (drop (Z.to_nat st) s)) at 1;
             rewrite drop_drop, TrimRightSpace_spaces; [done|];
             by replace (Z.to_nat st + Z.to_nat (stop - st))%nat with (Z.to_nat stop) by lia).
  all: cbn [space_stop]; rewrite Hw.
  { by replace (Z.to_nat (stop - st)) with 0%nat by lia. }
  destruct (Z.ltb_spec st stop) as [Hlt|Hge].
  2:{ by replace (Z.to_nat (stop - st)) with 0%nat by lia. }
  destruct (at_lookup s (stop - 1) ltac:(lia)) as [b Hb].
  rewrite (lookup_at _ _ _ Hb). pose proof (byte_val_range b).
  destruct (Z.leb_spec RuneSelf (byte_val b)).
  { by rewrite TrimRightFunc_IsSpace. }
  unfold RuneSelf in *. rewrite asciiSpace_IsSpace by lia.
  destruct (IsSpace (byte_val b)) eqn:Hsp; cbn -[space_stop].
  - assert (Hq' : spaces (drop (Z.to_nat (stop - 1)) s)).
    { rewrite (drop_S _ b) by done. replace (S (Z.to_nat (stop - 1))) with (Z.to_nat stop) by lia.
      apply (spaces_app [b]); [|done]. apply ascii_space_enc; [lia|done]. }
    specialize (IH (stop - 1) ltac:(lia) ltac:(lia) ltac:(lia) Hq').
    rewrite <-Hw. destruct (space_stop s st (stop - 1) k); rewrite IH; [done|].
    rewrite <-(take_drop (Z.to_nat (stop - st)) (drop (Z.to_nat st) s)) at 2.
    rewrite drop_drop, TrimRightSpace_spaces; [done|].
    by replace (Z.to_nat st + Z.to_nat (stop - st))%nat with (Z.to_nat stop) by lia.
  - set (w := take (Z.to_nat (stop - st)) (drop (Z.to_nat st) s)).
    assert (Hwl : Z.of_nat (length w) = stop - st)
      by (unfold w; rewrite length_take, length_drop; lia).
    assert (Hat : at_ w (Z.of_nat (length w) - 1) = byte_val b).
    { rewrite Hwl. unfold w. rewrite at_take, at_drop by lia.
      apply lookup_at. by replace (Z.to_nat (Z.of_nat (Z.to_nat st) + (stop - st - 1)))
        with (Z.to_nat (stop - 1)) by lia. }
    symmetry. apply TrimRightSpace_id, trail_space_ascii; rewrite ?Hat; [|lia|done].
    rewrite <-length_zero_iff_nil. lia.
Qed.

(** [strings.TrimSpace], ASCII fast path included, removes exactly the
    leading and trailing UTF-8 encodings of White_Space runes. *)
Theorem TrimSpace_spec s : Trim.TrimSpace s = GoStrings.TrimSpace s.
Proof.
  unfold Trim.TrimSpace.
  pose proof (space_start_spec s (length s) 0 ltac:(lia) ltac:(lia) spaces_nil) as H1.
  destruct (space_start s 0 (length s)) as [res|st]; [done|].
  destruct H1 as (Hst & Hp & Hl).
  assert (HL : TrimLeftSpace s = drop (Z.to_nat st) s)
    by (rewrite <-(take_drop (Z.to_nat st) s) at 1; by apply TrimLeftSpace_app).
  pose proof (space_stop_spec s st (length s) (Z.of_nat (length s)) ltac:(lia) ltac:(lia)
                ltac:(lia) ltac:(rewrite Nat2Z.id, drop_ge by lia; constructor)) as H2.
  unfold GoStrings.TrimSpace. rewrite HL. by destruct (space_stop _ _ _ _).
Qed.
