(* ===== verification/Receive.v ===== *)
(** * The RECEIVE parser: [parseGoIPMessage] (src/main.go, lines 13-19, 96-135)

    [GoIPMessage] is the Go struct; [set_field] is the [switch key] of lines
    122-131, [apply_field] one round of the loop over the fields (lines
    114-131), [parseGoIPMessage] the whole function.  The abstract
    specification [parse_spec] says what the parser promises: after the first
    ["RECEIVE:"], the [';']-separated fields that hold exactly one [':'] bind
    their trimmed key to their trimmed value, the last binding of a key wins,
    and an absent key leaves the empty string.  [parseGoIPMessage_refines]
    proves the Go loop equal to it; the other theorems are consequences:
    the error case, the roundtrip with the wire form, what malformed
    fields, colons in values, field order and duplicate keys do, that
    parsed values are trimmed, and that trimming removes exactly the
    White_Space runes, ASCII or not: [apply_field] calls Go's
    [strings.TrimSpace] as transcribed in Unicode.v, whose equality with the
    specification's trimming ([TrimSpace_spec]) carries the refinement. *)

From S2P Require Import Prelude GoStrings Unicode.
From Stdlib Require Import ZArith Lia.
Import GoStrings.
Open Scope string_scope.
Open Scope list_scope.

Module Receive.

(** ** The code *)

(** [type GoIPMessage struct { ID, Password, SrcNum, Message, RemoteAddr string }] *)
Record GoIPMessage := mkGoIPMessage {
  ID : bytes;
  Password : bytes;
  SrcNum : bytes;
  Message : bytes;
  RemoteAddr : bytes;
}.

(** The one error [parseGoIPMessage] returns:
    [fmt.Errorf("invalid message format")]. *)
Inductive parse_error := InvalidMessageFormat.

(** [message := &GoIPMessage{RemoteAddr: remoteAddr}] (lines 108-110). *)
Definition empty_message (remoteAddr : bytes) : GoIPMessage :=
  mkGoIPMessage [] [] [] [] remoteAddr.

(** [switch key { case "id": message.ID = value; ... }] (lines 122-131);
    other keys leave the message as it is. *)
Definition set_field (m : GoIPMessage) (key value : bytes) : GoIPMessage :=
  if decide (key = "id") then
    mkGoIPMessage value (Password m) (SrcNum m) (Message m) (RemoteAddr m)
  else if decide (key = "password") then
    mkGoIPMessage (ID m) value (SrcNum m) (Message m) (RemoteAddr m)
  else if decide (key = "srcnum") then
    mkGoIPMessage (ID m) (Password m) value (Message m) (RemoteAddr m)
  else if decide (key = "msg") then
    mkGoIPMessage (ID m) (Password m) (SrcNum m) value (RemoteAddr m)
  else m.

(** One round of [for _, field := range fields] (lines 114-131):
    [parts := strings.Split(field, ":")]; [continue] unless [len(parts) == 2];
    trim both parts with [strings.TrimSpace] ([Unicode.Trim.TrimSpace]); set the
    field. *)
Definition apply_field (m : GoIPMessage) (field : bytes) : GoIPMessage :=
  match Split field ":" with
  | [k; v] => set_field m (Trim.TrimSpace k) (Trim.TrimSpace v)
  | _ => m
  end.

(** [func parseGoIPMessage(rawMessage, remoteAddr string) (&GoIPMessage, error)] *)
Definition parseGoIPMessage (rawMessage remoteAddr : bytes)
    : result GoIPMessage parse_error :=
  match SplitN rawMessage "RECEIVE:" 2 with
  | [_; dataPart] =>
      let fields := Split dataPart ";" in
      Ok (fold_left apply_field fields (empty_message remoteAddr))
  | _ => Err InvalidMessageFormat
  end.

(** ** The specification *)

(** The binding a field makes: exactly one [':'], key and value trimmed. *)
Definition field_binding (field : bytes) : option (bytes * bytes) :=
  match split_on COLON field with
  | [k; v] => Some (TrimSpace k, TrimSpace v)
  | _ => None
  end.

(** The value bound to [key] by the last field that binds it. *)
Fixpoint value_of (key : bytes) (fields : list bytes) : option bytes :=
  match fields with
  | [] => None
  | f :: fs =>
      match value_of key fs with
      | Some v => Some v
      | None =>
          match field_binding f with
          | Some (k, v) => if decide (k = key) then Some v else None
          | None => None
          end
      end
  end.

Definition spec_message (fields : list bytes) (remote : bytes) : GoIPMessage :=
  mkGoIPMessage (default [] (value_of "id" fields))
                (default [] (value_of "password" fields))
                (default [] (value_of "srcnum" fields))
                (default [] (value_of "msg" fields))
                remote.

(** The marker is the first occurrence of ["RECEIVE:"] anywhere in the
    datagram; without one the parse fails. *)
Definition parse_spec (raw remote : bytes) : result GoIPMessage parse_error :=
  match Index raw "RECEIVE:" with
  | Some i => Ok (spec_message (split_on SEMI (drop (i + 8) raw)) remote)
  | None => Err InvalidMessageFormat
  end.

(** The wire form of a RECEIVE datagram ([RECEIVE:id:..;password:..;
    srcnum:..;msg:..], spec section 6), the inverse the roundtrip theorem
    is about. *)
Definition encode_field (key value : bytes) : bytes := key ++ COLON :: value.

Definition encode (m : GoIPMessage) : bytes :=
  "RECEIVE:" ++ join [SEMI] [encode_field "id" (ID m); encode_field "password" (Password m);
                             encode_field "srcnum" (SrcNum m); encode_field "msg" (Message m)].

(** A value the wire form carries unchanged: no separator, no surrounding
    white space. *)
Definition wire_value (v : bytes) : bool :=
  bool_decide (COLON ∉ v) && bool_decide (SEMI ∉ v)
  && bool_decide (lead_space_len v = 0) && bool_decide (trail_space_len v = 0).

(** ** Lemmas *)

(** The message after the fields [fs] applied to [m]: a key that some field
    binds takes its last value, the others keep [m]'s. *)
Definition overlay (fs : list bytes) (m : GoIPMessage) : GoIPMessage :=
  mkGoIPMessage (default (ID m) (value_of "id" fs))
                (default (Password m) (value_of "password" fs))
                (default (SrcNum m) (value_of "srcnum" fs))
                (default (Message m) (value_of "msg" fs))
                (RemoteAddr m).

Lemma apply_field_binding m f :
  apply_field m f =
    match field_binding f with
    | Some (k, v) => set_field m k v
    | None => m
    end.
Proof.
  unfold apply_field, field_binding. rewrite (Split_single _ COLON).
  destruct (split_on COLON f) as [|? [|? []]]; by rewrite ?TrimSpace_spec.
Qed.

Lemma overlay_cons f fs m : overlay fs (apply_field m f) = overlay (f :: fs) m.
Proof.
  rewrite apply_field_binding. unfold overlay, set_field. simpl.
  destruct (field_binding f) as [[k v]|]; repeat case_decide; subst; simpl;
    repeat match goal with
    | |- context [value_of ?key fs] => destruct (value_of key fs)
    end; simpl; repeat case_decide; naive_solver.
Qed.

Lemma fold_apply_field fs m : fold_left apply_field fs m = overlay fs m.
Proof.
  revert m. induction fs as [|f fs IH]; intros m; simpl.
  - by destruct m.
  - by rewrite IH, overlay_cons.
Qed.


Lemma parse_eq_spec raw remote : parseGoIPMessage raw remote = parse_spec raw remote.
Proof.
  unfold parseGoIPMessage, parse_spec. rewrite SplitN_2 by done.
  destruct (Index raw "RECEIVE:") as [i|]; [|done].
  by rewrite (Split_single _ SEMI), fold_apply_field.
Qed.

(** The bindings of a list of fields, in order. *)
Definition bindings (fs : list bytes) : list (bytes * bytes) := omap field_binding fs.

Lemma value_of_last key fs :
  value_of key fs = last (snd <$> filter (λ kv, kv.1 = key) (bindings fs)).
Proof.
  unfold bindings. induction fs as [|f fs IH]; [done|].
  cbn [value_of]. rewrite IH, omap_cons_eq.
  destruct (field_binding f) as [[k v]|]; [|by destruct (last _)].
  case_decide as Hk.
  - rewrite filter_cons_True, fmap_cons_eq, last_cons by done. by destruct (last _).
  - rewrite filter_cons_False by done. by destruct (last _).
Qed.

Lemma value_of_skip key pre f post :
  field_binding f = None -> value_of key (pre ++ f :: post) = value_of key (pre ++ post).
Proof.
  intros Hf. rewrite !value_of_last. unfold bindings.
  by rewrite !omap_app; simpl; rewrite Hf.
Qed.

Lemma spec_message_skip pre f post r :
  field_binding f = None -> spec_message (pre ++ f :: post) r = spec_message (pre ++ post) r.
Proof. intros Hf. unfold spec_message. by rewrite !(value_of_skip _ _ _ _ Hf). Qed.

Lemma filter_key_absent key (l : list (bytes * bytes)) :
  key ∉ fst <$> l -> filter (λ kv, kv.1 = key) l = [].
Proof.
  induction l as [|[k v] l IH]; intros Hk; [done|]. simpl in Hk.
  rewrite filter_cons_False by (simpl; set_solver). apply IH. set_solver.
Qed.

(** With distinct keys, at most one binding has a given key. *)
Lemma filter_key_at_most_one key (l : list (bytes * bytes)) :
  NoDup (fst <$> l) -> length (filter (λ kv, kv.1 = key) l) ≤ 1.
Proof.
  induction l as [|[k v] l IH]; intros Hnd; [simpl; lia|].
  rewrite fmap_cons_eq in Hnd. apply NoDup_cons in Hnd as [Hk Hnd]. simpl in Hk.
  rewrite filter_cons. case_decide as Hkey; simpl in Hkey.
  - subst. rewrite filter_key_absent by done. simpl. lia.
  - by apply IH.
Qed.

Lemma value_of_perm key fs fs' :
  NoDup (fst <$> bindings fs) -> fs ≡ₚ fs' -> value_of key fs = value_of key fs'.
Proof.
  intros Hnd Hp. rewrite !value_of_last.
  assert (filter (λ kv, kv.1 = key) (bindings fs) ≡ₚ filter (λ kv, kv.1 = key) (bindings fs'))
    as Hperm by (unfold bindings; by rewrite Hp).
  pose proof (filter_key_at_most_one key _ Hnd) as Hlen.
  destruct (filter _ (bindings fs)) as [|x [|]]; simpl in Hlen; [| |lia].
  - by apply Permutation_nil in Hperm as <-.
  - by apply Permutation_length_1_inv in Hperm as <-.
Qed.

Lemma spec_message_perm fs fs' r :
  NoDup (fst <$> bindings fs) -> fs ≡ₚ fs' -> spec_message fs r = spec_message fs' r.
Proof. intros Hnd Hp. unfold spec_message. by rewrite !(value_of_perm _ fs fs'). Qed.

(** Splitting the joined fields gives them back; an empty list of fields
    gives one empty field, which binds nothing. *)
Lemma spec_message_join fs r :
  Forall (λ f, SEMI ∉ f) fs ->
  spec_message (split_on SEMI (join [SEMI] fs)) r = spec_message fs r.
Proof.
  intros Hfs. destruct fs as [|f fs]; [reflexivity|].
  by rewrite split_on_join.
Qed.

Lemma parse_receive body r :
  parseGoIPMessage ("RECEIVE:" ++ body) r = Ok (spec_message (split_on SEMI body) r).
Proof.
  rewrite parse_eq_spec. unfold parse_spec.
  by rewrite Index_prefix by apply HasPrefix_app.
Qed.

Lemma field_binding_kv k v :
  COLON ∉ k -> COLON ∉ v -> field_binding (k ++ COLON :: v) = Some (TrimSpace k, TrimSpace v).
Proof. intros Hk Hv. unfold field_binding. by rewrite split_on_app, split_on_notin. Qed.

Lemma field_binding_malformed f :
  occurrences COLON f <> 1 -> field_binding f = None.
Proof.
  intros Hocc. unfold field_binding. pose proof (length_split_on COLON f) as Hlen.
  destruct (split_on COLON f) as [|? [|? []]]; simpl in Hlen; [done|done|lia|done].
Qed.

Lemma wire_value_spec v :
  wire_value v = true -> (COLON ∉ v) /\ (SEMI ∉ v) /\ TrimSpace v = v.
Proof.
  unfold wire_value. rewrite !andb_true_iff, !bool_decide_eq_true.
  intros [[[Hc Hs] Hl] Ht]. split_and!; [done|done|]. by apply TrimSpace_id.
Qed.

Lemma encode_field_binding key v :
  COLON ∉ key -> TrimSpace key = key -> wire_value v = true ->
  field_binding (encode_field key v) = Some (key, v).
Proof.
  intros Hk Htk (Hc & _ & Htv)%wire_value_spec. unfold encode_field.
  by rewrite field_binding_kv, Htk, Htv.
Qed.

Lemma encode_field_nosemi key v :
  SEMI ∉ key -> wire_value v = true -> SEMI ∉ encode_field key v.
Proof.
  intros Hk (_ & Hs & _)%wire_value_spec. unfold encode_field.
  rewrite elem_of_app, elem_of_cons. intros [|[|]]; [done|discriminate|done].
Qed.

(** A bound value is trimmed already. *)
Lemma value_of_trimmed key fs v : value_of key fs = Some v -> TrimSpace v = v.
Proof.
  induction fs as [|f fs IH]; [done|]. cbn [value_of].
  destruct (value_of key fs) as [v'|]; [by intros [= <-]; apply IH|].
  unfold field_binding. destruct (split_on COLON f) as [|k [|v'' [|]]]; try done.
  case_decide; [|done]. intros [= <-]. apply TrimSpace_idempotent.
Qed.

(** The value a field binds is a wire value when the field holds no
    [';']. *)
Lemma field_binding_wire f k v :
  SEMI ∉ f -> field_binding f = Some (k, v) -> wire_value v = true.
Proof.
  intros Hs. unfold field_binding.
  pose proof (split_on_parts COLON f) as Hparts.
  destruct (split_on COLON f) as [|k0 [|v0 [|]]]; try done. intros [= <- <-].
  apply Forall_cons in Hparts as [_ Hparts]. apply Forall_cons in Hparts as [[Hc Hsub] _].
  destruct (TrimSpace_decomp v0) as (p & q & _ & _ & Hv0 & Hl & Ht).
  assert (TrimSpace v0 ⊆ v0) as Hin by (rewrite Hv0 at 2; set_solver).
  unfold wire_value. rewrite !andb_true_iff, !bool_decide_eq_true. split_and!; [| |done|done].
  - intros HC. by apply Hc, Hin.
  - intros HS. by apply Hs, Hsub, Hin.
Qed.

Lemma value_of_wire key fs v :
  Forall (λ f, SEMI ∉ f) fs -> value_of key fs = Some v -> wire_value v = true.
Proof.
  induction fs as [|f fs IH]; intros Hfs; [done|]. apply Forall_cons in Hfs as [Hf Hfs].
  cbn [value_of]. destruct (value_of key fs); [intros [= <-]; by apply IH|].
  destruct (field_binding f) as [[k v']|] eqn:E; [|done].
  case_decide; [|done]. intros [= <-]. by eapply field_binding_wire.
Qed.

(** The bindings of later fields take precedence. *)
Lemma value_of_app key l1 l2 :
  value_of key (l1 ++ l2) =
    match value_of key l2 with Some v => Some v | None => value_of key l1 end.
Proof.
  induction l1 as [|f l1 IH]; cbn [app value_of]; [by destruct (value_of key l2)|].
  rewrite IH. by destruct (value_of key l2).
Qed.

(** ** Theorems *)

(** C2: [parseGoIPMessage] refines its specification: on every datagram and
    sender address, the Go loop returns what [parse_spec] prescribes (the
    error exactly when ["RECEIVE:"] does not occur; otherwise the record built
    from the last binding of each recognised key). *)
Theorem parseGoIPMessage_refines raw remote :
  parseGoIPMessage raw remote = parse_spec raw remote.
Proof. apply parse_eq_spec. Qed.


(** C12: the only error of [parseGoIPMessage] is the format error, returned
    exactly when ["RECEIVE:"] occurs nowhere in the datagram. *)
Theorem parseGoIPMessage_error raw remote :
  parseGoIPMessage raw remote = Err InvalidMessageFormat <->
  ~ exists pre post, raw = pre ++ "RECEIVE:" ++ post.
Proof.
  rewrite parse_eq_spec. unfold parse_spec.
  destruct (Index raw "RECEIVE:") as [i|] eqn:E.
  - split; [discriminate|]. intros H. exfalso. apply H.
    apply Index_Some in E. eauto.
  - split; [intros _|done]. by apply Index_None.
Qed.

(** C10: roundtrip: a record whose four values carry no [':'], no [';'] and
    no surrounding white space is parsed back from its wire form, with the
    sender address as [RemoteAddr]. *)
Theorem parse_encode m :
  wire_value (ID m) = true -> wire_value (Password m) = true ->
  wire_value (SrcNum m) = true -> wire_value (Message m) = true ->
  parseGoIPMessage (encode m) (RemoteAddr m) = Ok m.
Proof.
  intros Hid Hpw Hsrc Hmsg. unfold encode. rewrite parse_receive, spec_message_join.
  2: { repeat constructor; apply encode_field_nosemi; done || literal. }
  f_equal. unfold spec_message. cbn [value_of].
  rewrite !encode_field_binding by (done || literal || reflexivity).
  destruct m as [id pw src msg addr]. cbn [ID Password SrcNum Message RemoteAddr].
  by decide_literals.
Qed.

Lemma parse_encode_witness :
  let m := mkGoIPMessage "42" "secret" "15551234567" "Hello World" "1.2.3.4:5000" in
  parseGoIPMessage (encode m) (RemoteAddr m) = Ok m.
Proof. apply parse_encode; reflexivity. Defined.


(** C17: a field without exactly one [':'] is skipped: removing it from a
    RECEIVE datagram does not change the parse. *)
Theorem parse_skips_malformed pre f post r :
  occurrences COLON f <> 1 ->
  Forall (λ g, SEMI ∉ g) (pre ++ f :: post) ->
  parseGoIPMessage ("RECEIVE:" ++ join [SEMI] (pre ++ f :: post)) r =
  parseGoIPMessage ("RECEIVE:" ++ join [SEMI] (pre ++ post)) r.
Proof.
  intros Hocc Hfs. rewrite !parse_receive, !spec_message_join.
  - by rewrite spec_message_skip by (by apply field_binding_malformed).
  - apply Forall_app in Hfs as [? ?%Forall_cons]. apply Forall_app. naive_solver.
  - done.
Qed.

Lemma parse_skips_malformed_witness :
  parseGoIPMessage ("RECEIVE:" ++ join [SEMI] ([("id:1" : bytes)] ++ ("a:b:c" : bytes) :: [("msg:hi" : bytes)])) "a"
  = parseGoIPMessage ("RECEIVE:" ++ join [SEMI] ([("id:1" : bytes)] ++ [("msg:hi" : bytes)])) "a".
Proof. apply parse_skips_malformed; [vm_compute; discriminate|repeat constructor; literal]. Defined.


(** C16: a value holding a [':'] is lost with its key, because the code
    splits a field on every [':'] (line 114), not on the first one as the
    spec's wire format says: [RECEIVE:msg:Meet at 12:30] yields an empty
    record. *)
Theorem parse_value_with_colon key v r :
  COLON ∈ v -> SEMI ∉ key ++ COLON :: v ->
  parseGoIPMessage ("RECEIVE:" ++ key ++ COLON :: v) r = Ok (empty_message r).
Proof.
  intros Hv Hs. rewrite parse_receive, split_on_notin by done.
  assert (field_binding (key ++ COLON :: v) = None) as Hb.
  { apply field_binding_malformed.
    destruct (list_elem_of_split _ _ Hv) as (v1 & v2 & ->).
    rewrite occurrences_app, occurrences_cons_eq, occurrences_app, occurrences_cons_eq.
    lia. }
  unfold spec_message. cbn [value_of]. by rewrite Hb.
Qed.

Lemma parse_value_with_colon_witness :
  parseGoIPMessage ("RECEIVE:" ++ ("msg" : bytes) ++ COLON :: ("Meet at 12:30" : bytes)) "a"
  = Ok (empty_message "a").
Proof. apply parse_value_with_colon; literal. Defined.


(** C18: the order of the fields does not matter when no key is bound twice
    (spec property 2, for datagrams whose fields bind distinct keys). *)
Theorem parse_field_order fs fs' r :
  fs ≡ₚ fs' -> Forall (λ f, SEMI ∉ f) fs -> NoDup (fst <$> bindings fs) ->
  parseGoIPMessage ("RECEIVE:" ++ join [SEMI] fs) r =
  parseGoIPMessage ("RECEIVE:" ++ join [SEMI] fs') r.
Proof.
  intros Hp Hfs Hnd. rewrite !parse_receive, !spec_message_join; [|by rewrite <-Hp|done].
  f_equal. by apply spec_message_perm.
Qed.

Lemma parse_field_order_witness :
  parseGoIPMessage ("RECEIVE:" ++ join [SEMI] [("id:1" : bytes); ("msg:hi" : bytes)]) "a"
  = parseGoIPMessage ("RECEIVE:" ++ join [SEMI] [("msg:hi" : bytes); ("id:1" : bytes)]) "a".
Proof.
  apply parse_field_order; [apply Permutation_swap|repeat constructor; literal|literal].
Defined.


(** C19: with a key bound twice the last binding wins, so the order of the
    fields matters (spec property 2 does not hold for such datagrams):
    whatever fields come before, and fields after that do not bind [msg],
    two [msg] fields leave the later value, and swapping them leaves the
    other one. *)
Theorem parse_duplicate_key_last_wins pre post v1 v2 r :
  Forall (λ f, SEMI ∉ f) (pre ++ post) -> value_of "msg" post = None ->
  wire_value v1 = true -> wire_value v2 = true ->
  (exists m, parseGoIPMessage ("RECEIVE:" ++ join [SEMI]
               (pre ++ encode_field "msg" v1 :: encode_field "msg" v2 :: post)) r = Ok m
             /\ Message m = v2) /\
  (exists m, parseGoIPMessage ("RECEIVE:" ++ join [SEMI]
               (pre ++ encode_field "msg" v2 :: encode_field "msg" v1 :: post)) r = Ok m
             /\ Message m = v1).
Proof.
  intros Hfs Hpost Hv1 Hv2.
  apply Forall_app in Hfs as [Hpre Hpost'].
  assert (Hsemi : forall v, wire_value v = true -> SEMI ∉ encode_field "msg" v)
    by (intros v Hv; apply encode_field_nosemi; [literal|done]).
  assert (Hbind : forall v, wire_value v = true ->
            field_binding (encode_field "msg" v) = Some ("msg" : bytes, v))
    by (intros v Hv; apply encode_field_binding; [literal|reflexivity|done]).
  split; eexists; (split; [rewrite parse_receive, spec_message_join; [reflexivity|]|]);
    try (apply Forall_app; split; [done|by repeat constructor; auto]);
    cbn [spec_message Message]; rewrite value_of_app; cbn [value_of];
    rewrite Hpost.
  - rewrite Hbind by done. by rewrite decide_True.
  - rewrite Hbind by done. by rewrite decide_True.
Qed.

Lemma parse_duplicate_key_last_wins_witness :
  (exists m, parseGoIPMessage ("RECEIVE:" ++ join [SEMI]
               ([("id:1" : bytes)] ++ encode_field "msg" "a" :: encode_field "msg" "b" :: [("x" : bytes)]))
               "1.2.3.4:5000" = Ok m /\ Message m = "b") /\
  (exists m, parseGoIPMessage ("RECEIVE:" ++ join [SEMI]
               ([("id:1" : bytes)] ++ encode_field "msg" "b" :: encode_field "msg" "a" :: [("x" : bytes)]))
               "1.2.3.4:5000" = Ok m /\ Message m = "a").
Proof.
  apply parse_duplicate_key_last_wins; [literal|reflexivity|reflexivity|reflexivity].
Defined.

(** C26: every value the parser extracts is free of surrounding white
    space: the four payload fields of a parsed message are fixed points of
    Go's [strings.TrimSpace] (the empty default included). *)
Theorem parse_values_trimmed raw addr m :
  parseGoIPMessage raw addr = Ok m ->
  Forall (λ v, Trim.TrimSpace v = v) [ID m; Password m; SrcNum m; Message m].
Proof.
  rewrite parse_eq_spec. unfold parse_spec. destruct (Index raw _); [|done].
  intros [= <-]. cbn [ID Password SrcNum Message spec_message].
  repeat constructor; rewrite TrimSpace_spec; match goal with
  |- GoStrings.TrimSpace (default [] ?o) = _ =>
    destruct o eqn:E; [by eapply value_of_trimmed|reflexivity] end.
Qed.

Lemma parse_values_trimmed_witness :
  let m := mkGoIPMessage "42" [] [] "Hi" "1.2.3.4:5000" in
  Forall (λ v, Trim.TrimSpace v = v) [ID m; Password m; SrcNum m; Message m].
Proof.
  apply (parse_values_trimmed "RECEIVE: id : 42 ;msg:  Hi " "1.2.3.4:5000").
  vm_compute. reflexivity.
Defined.

(** C11: parsing is idempotent (spec property 1): the wire form of a parsed
    message parses back to the same message, so a second round of encoding
    and parsing changes nothing. *)
Theorem parse_idempotent raw addr m :
  parseGoIPMessage raw addr = Ok m -> parseGoIPMessage (encode m) addr = Ok m.
Proof.
  rewrite parse_eq_spec. unfold parse_spec. destruct (Index raw _) as [i|]; [|done].
  intros [= <-].
  set (fs := split_on SEMI (drop (i + 8) raw)).
  assert (Hfs : Forall (λ f, SEMI ∉ f) fs)
    by (eapply Forall_impl; [apply split_on_parts|]; naive_solver).
  assert (Hw : forall key, wire_value (default [] (value_of key fs)) = true).
  { intros key. destruct (value_of key fs) eqn:E; [by eapply value_of_wire|done]. }
  apply (parse_encode (spec_message fs addr)); apply Hw.
Qed.

Lemma parse_idempotent_witness :
  parseGoIPMessage (encode (mkGoIPMessage "42" [] [] "Hi" "1.2.3.4:5000")) "1.2.3.4:5000"
  = Ok (mkGoIPMessage "42" [] [] "Hi" "1.2.3.4:5000").
Proof.
  apply (parse_idempotent "RECEIVE: id : 42 ;msg:  Hi ;x:y:z").
  vm_compute. reflexivity.
Defined.

(** C13: [strings.TrimSpace] strips every White_Space rune, ASCII or not
    (U+0085, U+00A0, U+1680, U+2000 to U+200A, U+2028, U+2029, U+202F,
    U+205F and U+3000 as well as tab, newline, vertical tab, form feed,
    carriage return and space), and nothing else: a [msg] value whose
    first and last runes, as Go decodes them, are not White_Space is stored
    exactly, whatever whole White_Space runes surround it. *)
Theorem parse_strips_space_runes p v q addr :
  spaces p -> spaces q -> v <> [] ->
  Utf8.IsSpace (fst (Utf8.DecodeRuneInString v)) = false ->
  Utf8.IsSpace (fst (Utf8.DecodeLastRuneInString v)) = false ->
  COLON ∉ p ++ v ++ q -> SEMI ∉ p ++ v ++ q ->
  parseGoIPMessage ("RECEIVE:msg:" ++ p ++ v ++ q) addr = Ok (mkGoIPMessage [] [] [] v addr).
Proof.
  intros Hp Hq Hv Hfirst Hlast Hc Hs.
  change ("RECEIVE:msg:" ++ p ++ v ++ q) with ("RECEIVE:" ++ "msg" ++ COLON :: p ++ v ++ q).
  assert (SEMI ∉ "msg" ++ COLON :: p ++ v ++ q).
  { change ("msg" ++ COLON :: p ++ v ++ q) with (("msg" ++ [COLON]) ++ p ++ v ++ q).
    rewrite not_elem_of_app. split; [literal|done]. }
  rewrite parse_receive, split_on_notin by done.
  assert (Htrim : GoStrings.TrimSpace (p ++ v ++ q) = v).
  { unfold GoStrings.TrimSpace. rewrite TrimLeftSpace_app; [|done|].
    - apply TrimRightSpace_app; [done|]. by rewrite trail_space_len_decode, Hlast.
    - rewrite lead_space_len_decode by (by destruct v).
      rewrite decode_app_start, Hfirst by (done || by apply spaces_rune_start). done. }
  unfold spec_message. cbn [value_of]. rewrite field_binding_kv by (done || literal).
  rewrite Htrim. cbn. reflexivity.
Qed.

Lemma parse_strips_space_runes_witness :
  parseGoIPMessage ("RECEIVE:msg:" ++ [xc2; xa0; x20] ++ "Hi" ++ [xe3; x80; x80])
    "1.2.3.4:5000" = Ok (mkGoIPMessage [] [] [] "Hi" "1.2.3.4:5000").
Proof.
  apply parse_strips_space_runes.
  - apply (spaces_app [xc2; xa0] [x20]); [literal|].
    apply (spaces_app [x20] []); [literal|constructor].
  - apply (spaces_app [xe3; x80; x80] []); [literal|constructor].
  - discriminate.
  - vm_compute. reflexivity.
  - vm_compute. reflexivity.
  - literal.
  - literal.
Defined.

End Receive.
