(* ===== verification/Csv.v ===== *)
(** * [encoding/csv]: the first record of [reader.Read()] (src/main.go, lines 73-75)

    The keep-alive branch builds [csv.NewReader(strings.NewReader(csvMessage))]
    with [reader.Comma = ';'] and calls [Read] once.  The model follows
    [readLine] and [readRecord] of go/src/encoding/csv/reader.go for these
    settings ([Comment = 0], [LazyQuotes = false], [TrimLeadingSpace = false],
    [FieldsPerRecord = 0], which the first record only records).  The
    reader's state is the unread input; the record is a list of fields
    (Go keeps one buffer and the field end offsets).  [ParseError]'s line and
    column are only logged by the program and are not modelled: an error is
    its kind.  [strings.Reader] fails only with [io.EOF], so [errRead] is
    [nil] throughout the field loop, as the comments below note.

    The loops are fuelled: every round consumes input, and
    [Read_terminates] proves the fuel given is never exhausted.  The
    contract the keep-alive responder relies on: on quote-free input the
    record is the first line, without its final ["\r"] or ["\r\n"], split
    at every [';'] ([Read_first_line], [Read_last_line]); a syntax error
    needs a quote ([Read_err_quote]); [io.EOF] needs a leading empty line
    ([Read_not_EOF]).  Library code, not part of the repository: the map
    of the development does not name these definitions. *)

From S2P Require Import Prelude GoStrings.
From Stdlib Require Import Lia.
Import GoStrings.
Open Scope string_scope.
Open Scope list_scope.

Module Csv.

(** [ErrBareQuote], [ErrQuote] (inside a [ParseError]) and [io.EOF]. *)
Inductive csv_error := ErrBareQuote | ErrQuote | EOF.

(** [lengthNL(b)]: [1] when [b] ends in ['\n']. *)
Definition lengthNL (b : bytes) : nat :=
  if bool_decide (last b = Some NL) then 1 else 0.

(** [bufio.Reader.ReadSlice('\n')] on the unread input: the bytes up to and
    including the first ['\n'], or all of them with [io.EOF]. *)
Definition read_slice (inp : bytes) : bytes * bytes * bool :=
  match Index inp [NL] with
  | Some i => (take (S i) inp, drop (S i) inp, false)
  | None => (inp, [], true)
  end.

(** For backwards compatibility [readLine] drops a trailing ['\r'] before
    [io.EOF]: [if line[readSize-1] == '\r' { line = line[:readSize-1] }]. *)
Definition drop_cr (line : bytes) : bytes :=
  if bool_decide (last line = Some CR) then take (length line - 1) line else line.

(** [if n := len(line); n >= 2 && line[n-2] == '\r' && line[n-1] == '\n'
    { line[n-2] = '\n'; line = line[:n-1] }]: ["\r\n"] becomes ["\n"]. *)
Definition crlf_to_lf (line : bytes) : bytes :=
  let n := length line in
  if bool_decide (2 ≤ n) && bool_decide (line !! (n - 2) = Some CR)
     && bool_decide (line !! (n - 1) = Some NL)
  then take (n - 2) line ++ [NL] else line.

(** [func (r *Reader) readLine() ([]byte, error)]: at [io.EOF] after some
    bytes the error is dropped and so is a final ['\r'].  Returns the line,
    the unread input and whether [io.EOF] is returned. *)
Definition readLine (inp : bytes) : bytes * bytes * bool :=
  let '(line, rest, eof) := read_slice inp in
  let '(line, eof) :=
    if eof && bool_decide (line <> []) then (drop_cr line, false) else (line, eof) in
  (crlf_to_lf line, rest, eof).

(** The loop of [readRecord] that skips empty lines: read a line; when no
    error and the line is only its newline, read the next. *)
Fixpoint skip_empty (fuel : nat) (inp : bytes) : option (bytes * bytes * bool) :=
  match fuel with
  | O => None
  | S f =>
      let '(line, rest, eof) := readLine inp in
      if negb eof && bool_decide (length line = lengthNL line) then skip_empty f rest
      else Some (line, rest, eof)
  end.

(** The [parseField] loop of [readRecord].  [parse_field] starts a field
    at the head of [line]; [parse_quoted] continues a quoted field whose
    bytes so far are [cur].  [rest] is the unread input, [fields] the fields
    already complete. *)
Fixpoint parse_field (fuel : nat) (line rest : bytes) (fields : list bytes)
    : option (result (list bytes) csv_error) :=
  match fuel with
  | O => None
  | S f =>
      if bool_decide (head line = Some QUOTE) then
        (* Quoted string field: [line = line[quoteLen:]] *)
        parse_quoted f (drop 1 line) rest [] fields
      else
        (* Non-quoted string field *)
        let i := Index line [SEMI] in
        let field := match i with
                     | Some i => take i line
                     | None => take (length line - lengthNL line) line
                     end in
        if bool_decide (QUOTE ∈ field) then Some (Err ErrBareQuote)
        else match i with
             | Some i => parse_field f (drop (i + 1) line) rest (fields ++ [field])
             | None => Some (Ok (fields ++ [field]))
             end
  end
with parse_quoted (fuel : nat) (line rest cur : bytes) (fields : list bytes)
    : option (result (list bytes) csv_error) :=
  match fuel with
  | O => None
  | S f =>
      match Index line [QUOTE] with
      | Some i =>
          (* Hit next quote. *)
          let cur := cur ++ take i line in
          let line := drop (i + 1) line in
          if bool_decide (head line = Some QUOTE) then
            (* Two quotes: append one quote. *)
            parse_quoted f (drop 1 line) rest (cur ++ [QUOTE]) fields
          else if bool_decide (head line = Some SEMI) then
            (* Quote and separator: end of field. *)
            parse_field f (drop 1 line) rest (fields ++ [cur])
          else if bool_decide (length line = lengthNL line) then
            (* Quote and newline or end: end of line. *)
            Some (Ok (fields ++ [cur]))
          else
            (* Quote and another byte: invalid non-escaped quote. *)
            Some (Err ErrQuote)
      | None =>
          match line with
          | _ :: _ =>
              (* Hit end of line: copy it, read the next line ([errRead] is
                 [nil]: the [io.EOF] of [readLine] is reset). *)
              let '(line', rest', _) := readLine rest in
              parse_quoted f line' rest' (cur ++ line) fields
          | [] =>
              (* Abrupt end of file, [errRead == nil]: [ErrQuote]. *)
              Some (Err ErrQuote)
          end
      end
  end.

(** [func (r *Reader) readRecord(dst []string) ([]string, error)] *)
Definition readRecord (inp : bytes) : option (result (list bytes) csv_error) :=
  match skip_empty (S (length inp)) inp with
  | None => None
  | Some (line, rest, eof) =>
      if eof then Some (Err EOF)
      else parse_field (S (length line + length rest)) line rest []
  end.

(** [func (r *Reader) Read() (record []string, err error)].  The fuel of
    [readRecord] never runs out ([Read_terminates]), so the default is dead
    code of the model. *)
Definition Read (inp : bytes) : result (list bytes) csv_error :=
  default (Err EOF) (readRecord inp).

(** ** Lemmas *)

Lemma Index_lt s sep i : sep <> [] -> Index s sep = Some i -> i < length s.
Proof.
  intros Hsep Hi. apply Index_Some in Hi. apply (f_equal length) in Hi.
  rewrite !length_app, length_take in Hi. destruct sep; [done|]. simpl in Hi. lia.
Qed.

(** [readLine] reads nothing only at the end of the input, and otherwise
    consumes at least one byte and returns no more than it consumed. *)
Lemma length_crlf_to_lf l : length (crlf_to_lf l) ≤ length l.
Proof.
  unfold crlf_to_lf. repeat case_bool_decide; simpl; try lia.
  rewrite length_app, length_take. simpl. lia.
Qed.

Lemma length_drop_cr l : length (drop_cr l) ≤ length l.
Proof. unfold drop_cr. case_bool_decide; [rewrite length_take|]; lia. Qed.

Lemma drop_cr_sub (line : bytes) : drop_cr line ⊆ line.
Proof. unfold drop_cr. case_bool_decide; [apply subseteq_take|done]. Qed.

Lemma crlf_to_lf_notin l : NL ∉ l -> crlf_to_lf l = l.
Proof.
  intros Hn. unfold crlf_to_lf. rewrite (bool_decide_false (_ !! _ = Some NL)).
  - by rewrite andb_false_r.
  - by intros ?%list_elem_of_lookup_2.
Qed.

Lemma drop_cr_id l : last l <> Some CR -> drop_cr l = l.
Proof. intros Hl. unfold drop_cr. by rewrite bool_decide_false. Qed.

Lemma drop_cr_app_cr l : drop_cr (l ++ [CR]) = l.
Proof.
  unfold drop_cr. rewrite last_snoc, bool_decide_true by done.
  rewrite length_app. simpl. rewrite Nat.add_sub, take_app_length. done.
Qed.

(** A line read up to its ['\n'] ends in ["\n"] once ["\r\n"] is
    normalised: the same bytes [drop_cr] keeps at the end of the input. *)
Lemma crlf_to_lf_nl l : crlf_to_lf (l ++ [NL]) = drop_cr l ++ [NL].
Proof.
  destruct (decide (last l = Some CR)) as [Hcr|Hcr].
  - apply last_Some in Hcr as [l' ->]. rewrite drop_cr_app_cr.
    unfold crlf_to_lf. rewrite <-app_assoc, !length_app. cbn [length app].
    rewrite !bool_decide_true.
    + rewrite take_app_le, take_ge by lia. done.
    + rewrite lookup_app_r by lia. by replace (_ - _ - _) with 1 by lia.
    + rewrite lookup_app_r by lia. by replace (_ - _ - _) with 0 by lia.
    + lia.
  - rewrite drop_cr_id by done. unfold crlf_to_lf. rewrite length_app. cbn [length].
    destruct l as [|b l]; [done|].
    rewrite (bool_decide_false (_ !! _ = Some CR)); [by rewrite andb_false_r|].
    rewrite lookup_app_l by (simpl; lia). rewrite last_lookup in Hcr.
    by replace (length (b :: l) + 1 - 2) with (pred (length (b :: l))) by (simpl; lia).
Qed.

(** [readLine] reads nothing only at the end of the input, and otherwise
    consumes at least one byte and returns no more than it consumed. *)
Lemma readLine_progress inp line rest eof :
  readLine inp = (line, rest, eof) ->
  (eof = true /\ inp = [] /\ line = [] /\ rest = []) \/
  (eof = false /\ length line + length rest ≤ length inp /\ length rest < length inp).
Proof.
  unfold readLine, read_slice. destruct (Index inp [NL]) as [i|] eqn:Hi.
  - apply Index_lt in Hi; [|done]. simpl. intros [= <- <- <-]. right.
    pose proof (length_crlf_to_lf (take (S i) inp)). rewrite length_take, length_drop in *. lia.
  - destruct inp as [|b inp]; simpl.
    + intros [= <- <- <-]. by left.
    + intros [= <- <- <-]. right.
      pose proof (length_crlf_to_lf (drop_cr (b :: inp))).
      pose proof (length_drop_cr (b :: inp)). simpl in *. lia.
Qed.

(** The first line of an input: up to and including its ['\n']. *)
Lemma readLine_first l rest :
  NL ∉ l -> readLine (l ++ NL :: rest) = (drop_cr l ++ [NL], rest, false).
Proof.
  intros Hn. unfold readLine, read_slice. rewrite Index_single_app by done.
  rewrite take_app, drop_app_ge, take_ge by lia.
  replace (S (length l) - length l) with 1 by lia. cbn [take drop].
  rewrite take_0, drop_0. exact (f_equal (λ x, (x, rest, false)) (crlf_to_lf_nl l)).
Qed.

(** A last line without ['\n'], read up to [io.EOF]. *)
Lemma readLine_eof l : l <> [] -> NL ∉ l -> readLine l = (drop_cr l, [], false).
Proof.
  intros Hne Hn. unfold readLine, read_slice. rewrite Index_single_notin by done.
  rewrite bool_decide_true by done. simpl. rewrite crlf_to_lf_notin; [done|].
  intros Hin. apply Hn. by apply (drop_cr_sub l).
Qed.

Lemma skip_empty_spec fuel inp :
  length inp < fuel ->
  exists line rest eof, skip_empty fuel inp = Some (line, rest, eof)
    /\ length line + length rest ≤ length inp.
Proof.
  revert inp. induction fuel as [|fuel IH]; intros inp Hlen; [lia|]. simpl.
  destruct (readLine inp) as [[line rest] eof] eqn:Hrl.
  destruct (readLine_progress _ _ _ _ Hrl) as [(-> & -> & -> & ->)|(-> & Hl & Hr)]; simpl.
  - by exists [], [], true.
  - case_bool_decide.
    + destruct (IH rest) as (l' & r' & e' & -> & ?); [lia|]. eexists _, _, _. split; [done|lia].
    + eexists _, _, _. split; [done|lia].
Qed.

Lemma parse_terminates fuel :
  (forall line rest fields, length line + length rest < fuel ->
     parse_field fuel line rest fields <> None) /\
  (forall line rest cur fields, length line + length rest < fuel ->
     parse_quoted fuel line rest cur fields <> None).
Proof.
  induction fuel as [|fuel [IHf IHq]]; split; intros *; try lia; intros Hlen; simpl.
  - case_bool_decide as Hq.
    + apply IHq. destruct line; simpl in *; [done|]. rewrite drop_0. lia.
    + case_bool_decide; [done|].
      destruct (Index line [SEMI]) as [i|] eqn:Hi; [|done].
      apply IHf. apply Index_lt in Hi; [|done]. rewrite length_drop. lia.
  - destruct (Index line [QUOTE]) as [i|] eqn:Hi.
    + apply Index_lt in Hi; [|done].
      assert (length (drop (i + 1) line) < length line) by (rewrite length_drop; lia).
      repeat case_bool_decide; try done;
        [apply IHq|apply IHf]; rewrite length_drop; lia.
    + destruct line as [|b line]; [done|].
      destruct (readLine rest) as [[line' rest'] eof] eqn:Hrl.
      apply IHq. destruct (readLine_progress _ _ _ _ Hrl) as [(_ & -> & -> & ->)|(_ & ? & ?)];
        simpl in *; lia.
Qed.

Lemma lengthNL_notin (s : bytes) : NL ∉ s -> lengthNL s = 0.
Proof.
  intros Hs. unfold lengthNL. rewrite bool_decide_false; [done|].
  by intros ?%last_Some_elem_of.
Qed.

(** A line without quotes or newline is split at every [';']. *)
Lemma parse_field_plain fuel line rest fields :
  QUOTE ∉ line -> NL ∉ line -> length line < fuel ->
  parse_field fuel line rest fields = Some (Ok (fields ++ split_on SEMI line)).
Proof.
  revert line fields. induction fuel as [|fuel IH]; intros line fields Hq Hn Hlen; [lia|].
  simpl. rewrite bool_decide_false
    by (destruct line; simpl; [done|]; intros [= ->]; apply Hq; left).
  destruct (first_occurrence line SEMI) as [Hs|(pre & post & -> & Hs)].
  - rewrite Index_single_notin, lengthNL_notin, Nat.sub_0_r, take_ge by done.
    rewrite bool_decide_false by done. by rewrite split_on_notin.
  - rewrite Index_single_app, take_app_length by done.
    rewrite bool_decide_false by set_solver.
    rewrite drop_app_cons.
    rewrite IH; [|set_solver|set_solver|rewrite length_app in Hlen; simpl in Hlen; lia].
    rewrite split_on_app by done. by rewrite <-app_assoc.
Qed.

Lemma readLine_plain s :
  s <> [] -> NL ∉ s -> last s <> Some CR -> readLine s = (s, [], false).
Proof. intros. rewrite readLine_eof by done. by rewrite drop_cr_id. Qed.

(** The same line followed by its ['\n']: the newline ends the last field. *)
Lemma parse_field_plain_nl fuel line rest fields :
  QUOTE ∉ line -> NL ∉ line -> length line < fuel ->
  parse_field fuel (line ++ [NL]) rest fields = Some (Ok (fields ++ split_on SEMI line)).
Proof.
  revert line fields. induction fuel as [|fuel IH]; intros line fields Hq Hn Hlen; [lia|].
  simpl. rewrite bool_decide_false
    by (destruct line; simpl; [done|]; intros [= ->]; apply Hq; left).
  destruct (first_occurrence line SEMI) as [Hs|(pre & post & -> & Hs)].
  - rewrite Index_single_notin
      by (intros [?|?%list_elem_of_singleton]%elem_of_app; done).
    assert (lengthNL (line ++ [NL]) = 1) as ->
      by (unfold lengthNL; by rewrite last_snoc, bool_decide_true).
    rewrite length_app, Nat.add_sub, take_app_length. cbn [length].
    rewrite bool_decide_false by done. by rewrite split_on_notin.
  - rewrite <-app_assoc. cbn [app]. rewrite Index_single_app, take_app_length by done.
    rewrite bool_decide_false by set_solver. rewrite drop_app_cons.
    rewrite IH; [|set_solver|set_solver|rewrite length_app in Hlen; simpl in Hlen; lia].
    rewrite split_on_app by done. by rewrite <-app_assoc.
Qed.

(** [readRecord] fails with a syntax error only on a quote of its line. *)
Lemma parse_field_err fuel line rest fields e :
  parse_field fuel line rest fields = Some (Err e) -> QUOTE ∈ line.
Proof.
  revert line fields. induction fuel as [|fuel IH]; intros line fields; simpl; [done|].
  case_bool_decide as Hq; [intros _; by apply head_Some_elem_of in Hq|].
  case_bool_decide as Hb; destruct (Index line [SEMI]) as [i|].
  - intros _. by apply (subseteq_take i line).
  - intros _. by apply (subseteq_take (length line - lengthNL line) line).
  - intros ?%IH. by apply (subseteq_drop (i + 1) line).
  - done.
Qed.

(** The field loop never returns [io.EOF]. *)
Lemma parse_not_EOF fuel :
  (forall line rest fields, parse_field fuel line rest fields <> Some (Err EOF)) /\
  (forall line rest cur fields, parse_quoted fuel line rest cur fields <> Some (Err EOF)).
Proof.
  induction fuel as [|fuel [IHf IHq]]; split; intros *; simpl; [done|done| |].
  - case_bool_decide; [apply IHq|]. case_bool_decide; [done|].
    destruct (Index line [SEMI]); [apply IHf|done].
  - destruct (Index line [QUOTE]).
    + repeat case_bool_decide; done.
    + destruct line; [done|]. destruct (readLine rest) as [[??]?]. apply IHq.
Qed.

Lemma drop_cr_head l b : head l = Some b -> b <> CR -> head (drop_cr l) = Some b.
Proof.
  intros Hh Hb. unfold drop_cr. destruct l as [|x [|y l]]; simplify_eq/=.
  all: case_bool_decide; simplify_eq/=; done.
Qed.

Lemma crlf_to_lf_head l b : head l = Some b -> b <> CR -> head (crlf_to_lf l) = Some b.
Proof.
  intros Hh Hb. unfold crlf_to_lf. destruct l as [|x l]; simplify_eq/=.
  repeat case_bool_decide; try done.
  destruct (length l - 1) as [|k]; simplify_eq/=; done.
Qed.

(** A line that starts with a byte other than ['\n'] and ['\r'] is read
    without [io.EOF] and with that byte first. *)
Lemma readLine_head b s line rest eof :
  b <> NL -> b <> CR -> readLine (b :: s) = (line, rest, eof) ->
  eof = false /\ head line = Some b.
Proof.
  intros Hn Hc. unfold readLine, read_slice.
  destruct (Index (b :: s) [NL]) as [[|i]|] eqn:Hi.
  - apply Index_Some in Hi. simplify_eq/=.
  - simpl. intros [= <- <- <-]. split; [done|]. by apply crlf_to_lf_head.
  - simpl. intros [= <- <- <-]. split; [done|]. apply crlf_to_lf_head; [apply drop_cr_head|]; done.
Qed.

(** A first line that holds more than its newline is the record's line:
    [Read] runs the field loop on it. *)
Lemma Read_first inp line rest :
  readLine inp = (line, rest, false) -> length line <> lengthNL line ->
  Read inp = default (Err EOF) (parse_field (S (length line + length rest)) line rest []).
Proof.
  intros Hrl Hne. unfold Read, readRecord. cbn [skip_empty]. rewrite Hrl.
  by rewrite bool_decide_false.
Qed.

Lemma parse_ok_grows fuel :
  (forall line rest fields r, parse_field fuel line rest fields = Some (Ok r) ->
     length fields < length r) /\
  (forall line rest cur fields r, parse_quoted fuel line rest cur fields = Some (Ok r) ->
     length fields < length r).
Proof.
  induction fuel as [|fuel [IHf IHq]]; split; intros *; simpl; [done|done| |].
  - case_bool_decide; [by intros ?%IHq|].
    case_bool_decide; [done|].
    destruct (Index line [SEMI]); [intros ?%IHf|intros [= <-]];
      rewrite length_app in *; simpl in *; lia.
  - destruct (Index line [QUOTE]).
    + repeat case_bool_decide; try done; [by intros ?%IHq|intros ?%IHf|intros [= <-]];
        rewrite length_app in *; simpl in *; lia.
    + destruct line; [done|]. destruct (readLine rest) as [[??]?]. by intros ?%IHq.
Qed.

(** *** Every byte of a field comes from the input *)

Lemma crlf_to_lf_sub (line inp : bytes) : line ⊆ inp -> crlf_to_lf line ⊆ inp.
Proof.
  intros Hl. unfold crlf_to_lf. repeat case_bool_decide; simpl; try done.
  apply list_subseteq_app_iff_l. split; [by etrans; [apply subseteq_take|]|].
  apply list_subseteq_cons_iff. split; [|apply list_subseteq_nil].
  apply Hl. by eapply list_elem_of_lookup_2.
Qed.

Lemma readLine_sub inp line rest eof :
  readLine inp = (line, rest, eof) -> line ⊆ inp /\ rest ⊆ inp.
Proof.
  unfold readLine, read_slice. destruct (Index inp [NL]) as [i|]; simpl.
  - intros [= <- <- <-]. split; [|apply subseteq_drop].
    apply crlf_to_lf_sub, subseteq_take.
  - case_bool_decide; simpl; intros [= <- <- <-]; (split; [|apply list_subseteq_nil]);
      apply crlf_to_lf_sub; [apply drop_cr_sub|done].
Qed.

Lemma parse_fields_sub fuel :
  (forall line rest fields r, parse_field fuel line rest fields = Some (Ok r) ->
     forall f, f ∈ r -> f ∈ fields \/ f ⊆ line ++ rest) /\
  (forall line rest cur fields r, parse_quoted fuel line rest cur fields = Some (Ok r) ->
     forall f, f ∈ r -> f ∈ fields \/ f ⊆ cur ++ line ++ rest).
Proof.
  induction fuel as [|fuel [IHf IHq]]; split; intros *; simpl; [done|done| |].
  - case_bool_decide.
    + intros Hr f Hf. destruct (IHq _ _ _ _ _ Hr f Hf) as [|Hsub]; [by left|right].
      rewrite Hsub. simpl. apply list_subseteq_app_iff_l.
      split; [apply list_subseteq_app_l, subseteq_drop|apply list_subseteq_app_r; done].
    + case_bool_decide; [done|].
      destruct (Index line [SEMI]) as [i|].
      * intros Hr f Hf. destruct (IHf _ _ _ _ Hr f Hf) as [Hin|Hsub].
        -- apply elem_of_app in Hin as [Hin|Hin]; [by left|].
           apply list_elem_of_singleton in Hin as ->. right.
           apply list_subseteq_app_l, subseteq_take.
        -- right. rewrite Hsub. apply list_subseteq_app_iff_l.
           split; [apply list_subseteq_app_l, subseteq_drop|apply list_subseteq_app_r; done].
      * intros [= <-] f Hf. apply elem_of_app in Hf as [Hf|Hf]; [by left|].
        apply list_elem_of_singleton in Hf as ->. right.
        apply list_subseteq_app_l, subseteq_take.
  - destruct (Index line [QUOTE]) as [i|] eqn:Hi.
    + pose proof (subseteq_take i line). pose proof (subseteq_drop (i + 1) line).
      pose proof (subseteq_drop 1 (drop (i + 1) line)).
      repeat case_bool_decide; try done.
      * intros Hres f Hf. destruct (IHq _ _ _ _ _ Hres f Hf) as [|Hsub]; [by left|right].
        match goal with H : head _ = Some _ |- _ => apply head_Some_elem_of in H end.
        set_solver.
      * intros Hres f Hf. destruct (IHf _ _ _ _ Hres f Hf) as [Hin|Hsub]; [|right; set_solver].
        apply elem_of_app in Hin as [Hin|Hin]; [by left|].
        apply list_elem_of_singleton in Hin as ->. right. set_solver.
      * intros [= <-] f Hf. apply elem_of_app in Hf as [Hf|Hf]; [by left|].
        apply list_elem_of_singleton in Hf as ->. right. set_solver.
    + destruct line as [|b line]; [done|].
      destruct (readLine rest) as [[line' rest'] eof] eqn:Hrl.
      apply readLine_sub in Hrl as [Hl Hr].
      intros Hres f Hf. destruct (IHq _ _ _ _ _ Hres f Hf) as [|Hsub]; [by left|right].
      rewrite Hsub. rewrite <-app_assoc. apply list_subseteq_app_iff_l. split; [apply list_subseteq_app_l; done|].
      apply list_subseteq_app_r. apply list_subseteq_app_iff_l. split; [apply list_subseteq_app_l; done|].
      apply list_subseteq_app_r. apply list_subseteq_app_iff_l. split; done.
Qed.

Lemma skip_empty_sub fuel inp line rest eof :
  skip_empty fuel inp = Some (line, rest, eof) -> line ⊆ inp /\ rest ⊆ inp.
Proof.
  revert inp. induction fuel as [|fuel IH]; intros inp; simpl; [done|].
  destruct (readLine inp) as [[l r] e] eqn:Hrl. apply readLine_sub in Hrl as [Hl Hr].
  destruct (negb e && bool_decide _).
  - intros (? & ?)%IH. split; by etrans.
  - by intros [= <- <- <-].
Qed.

(** The fields of a record are made of bytes of the input. *)
Lemma Read_fields_sub s r : Read s = Ok r -> forall f, f ∈ r -> f ⊆ s.
Proof.
  unfold Read, readRecord.
  destruct (skip_empty _ s) as [[[line rest] eof]|] eqn:Hskip; [|done].
  apply skip_empty_sub in Hskip as [Hl Hr].
  destruct eof; [done|].
  destruct (parse_field _ _ _ _) as [res|] eqn:E; [|done]. simpl. intros ->.
  intros f Hf. destruct (proj1 (parse_fields_sub _) _ _ _ _ E f Hf) as [?|Hsub];
    [set_solver|set_solver].
Qed.

(** *** The first record of quote-free input *)

Lemma lengthNL_le l : lengthNL l ≤ 1.
Proof. unfold lengthNL. case_bool_decide; lia. Qed.

Lemma drop_cr_notin b l : b ∉ l -> b ∉ drop_cr l.
Proof. intros Hb Hin. apply Hb. by apply (drop_cr_sub l). Qed.

(** Without quotes the record is the first line, with its final ['\r']
    dropped, split at every [';']; the lines after it are not read. *)
Lemma Read_first_line l rest :
  QUOTE ∉ l -> NL ∉ l -> drop_cr l <> [] ->
  Read (l ++ NL :: rest) = Ok (split_on SEMI (drop_cr l)).
Proof.
  intros Hq Hn Hne. rewrite (Read_first _ _ _ (readLine_first l rest Hn)).
  - rewrite parse_field_plain_nl by first [by apply drop_cr_notin | rewrite length_app; simpl; lia]. done.
  - pose proof (lengthNL_le (drop_cr l ++ [NL])). rewrite length_app.
    destruct (drop_cr l); [done|simpl in *; lia].
Qed.

(** The same for a datagram of one line, read up to [io.EOF]. *)
Lemma Read_last_line l :
  QUOTE ∉ l -> NL ∉ l -> drop_cr l <> [] -> Read l = Ok (split_on SEMI (drop_cr l)).
Proof.
  intros Hq Hn Hne. assert (l <> []) by (by intros ->).
  rewrite (Read_first _ _ _ (readLine_eof l ltac:(done) Hn)).
  - rewrite parse_field_plain by first [by apply drop_cr_notin | lia]. done.
  - rewrite lengthNL_notin by by apply drop_cr_notin. by destruct (drop_cr l).
Qed.

(** *** Errors *)

(** A syntax error needs a quote in the input. *)
Lemma Read_err_quote s e : Read s = Err e -> e <> EOF -> QUOTE ∈ s.
Proof.
  unfold Read, readRecord.
  destruct (skip_empty _ s) as [[[line rest] eof]|] eqn:Hskip; [|by intros [= <-]].
  apply skip_empty_sub in Hskip as [Hl _].
  destruct eof; [by intros [= <-]|].
  destruct (parse_field _ _ _ _) as [r|] eqn:E; [|by intros [= <-]].
  simpl. intros -> _. apply Hl. by eapply parse_field_err.
Qed.

(** [io.EOF] needs an input that starts with an empty line. *)
Lemma Read_not_EOF b s : b <> NL -> b <> CR -> Read (b :: s) <> Err EOF.
Proof.
  intros Hn Hc. destruct (readLine (b :: s)) as [[line rest] eof] eqn:Hrl.
  destruct (readLine_head _ _ _ _ _ Hn Hc Hrl) as [-> Hh].
  rewrite (Read_first _ _ _ Hrl).
  - destruct (parse_field _ _ _ _) as [r|] eqn:E.
    + simpl. intros ->. by apply (proj1 (parse_not_EOF _)) in E.
    + exfalso. by apply (proj1 (parse_terminates _) line rest []) in E; [|lia].
  - destruct line as [|x l]; simplify_eq/=. unfold lengthNL. case_bool_decide; [|simpl; lia].
    destruct l; simplify_eq/=; lia.
Qed.

(** ** The decoder's contract *)

(** [Read] always returns: the fuel of every loop of [readRecord] is
    enough, on every input. *)
Theorem Read_terminates inp : readRecord inp <> None.
Proof.
  unfold readRecord.
  destruct (skip_empty_spec (S (length inp)) inp) as (line & rest & eof & -> & _); [lia|].
  destruct eof; [done|]. apply parse_terminates. lia.
Qed.

(** On one line without quotes, [Read] is a plain split at every [';']
    (spec section 4.3: "a conforming implementation may instead do a plain
    split"): the CSV decoder adds nothing on such input. *)
Theorem Read_plain s :
  s <> [] -> QUOTE ∉ s -> NL ∉ s -> last s <> Some CR ->
  Read s = Ok (split_on SEMI s).
Proof.
  intros Hne Hq Hn Hcr. assert (drop_cr s = s) as Hd by by apply drop_cr_id.
  by rewrite Read_last_line, Hd by (rewrite ?Hd; done).
Qed.


(** A record [Read] returns has at least one field. *)
Theorem Read_ok_nonempty s r : Read s = Ok r -> r <> [].
Proof.
  unfold Read, readRecord.
  destruct (skip_empty_spec (S (length s)) s) as (line & rest & eof & -> & _); [lia|].
  destruct eof; [done|].
  destruct (parse_field _ _ _ _) as [res|] eqn:E; [|done]. simpl. intros ->.
  apply (proj1 (parse_ok_grows _)) in E. destruct r; simpl in E; [lia|done].
Qed.


End Csv.
