(* ===== verification/KeepAlive.v ===== *)
(** * The keep-alive responder (src/main.go, lines 70-82)

    For a datagram that starts with ["req"], [main] replaces every [':'] by
    [';'] (line 72), decodes the first CSV record with [Comma = ';']
    (lines 73-79) and formats ["reg:" ++ messageArray[1] ++ ";status:200;"]
    (line 82).  [keepalive] computes what happens next: a logged CSV error,
    the runtime panic of [messageArray[1]] when the record has fewer than two
    fields, or the response to send.  Sending and logging are in Server.v.

    The theorems characterise the outcome on datagrams without quotes (the
    device never sends any): the response echoes the second [';']-field of
    the datagram after [':'] became [';'], the index panic happens exactly
    when the datagram holds neither [':'] nor [';'], and only the first
    line of a datagram counts.  On every keep-alive datagram a CSV error
    needs a double quote and is never [io.EOF], and a response never echoes
    a [':']. *)

From S2P Require Import Prelude GoStrings Csv.
From Stdlib Require Import Lia.
Import GoStrings Csv.
Open Scope string_scope.
Open Scope list_scope.

Module KeepAlive.

(** ** The code *)

Inductive outcome :=
| CsvFailed (e : csv_error)   (** [log...Error("Error parsing CSV"); continue] *)
| IndexPanic                  (** [messageArray[1]]: index out of range *)
| Respond (response : bytes). (** the acknowledgement to send *)

(** [fmt.Sprintf("reg:%s;status:200;", v)]: [%s] copies a string verbatim. *)
Definition format_response (v : bytes) : bytes := "reg:" ++ v ++ ";status:200;".

(** Lines 72-82. *)
Definition keepalive (message : bytes) : outcome :=
  let csvMessage := ReplaceAll message ":" ";" in
  match Read csvMessage with
  | Err e => CsvFailed e
  | Ok messageArray =>
      match messageArray !! 1 with
      | Some v => Respond (format_response v)
      | None => IndexPanic
      end
  end.

(** ** Specification on quote-free datagrams *)

(** One line, no quote, not ending in ['\r']: the datagrams the device
    sends. *)
Definition plain (m : bytes) : bool :=
  bool_decide (m <> []) && bool_decide (QUOTE ∉ m) && bool_decide (NL ∉ m)
  && bool_decide (last m <> Some CR).

(** The fields the spec prescribes: split at [';'] after [':'] became [';']. *)
Definition plain_fields (m : bytes) : list bytes := split_on SEMI (subst_byte COLON SEMI m).

(** The reply to a decoded record: [messageArray[1]] echoed, or the panic
    when the record has one field. *)
Definition answer (messageArray : list bytes) : outcome :=
  match messageArray !! 1 with
  | Some v => Respond (format_response v)
  | None => IndexPanic
  end.

(** The first line of a datagram: up to its first ['\n']. *)
Definition first_line (m : bytes) : bytes :=
  match Index m [NL] with Some i => take i m | None => m end.

(** The responder the spec allows in place of the CSV decoder (section 4.3,
    step 2: "a plain split on [';'] with no quoting"): replace [':'] by
    [';'], take the first line without a final ['\r'], split it at every
    [';'] and answer the second field. *)
Definition plain_keepalive (m : bytes) : outcome :=
  answer (split_on SEMI (drop_cr (first_line (subst_byte COLON SEMI m)))).

(** ** Lemmas *)

Lemma keepalive_Read m :
  keepalive m =
    match Read (subst_byte COLON SEMI m) with
    | Err e => CsvFailed e
    | Ok messageArray =>
        match messageArray !! 1 with
        | Some v => Respond (format_response v)
        | None => IndexPanic
        end
    end.
Proof.
  unfold keepalive. change (ReplaceAll m ":" ";") with (ReplaceAll m [COLON] [SEMI]).
  by rewrite ReplaceAll_single.
Qed.

Lemma Read_subst_plain m :
  plain m = true -> Read (subst_byte COLON SEMI m) = Ok (plain_fields m).
Proof.
  unfold plain. rewrite !andb_true_iff, !bool_decide_eq_true.
  intros [[[Hne Hq] Hn] Hcr]. apply Read_plain.
  - by rewrite subst_byte_nil.
  - by apply subst_byte_notin_new.
  - by apply subst_byte_notin_new.
  - rewrite last_subst_byte. destruct (last m) as [b|]; simpl; [|done].
    case_decide; [done|]. congruence.
Qed.

Lemma keepalive_plain_eq m :
  plain m = true ->
  keepalive m = match plain_fields m !! 1 with
                | Some v => Respond (format_response v)
                | None => IndexPanic
                end.
Proof. intros Hp. by rewrite keepalive_Read, Read_subst_plain. Qed.

Lemma plain_fields_single m :
  length (plain_fields m) ≤ 1 <-> COLON ∉ m /\ SEMI ∉ m.
Proof.
  unfold plain_fields. rewrite length_split_on, occurrences_subst_byte by done.
  split.
  - intros Hle. split; apply occurrences_zero; lia.
  - intros [Hc Hs]. rewrite !occurrences_notin by done. lia.
Qed.

Lemma keepalive_plain_panic m :
  plain m = true -> COLON ∉ m -> SEMI ∉ m -> keepalive m = IndexPanic.
Proof.
  intros Hp Hc Hs. rewrite keepalive_plain_eq by done.
  destruct (plain_fields m !! 1) eqn:E; [|done].
  apply lookup_lt_Some in E. pose proof (proj2 (plain_fields_single m) (conj Hc Hs)). lia.
Qed.

(** A keep-alive datagram still starts with ["req"] once [':'] became [';']. *)
Lemma subst_req m :
  HasPrefix m "req" = true -> exists t, subst_byte COLON SEMI m = "req" ++ t.
Proof.
  intros [t ->]%HasPrefix_spec. exists (subst_byte COLON SEMI t).
  rewrite subst_byte_app. done.
Qed.

Lemma drop_cr_req t : drop_cr ("req" ++ t) <> [].
Proof.
  intros Hd. assert (head (drop_cr ("req" ++ t)) = Some (Byte.x72)) as Hh
    by (apply drop_cr_head; done).
  by rewrite Hd in Hh.
Qed.

(** On a quote-free first line the record is that line, without a final
    ['\r'], split at every [';'], whatever follows the line. *)
Lemma keepalive_quote_free l rest :
  HasPrefix l "req" = true -> QUOTE ∉ l -> NL ∉ l ->
  keepalive l = answer (split_on SEMI (drop_cr (subst_byte COLON SEMI l))) /\
  keepalive (l ++ NL :: rest) = answer (split_on SEMI (drop_cr (subst_byte COLON SEMI l))).
Proof.
  intros Hreq Hq Hn. rewrite !keepalive_Read, subst_byte_app, subst_byte_cons_ne by done.
  destruct (subst_req l Hreq) as [t Ht]. rewrite Ht.
  assert (QUOTE ∉ "req" ++ t /\ NL ∉ "req" ++ t) as [Hq' Hn']
    by (rewrite <-Ht; split; apply subst_byte_notin_new; done).
  by rewrite Read_first_line, Read_last_line by auto using drop_cr_req.
Qed.

(** ** Theorems *)

(** C4: on a datagram the device sends (one line, no quote), the
    acknowledgement is ["reg:" ++ v ++ ";status:200;"] with [v] the second
    [';']-field after every [':'] became [';'] (spec property 4). *)
Theorem keepalive_response m v :
  plain m = true -> plain_fields m !! 1 = Some v ->
  keepalive m = Respond (format_response v).
Proof. intros Hp Hv. by rewrite keepalive_plain_eq, Hv. Qed.

Lemma keepalive_response_witness :
  keepalive "req:42:online" = Respond (format_response "42").
Proof. apply keepalive_response; reflexivity. Defined.


(** C5: on such a datagram the code panics on [messageArray[1]] exactly
    when the datagram holds neither [':'] nor [';'], e.g. ["req"]: the spec
    requires a format error there (section 4.3, step 3). *)
Theorem keepalive_panic_iff m :
  plain m = true -> (keepalive m = IndexPanic <-> COLON ∉ m /\ SEMI ∉ m).
Proof.
  intros Hp. rewrite keepalive_plain_eq, <-plain_fields_single by done.
  destruct (plain_fields m !! 1) as [v|] eqn:E.
  - split; [done|]. intros Hle. apply lookup_lt_Some in E. lia.
  - split; [|done]. intros _. apply lookup_ge_None in E. lia.
Qed.

Lemma keepalive_panic_iff_witness :
  keepalive "req" = IndexPanic <-> COLON ∉ ("req" : bytes) /\ SEMI ∉ ("req" : bytes).
Proof. apply keepalive_panic_iff. reflexivity. Defined.


(** C20: whatever the datagram, a response has the form
    ["reg:" ++ v ++ ";status:200;"] and the echoed [v] holds no [':']. *)
Theorem keepalive_response_shape m r :
  keepalive m = Respond r -> exists v, r = format_response v /\ COLON ∉ v.
Proof.
  rewrite keepalive_Read. destruct (Read _) as [fields|] eqn:E; [|done].
  destruct (fields !! 1) as [v|] eqn:Ev; [|done]. intros [= <-].
  exists v. split; [done|]. intros Hc.
  apply (Read_fields_sub _ _ E v) in Hc; [|by eapply list_elem_of_lookup_2].
  by apply subst_byte_removes in Hc.
Qed.

Lemma keepalive_response_shape_witness :
  exists v, ("reg:42;status:200;" : bytes) = format_response v /\ COLON ∉ v.
Proof. apply (keepalive_response_shape "req:42:online"). vm_compute. reflexivity. Defined.


(** The scenarios of the spec and what the CSV decoder adds: a quoted
    field keeps its [';'] and even a newline in the echoed value, a stray
    quote or an unterminated quoted field is a CSV error, a final ["\r\n"]
    is dropped, and ["req"] alone panics. *)
Example keepalive_scenarios :
  keepalive "req:42:online" = Respond "reg:42;status:200;" /\
  keepalive ("req:42:online" ++ [CR; NL]) = Respond "reg:42;status:200;" /\
  keepalive ("req:" ++ QUOTE :: "a:b" ++ [QUOTE]) = Respond "reg:a;b;status:200;" /\
  keepalive ("req:" ++ QUOTE :: "a" ++ NL :: "b" ++ [QUOTE])
    = Respond ("reg:a" ++ NL :: "b;status:200;") /\
  keepalive ("req:a" ++ QUOTE :: "b") = CsvFailed ErrBareQuote /\
  keepalive ("req:" ++ QUOTE :: "a" ++ NL :: "b") = CsvFailed ErrQuote /\
  keepalive "req" = IndexPanic.
Proof. split_and!; vm_compute; reflexivity. Qed.


(** C15: a quote-free keep-alive datagram is decoded up to its first
    newline: the bytes after it never change the outcome. *)
Theorem keepalive_first_line l rest :
  HasPrefix l "req" = true -> QUOTE ∉ l -> NL ∉ l ->
  keepalive (l ++ NL :: rest) = keepalive l.
Proof.
  intros Hreq Hq Hn. destruct (keepalive_quote_free l rest) as [-> ->]; done.
Qed.

Lemma keepalive_first_line_witness :
  keepalive ("req:42:online" ++ NL :: "req:7:x") = keepalive "req:42:online".
Proof. apply keepalive_first_line; [reflexivity|literal|literal]. Defined.


(** C14: the CSV error branch (lines 76-78) is taken for a keep-alive
    datagram only when it holds a double quote, and never with [io.EOF]. *)
Theorem keepalive_csv_error m e :
  HasPrefix m "req" = true -> keepalive m = CsvFailed e -> QUOTE ∈ m /\ e <> EOF.
Proof.
  intros Hreq. rewrite keepalive_Read. destruct (subst_req m Hreq) as [t Ht]. rewrite Ht.
  destruct (Read _) as [r|e'] eqn:E; [by destruct (r !! 1)|]. intros [= <-].
  assert (e' <> EOF) as Hne by (intros ->; exact (Read_not_EOF Byte.x72 _ ltac:(done) ltac:(done) E)).
  split; [|done]. apply Read_err_quote in E; [|done]. rewrite <-Ht in E.
  by apply subst_byte_elem in E as [?|[? _]].
Qed.

Lemma keepalive_csv_error_witness :
  QUOTE ∈ ("req:a" ++ QUOTE :: "b" : bytes) /\ ErrBareQuote <> EOF.
Proof. apply keepalive_csv_error; vm_compute; reflexivity. Defined.

(** C9: equivalence with the responder the spec allows: on every
    keep-alive datagram whose first line holds no double quote (all the
    device sends), the CSV decoder can be replaced by a plain split: the
    outcome is that of [plain_keepalive], for one-line, multi-line and
    ["\r\n"]-terminated datagrams alike. *)
Theorem keepalive_plain_split m :
  HasPrefix m "req" = true -> QUOTE ∉ first_line m -> keepalive m = plain_keepalive m.
Proof.
  intros Hreq Hq. unfold plain_keepalive, first_line in *.
  destruct (first_occurrence m NL) as [Hn|(l & rest & -> & Hn)].
  - rewrite Index_single_notin in Hq by done.
    rewrite Index_single_notin by (by apply subst_byte_notin_new).
    by apply (keepalive_quote_free m []).
  - rewrite Index_single_app, take_app_length in Hq by done.
    rewrite subst_byte_app, subst_byte_cons_ne by done.
    rewrite Index_single_app, take_app_length by (by apply subst_byte_notin_new).
    apply keepalive_quote_free; [|done|done].
    apply HasPrefix_spec. apply HasPrefix_spec in Hreq.
    eapply prefix_app_cons_notin; [exact Hreq|literal].
Qed.

Lemma keepalive_plain_split_witness :
  keepalive ("req:42:online" ++ [CR; NL] ++ "x" ++ [QUOTE])
  = plain_keepalive ("req:42:online" ++ [CR; NL] ++ "x" ++ [QUOTE]).
Proof. apply keepalive_plain_split; [reflexivity|literal]. Defined.

End KeepAlive.
