(* ===== verification/Server.v ===== *)
(** * The receive loop of [main] (src/main.go, lines 21-93)

    [startup] is lines 22-40 (resolve, listen, [log.Fatal] on failure);
    [classify] is the prefix dispatch of lines 58 and 70; [handle] is one
    round of the [for] loop (lines 44-91): read a datagram into the
    2048-byte buffer, log it, parse a RECEIVE datagram or answer a
    keep-alive.  The environment is explicit: the result of
    [conn.ReadFromUDP] is an [event] and the result of [conn.WriteToUDP] a
    boolean.  A server is a status and the trace of its effects (log lines
    and sent datagrams); [step] runs one round, [reachable] is the step
    relation closed from the start, and [run] feeds a list of inputs.

    [panics] names the datagrams whose round stops the process.

    The theorems: one datagram ["req"] stops the server for good; every
    sent datagram answers the keep-alive datagram received just before it,
    from the same address; the RECEIVE parse error is never logged; a round
    reads, logs and processes only the first 2048 bytes of a datagram; what
    one round does with each kind of datagram.  Loop.v proves that [main] itself behaves as
    [run]. *)

From S2P Require Import Prelude GoStrings Receive Csv KeepAlive.
From Stdlib Require Import Lia.
Import GoStrings Receive Csv KeepAlive.
Open Scope string_scope.
Open Scope list_scope.

Module Server.

(** ** Effects and states *)

Inductive level := Info | Error | Fatal.

(** The errors the loop logs. *)
Inductive go_error :=
| EResolve | EListen | ERead
| EParse (e : parse_error)
| ECsv (e : csv_error)
| ESend.

(** An observable effect: a logrus line (level, message, fields, error) or
    a datagram sent to an address.  Messages and field names are literals
    of the code. *)
Inductive effect :=
| Log (lvl : level) (msg : string) (fields : list (string * bytes)) (err : option go_error)
| Send (payload : bytes) (addr : bytes).

(** [Running]; [Crashed] by a runtime panic; [Exited] by [log.Fatal]. *)
Inductive proc_status := Running | Crashed | Exited.

(** What [conn.ReadFromUDP(buffer)] returns: an error, or a datagram and
    the sender's address ([addr.String()]). *)
Inductive event :=
| RecvErr
| Recv (payload : bytes) (addr : bytes).

(** [buffer := make([]byte, 2048)]: a longer datagram is cut to its first
    2048 bytes by the read. *)
Definition buffer_size : nat := 2048.

(** ** The code *)

(** Lines 22-40. *)
Definition startup (resolve_ok listen_ok : bool) : list effect * proc_status :=
  if negb resolve_ok then ([Log Fatal "ResolveUDPAddr failed" [] (Some EResolve)], Exited)
  else if negb listen_ok then ([Log Fatal "ListenUDP failed" [] (Some EListen)], Exited)
  else ([Log Info "Start listening for GOIP messages" [] None], Running).

Inductive kind := KReceive | KKeepAlive | KUnrecognized.

(** [if strings.HasPrefix(message, "RECEIVE:") ... else if
    strings.HasPrefix(message, "req")] (lines 58, 70). *)
Definition classify (message : bytes) : kind :=
  if HasPrefix message "RECEIVE:" then KReceive
  else if HasPrefix message "req" then KKeepAlive
  else KUnrecognized.

(** Lines 52-55. *)
Definition received_log (addr message : bytes) : effect :=
  Log Info "Received message" [("remote_address", addr); ("message", message)] None.

(** One round of the loop, lines 44-91. *)
Definition handle (ev : event) (send_ok : bool) : list effect * proc_status :=
  match ev with
  | RecvErr => ([Log Error "Error reading from UDP" [] (Some ERead)], Running)
  | Recv payload addr =>
      let message := take buffer_size payload in
      let received := received_log addr message in
      match classify message with
      | KReceive =>
          match parseGoIPMessage message addr with
          | Err e =>
              ([received; Log Error "Error parsing RECEIVE message" [] (Some (EParse e))],
               Running)
          | Ok m =>
              ([received; Log Info "Parsed RECEIVE message"
                            [("id", ID m); ("srcnum", SrcNum m); ("message", Message m);
                             ("remote_addr", RemoteAddr m)] None], Running)
          end
      | KKeepAlive =>
          match keepalive message with
          | CsvFailed e => ([received; Log Error "Error parsing CSV" [] (Some (ECsv e))], Running)
          | IndexPanic => ([received], Crashed)
          | Respond response =>
              if send_ok then
                ([received; Send response addr; Log Info "Sent response" [("response", response)] None],
                 Running)
              else ([received; Log Error "Error sending response" [] (Some ESend)], Running)
          end
      | KUnrecognized => ([received], Running)
      end
  end.

(** The datagrams whose round stops the process: keep-alive datagrams on
    which [messageArray[1]] panics. *)
Definition panics (ev : event) : bool :=
  match ev with
  | RecvErr => false
  | Recv payload _ =>
      let message := take buffer_size payload in
      match classify message, keepalive message with
      | KKeepAlive, IndexPanic => true
      | _, _ => false
      end
  end.

(** ** The state machine *)

Record server := mkServer { status : proc_status; trace : list effect }.

Definition start (resolve_ok listen_ok : bool) : server :=
  mkServer (snd (startup resolve_ok listen_ok)) (fst (startup resolve_ok listen_ok)).

Definition step (s : server) (ev : event) (send_ok : bool) : server :=
  mkServer (snd (handle ev send_ok)) (trace s ++ fst (handle ev send_ok)).

(** The loop only goes round while the process runs. *)
Inductive reachable : server -> Prop :=
| reach_start r l : reachable (start r l)
| reach_step s ev ok : reachable s -> status s = Running -> reachable (step s ev ok).

Fixpoint run (s : server) (inputs : list (event * bool)) : server :=
  match inputs with
  | [] => s
  | (ev, ok) :: rest =>
      match status s with
      | Running => run (step s ev ok) rest
      | _ => s
      end
  end.

(** ** Lemmas *)

Lemma HasPrefix_req_not_receive m :
  HasPrefix m "req" = true -> HasPrefix m "RECEIVE:" = false.
Proof.
  intros [r1 Hr1]%HasPrefix_spec. destruct (HasPrefix m "RECEIVE:") eqn:E; [|done].
  apply HasPrefix_spec in E as [r2 Hr2]. rewrite Hr1 in Hr2. discriminate.
Qed.

Lemma classify_req m : HasPrefix m "req" = true -> classify m = KKeepAlive.
Proof. intros H. unfold classify. by rewrite HasPrefix_req_not_receive, H. Qed.

Lemma classify_cases m :
  (exists body, m = "RECEIVE:" ++ body /\ classify m = KReceive)
  \/ classify m = KKeepAlive \/ classify m = KUnrecognized.
Proof.
  unfold classify. destruct (HasPrefix m "RECEIVE:") eqn:Hr.
  - apply HasPrefix_spec in Hr as [body ->]. left. by exists body.
  - right. by destruct (HasPrefix m "req"); [left|right].
Qed.

Lemma HasPrefix_take m p n : length p ≤ n -> HasPrefix (take n m) p = HasPrefix m p.
Proof.
  intros Hn. apply eq_bool_prop_intro. rewrite !Is_true_true, !HasPrefix_spec.
  split.
  - intros Hp. etrans; [done|apply prefix_take].
  - intros [r ->]. exists (take (n - length p) r). rewrite take_app.
    rewrite take_ge by lia. done.
Qed.

(** Only the first 2048 bytes of a datagram reach the round. *)
Lemma handle_take p a ok : handle (Recv p a) ok = handle (Recv (take buffer_size p) a) ok.
Proof. cbn [handle]. by rewrite take_take, Nat.min_id. Qed.

Lemma run_stopped s inputs : status s <> Running -> run s inputs = s.
Proof. destruct inputs as [|[ev ok] inputs]; simpl; [done|]. by destruct (status s). Qed.

(** A round stops the process exactly on a panicking datagram, and never
    by [log.Fatal]. *)
Lemma handle_status ev ok :
  snd (handle ev ok) = if panics ev then Crashed else Running.
Proof.
  destruct ev as [|p a]; [done|]. cbn [handle panics].
  destruct (classify _); [by destruct (parseGoIPMessage _ _)| |done].
  destruct (keepalive _); [done|done|by destruct ok].
Qed.

(** [x ∉ l] for a literal list [l] none of whose elements has [x]'s
    constructors. *)
Ltac not_listed :=
  let Hin := fresh in
  intros Hin; repeat (apply elem_of_cons in Hin as [Hin|Hin]; [discriminate|]);
  by apply elem_of_nil in Hin.

(** The RECEIVE parse error is not among the effects of a round. *)
Lemma handle_no_parse_error ev ok e :
  Log Error "Error parsing RECEIVE message" [] (Some (EParse e)) ∉ fst (handle ev ok).
Proof.
  destruct ev as [|p a]; cbn [handle fst]; [not_listed|].
  destruct (classify_cases (take buffer_size p)) as [(body & Hb & ->)|[->| ->]].
  - rewrite Hb, parse_receive. not_listed.
  - destruct (keepalive _); [| |destruct ok]; not_listed.
  - not_listed.
Qed.

(** A round sends at most one datagram, second among its effects, right
    after logging a keep-alive datagram from the same address, and it is the
    response [keepalive] computed for it. *)
Lemma handle_sends ev ok j r a :
  fst (handle ev ok) !! j = Some (Send r a) ->
  j = 1 /\ exists p, ev = Recv p a
    /\ fst (handle ev ok) !! 0 = Some (received_log a (take buffer_size p))
    /\ classify (take buffer_size p) = KKeepAlive
    /\ keepalive (take buffer_size p) = Respond r.
Proof.
  destruct ev as [|p a']; cbn [handle fst].
  { by destruct j as [|[|j]]. }
  destruct (classify _) eqn:Hc;
    [destruct (parseGoIPMessage _ _)|destruct (keepalive _) eqn:Hk; [| |destruct ok]|];
    destruct j as [|[|[|j]]]; cbn; intros H; simplify_eq; try done.
  split; [done|]. eexists. split_and!; done.
Qed.

(** ** Theorems *)

(** C1: one keep-alive datagram without [':'] or [';'] (such as ["req"])
    makes [messageArray[1]] panic: the server logs its receipt and stops;
    no later datagram is handled (spec section 4.3 requires a dropped
    datagram, section 7 says no error is fatal). *)
Theorem req_datagram_crashes s m a ok rest :
  status s = Running -> HasPrefix m "req" = true -> plain m = true ->
  COLON ∉ m -> SEMI ∉ m -> length m ≤ buffer_size ->
  run s ((Recv m a, ok) :: rest) = mkServer Crashed (trace s ++ [received_log a m]).
Proof.
  intros Hrun Hreq Hp Hc Hs Hlen. cbn [run]. rewrite Hrun.
  unfold step. cbn [handle]. rewrite take_ge by done.
  rewrite classify_req, keepalive_plain_panic by done.
  by apply run_stopped.
Qed.

Lemma req_datagram_crashes_witness :
  run (start true true) [(Recv "req" "10.0.0.7:5060", true)]
  = mkServer Crashed (trace (start true true) ++ [received_log "10.0.0.7:5060" "req"]).
Proof.
  apply req_datagram_crashes; [reflexivity|reflexivity|reflexivity|literal|literal|].
  unfold buffer_size. simpl. lia.
Defined.

(** C7: every datagram the server sends answers the datagram logged just
    before it: a keep-alive datagram from the same address, of which it is
    the computed acknowledgement. *)
Theorem sends_answer_keepalive s i r a :
  reachable s -> trace s !! i = Some (Send r a) ->
  exists j m, i = S j /\ trace s !! j = Some (received_log a m)
    /\ classify m = KKeepAlive /\ keepalive m = Respond r.
Proof.
  intros Hreach. revert i. induction Hreach as [rs ls|s ev ok Hreach IH Hrun]; intros i Hi.
  - destruct rs, ls; simpl in Hi; destruct i as [|[|]]; simpl in Hi; simplify_eq.
  - simpl in Hi. destruct (decide (i < length (trace s))) as [Hlt|Hge].
    + rewrite lookup_app_l in Hi by done.
      destruct (IH i Hi) as (j & m & -> & Hj & Hm). exists j, m. simpl.
      rewrite lookup_app_l by lia. done.
    + rewrite lookup_app_r in Hi by lia.
      destruct (handle_sends _ _ _ _ _ Hi) as (Hj & p & -> & H0 & Hc & Hk).
      exists (length (trace s)), (take buffer_size p). split; [lia|].
      split; [|done]. cbn [step trace].
      rewrite lookup_app_r, Nat.sub_diag by lia. exact H0.
Qed.

Lemma sends_answer_keepalive_witness :
  exists j m, 2 = S j
    /\ trace (step (start true true) (Recv "req:42:online" "10.0.0.7:5060") true) !! j
       = Some (received_log "10.0.0.7:5060" m)
    /\ classify m = KKeepAlive /\ keepalive m = Respond "reg:42;status:200;".
Proof.
  apply (sends_answer_keepalive _ 2 "reg:42;status:200;" "10.0.0.7:5060").
  - apply reach_step; [apply reach_start|reflexivity].
  - vm_compute. reflexivity.
Defined.

(** C8: the error path of [parseGoIPMessage] is dead code in the server:
    a datagram classified RECEIVE contains the marker, so "Error parsing
    RECEIVE message" is never logged. *)
Theorem no_receive_parse_error s e :
  reachable s -> Log Error "Error parsing RECEIVE message" [] (Some (EParse e)) ∉ trace s.
Proof.
  induction 1 as [rs ls|s ev ok Hreach IH Hrun].
  - destruct rs, ls; simpl; not_listed.
  - simpl. rewrite elem_of_app. intros [|Hin]; [done|]. by apply handle_no_parse_error in Hin.
Qed.

Lemma no_receive_parse_error_witness :
  Log Error "Error parsing RECEIVE message" [] (Some (EParse InvalidMessageFormat))
  ∉ trace (step (start true true) (Recv "RECEIVEX:id:1" "10.0.0.7:5060") true).
Proof.
  apply no_receive_parse_error. apply reach_step; [apply reach_start|reflexivity].
Defined.

(** C25: a round reads at most 2048 bytes: its effects and its status
    depend only on the first [buffer_size] bytes of the datagram, and the
    receipt log, the first effect of the round, holds exactly those bytes
    (the whole datagram when it is shorter). *)
Theorem received_bounded p a ok :
  handle (Recv p a) ok = handle (Recv (take buffer_size p) a) ok /\
  head (fst (handle (Recv p a) ok)) = Some (received_log a (take buffer_size p)).
Proof.
  split; [apply handle_take|]. cbn [handle].
  destruct (classify _); [destruct (parseGoIPMessage _ _)|destruct (keepalive _); [| |destruct ok]|];
    reflexivity.
Qed.

(** C21: the classifier never confuses the two kinds: a datagram is a
    keep-alive exactly when it starts with ["req"], RECEIVE exactly when it
    starts with ["RECEIVE:"], and unrecognised when it starts with neither
    (the order of the two tests does not matter). *)
Theorem classify_spec m :
  (classify m = KReceive <-> HasPrefix m "RECEIVE:" = true) /\
  (classify m = KKeepAlive <-> HasPrefix m "req" = true) /\
  (classify m = KUnrecognized <->
     HasPrefix m "RECEIVE:" = false /\ HasPrefix m "req" = false).
Proof.
  unfold classify.
  destruct (HasPrefix m "req") eqn:Hq.
  - rewrite HasPrefix_req_not_receive by done. naive_solver.
  - destruct (HasPrefix m "RECEIVE:"); naive_solver.
Qed.

(** C23: a RECEIVE datagram that fits the buffer is logged, parsed by the
    specification of the parser, and its fields logged; nothing is sent
    and the loop goes on. *)
Theorem handle_receive body a ok :
  length body + 8 ≤ buffer_size ->
  handle (Recv ("RECEIVE:" ++ body) a) ok =
    let m := spec_message (split_on SEMI body) a in
    ([received_log a ("RECEIVE:" ++ body);
      Log Info "Parsed RECEIVE message"
        [("id", ID m); ("srcnum", SrcNum m); ("message", Message m); ("remote_addr", a)] None],
     Running).
Proof.
  intros Hlen. cbn [handle]. rewrite take_ge by (rewrite length_app; simpl; lia).
  unfold classify. rewrite HasPrefix_app, parse_receive. done.
Qed.

Lemma handle_receive_witness :
  handle (Recv ("RECEIVE:" ++ "id:7;msg:hi") "10.0.0.7:5060") true =
    let m := spec_message (split_on SEMI "id:7;msg:hi") "10.0.0.7:5060" in
    ([received_log "10.0.0.7:5060" ("RECEIVE:" ++ "id:7;msg:hi");
      Log Info "Parsed RECEIVE message"
        [("id", ID m); ("srcnum", SrcNum m); ("message", Message m);
         ("remote_addr", ("10.0.0.7:5060" : bytes))] None], Running).
Proof. apply handle_receive. unfold buffer_size. simpl. lia. Defined.

(** C24: an unrecognised datagram is only logged (spec section 4.1). *)
Theorem handle_unrecognized m a ok :
  classify m = KUnrecognized -> length m ≤ buffer_size ->
  handle (Recv m a) ok = ([received_log a m], Running).
Proof. intros Hc Hlen. cbn [handle]. by rewrite take_ge, Hc. Qed.

Lemma handle_unrecognized_witness :
  handle (Recv "hello world" "10.0.0.7:5060") true
  = ([received_log "10.0.0.7:5060" "hello world"], Running).
Proof. apply handle_unrecognized; [reflexivity|unfold buffer_size; simpl; lia]. Defined.

(** C22: a keep-alive datagram the device sends is answered with exactly one
    datagram to its sender, the acknowledgement echoing its second field;
    a failed send is logged and the loop goes on. *)
Theorem handle_keepalive m a v ok :
  HasPrefix m "req" = true -> plain m = true -> length m ≤ buffer_size ->
  plain_fields m !! 1 = Some v ->
  handle (Recv m a) ok =
    (received_log a m ::
       (if ok then [Send (format_response v) a;
                    Log Info "Sent response" [("response", format_response v)] None]
        else [Log Error "Error sending response" [] (Some ESend)]), Running).
Proof.
  intros Hreq Hp Hlen Hv. cbn [handle]. rewrite take_ge by done.
  rewrite classify_req, keepalive_plain_eq, Hv by done. by destruct ok.
Qed.

Lemma handle_keepalive_witness :
  handle (Recv "req:42:online" "10.0.0.7:5060") true =
    (received_log "10.0.0.7:5060" "req:42:online" ::
       [Send (format_response "42") "10.0.0.7:5060";
        Log Info "Sent response" [("response", format_response "42")] None], Running).
Proof.
  apply (handle_keepalive _ _ _ true); [reflexivity|reflexivity| |reflexivity].
  unfold buffer_size. simpl. lia.
Defined.

End Server.
