(* ===== verification/Loop.v ===== *)
(** * [main] as an interaction tree (src/main.go, lines 21-93)

    Server.v summarises one round of the loop as the function [handle]
    and the loop as [run] over a list of inputs.  This file writes [main]
    the way the code is written: a program that calls its collaborators
    ([net.ResolveUDPAddr], [net.ListenUDP], [conn.ReadFromUDP],
    [conn.WriteToUDP], the logrus logger) as events of [mainE], whose
    [for { ... }] is [loop], an [ITree.iter] of one [round] that never
    leaves it, and which never returns: its type is [itree mainE void].
    The 2048-byte buffer is the state the loop carries: [read_into] copies
    each datagram to its front and leaves the rest of it as earlier reads
    left it, and [round] takes [string(buffer[:n])] from it, as the code
    does.  [log.Fatal] is a log line followed by the event [Exit]
    ([os.Exit(1)]), the index panic of line 82 the event [Panic]; both have
    no answer ([void]).

    [handler] gives the events their meaning against a script of the world
    (whether the socket opens, the datagrams that arrive and whether each
    answer can be sent) and records the effects; when the script has no
    more datagrams, or the process exits or panics, the interpreted program
    stops with the event [Halt] carrying the status and the trace.
    [main_refines_run] proves that the interpreted tree stops with exactly
    the status and trace that [Server.run] computes: the code-shaped model
    refines the state machine, so every theorem of Server.v holds of it; in
    particular no byte of an earlier datagram left in the shared buffer
    reaches a later message ([read_into_spec]).  [main_runs_forever] is the
    liveness of the loop on an endless feed. *)

From S2P Require Import Prelude GoStrings Receive Csv KeepAlive Server.
From ITree Require Import ITree ITreeFacts Events.State Events.StateFacts.
Import Receive KeepAlive Server.
Open Scope string_scope.
Open Scope list_scope.

(** ITree's own notations clash with stdpp's [<$>] at level 61: the bind
    notations of this file live in [main_scope]. *)
Declare Scope main_scope.
Delimit Scope main_scope with main.
Notation "x <- t1 ;; t2" := (ITree.bind t1 (fun x => t2))
  (at level 100, t1 at next level, t2 at level 200, right associativity) : main_scope.
Notation "t1 ;; t2" := (ITree.bind t1 (fun _ => t2))
  (at level 100, t2 at level 200, right associativity) : main_scope.

Module Loop.

Open Scope main_scope.

(** ** The program *)

(** The calls [main] makes on its collaborators, with what they return:
    whether [err == nil] for the socket calls, what [ReadFromUDP] read. *)
Variant mainE : Type -> Type :=
| ResolveUDPAddr : mainE bool
| ListenUDP : mainE bool
| ReadFromUDP : mainE event
| WriteToUDP (payload addr : bytes) : mainE bool
| Logrus (lvl : level) (msg : string) (fields : list (string * bytes)) (err : option go_error)
    : mainE unit
| Exit : mainE void
| Panic : mainE void.

Definition log (lvl : level) (msg : string) (fields : list (string * bytes))
    (err : option go_error) : itree mainE unit :=
  ITree.trigger (Logrus lvl msg fields err).

(** [log.WithError(err).Fatal(msg)]: log, then [os.Exit(1)]. *)
Definition fatal (msg : string) (e : go_error) : itree mainE void :=
  log Fatal msg [] (Some e) ;; v <- ITree.trigger Exit ;; match v : void with end.

(** [panic(runtime.Error)]: the index of line 82 out of range. *)
Definition panic {A} : itree mainE A := v <- ITree.trigger Panic ;; match v : void with end.

(** Lines 83-90. *)
Definition send_response (response addr : bytes) : itree mainE unit :=
  ITree.bind (ITree.trigger (WriteToUDP response addr)) (fun ok : bool =>
  if ok then log Info "Sent response" [("response", response)] None
  else log Error "Error sending response" [] (Some ESend)).

(** [buffer := make([]byte, 2048)] (line 42): one buffer for all rounds. *)
Definition new_buffer : bytes := repeat Byte.x00 buffer_size.

(** What [conn.ReadFromUDP(buffer)] (line 45) does to the buffer: the
    datagram is copied to its front, cut to the buffer's length; the bytes
    after the first [n] keep what earlier reads left there. *)
Definition read_into (buffer payload : bytes) : nat * bytes :=
  let n := min (length payload) (length buffer) in
  (n, take n payload ++ drop n buffer).

(** Lines 52-90: log the datagram [message] from [addr] and dispatch on its
    prefix; [continue] ends the round. *)
Definition dispatch (message addr : bytes) : itree mainE unit :=
  log Info "Received message" [("remote_address", addr); ("message", message)] None ;;
  match classify message with
  | KReceive =>
      match parseGoIPMessage message addr with
      | Err e => log Error "Error parsing RECEIVE message" [] (Some (EParse e))
      | Ok m =>
          log Info "Parsed RECEIVE message"
            [("id", ID m); ("srcnum", SrcNum m); ("message", Message m);
             ("remote_addr", RemoteAddr m)] None
      end
  | KKeepAlive =>
      match keepalive message with
      | CsvFailed e => log Error "Error parsing CSV" [] (Some (ECsv e))
      | IndexPanic => panic
      | Respond response => send_response response addr
      end
  | KUnrecognized => Ret tt
  end.

(** The body of [for { ... }], lines 44-91, on the shared buffer: read into
    it, take [message := string(buffer[:n])] (a copy), dispatch; the buffer
    as the read left it goes to the next round. *)
Definition round (buffer : bytes) : itree mainE bytes :=
  ITree.bind (ITree.trigger ReadFromUDP) (fun ev : event =>
  match ev with
  | RecvErr => log Error "Error reading from UDP" [] (Some ERead) ;; Ret buffer
  | Recv payload addr =>
      let '(n, buffer) := read_into buffer payload in
      dispatch (take n buffer) addr ;; Ret buffer
  end).

(** [for { ... }] (lines 43-92): the rounds, forever, the buffer carried
    from one to the next. *)
Definition loop : bytes -> itree mainE void :=
  ITree.iter (fun buffer => ITree.bind (round buffer) (fun b => Ret (inl b))).

(** [func main()], lines 21-93. *)
Definition main : itree mainE void :=
  ITree.bind (ITree.trigger ResolveUDPAddr) (fun resolved : bool =>
  if negb resolved then fatal "ResolveUDPAddr failed" EResolve else
  ITree.bind (ITree.trigger ListenUDP) (fun listening : bool =>
  if negb listening then fatal "ListenUDP failed" EListen else
  log Info "Start listening for GOIP messages" [] None ;;
  loop new_buffer)).

(** ** The world it runs in *)

(** Where the datagrams come from: [next] gives the next datagram with
    the outcome of the send that answers it, and the rest of the source,
    or [None] when no datagram is left to observe. *)
Class Source (S : Type) := next : S -> option ((event * bool) * S).

(** A finite script. *)
#[export] Instance list_source : Source (list (event * bool)) :=
  fun l => match l with [] => None | x :: rest => Some (x, rest) end.

(** An endless feed: the [n]-th datagram is [f_at n]. *)
Record feed := mkFeed { f_pos : nat; f_at : nat -> event * bool }.

#[export] Instance feed_source : Source feed :=
  fun f => Some (f_at f (f_pos f), mkFeed (S (f_pos f)) (f_at f)).

(** What the collaborators answer: whether the socket opens, the
    datagrams still to arrive, the outcome of the send of the current
    round; and the effects so far. *)
Record world (S : Type) := mkWorld {
  w_resolve : bool;
  w_listen : bool;
  w_inputs : S;
  w_send_ok : bool;
  w_trace : list effect }.
Arguments mkWorld {S}.
Arguments w_resolve {S}.
Arguments w_listen {S}.
Arguments w_inputs {S}.
Arguments w_send_ok {S}.
Arguments w_trace {S}.

(** The observation ends: the process stopped, or no datagram is left. *)
Variant haltE : Type -> Type :=
| Halt (st : proc_status) (tr : list effect) : haltE void.

Definition halt {A} (st : proc_status) (tr : list effect) : itree haltE A :=
  v <- ITree.trigger (Halt st tr) ;; match v : void with end.

Definition record {S} (w : world S) (e : effect) : world S :=
  mkWorld (w_resolve w) (w_listen w) (w_inputs w) (w_send_ok w) (w_trace w ++ [e]).

(** The world after the effects [effs] are recorded. *)
Definition records {S} (w : world S) (effs : list effect) : world S :=
  mkWorld (w_resolve w) (w_listen w) (w_inputs w) (w_send_ok w) (w_trace w ++ effs).

(** Where the buffer stands after a round that read [ev]. *)
Definition after_read (buffer : bytes) (ev : event) : bytes :=
  match ev with RecvErr => buffer | Recv payload _ => snd (read_into buffer payload) end.

Definition handler {S} `{!Source S} : mainE ~> Monads.stateT (world S) (itree haltE) :=
  fun _ e w =>
    match e in mainE T return itree haltE (world S * T) with
    | ResolveUDPAddr => Ret (w, w_resolve w)
    | ListenUDP => Ret (w, w_listen w)
    | ReadFromUDP =>
        match next (w_inputs w) with
        | None => halt Running (w_trace w)
        | Some ((ev, ok), rest) =>
            Ret (mkWorld (w_resolve w) (w_listen w) rest ok (w_trace w), ev)
        end
    | WriteToUDP p a =>
        if w_send_ok w then Ret (record w (Send p a), true) else Ret (w, false)
    | Logrus lvl msg fields err => Ret (record w (Log lvl msg fields err), tt)
    | Exit => halt Exited (w_trace w)
    | Panic => halt Crashed (w_trace w)
    end.

(** [main] from the start of the world, with nothing recorded yet. *)
Definition interp_main {S} `{!Source S} (r l : bool) (inputs : S)
    : itree haltE (world S * void) :=
  interp_state handler main (mkWorld r l inputs false []).

(** Where a server state stops the observation. *)
Definition halt_at {A} (s : server) : itree haltE A := halt (status s) (trace s).

(** ** The shared buffer *)

(** Whatever an earlier read left in the buffer, the message of a round is
    the first 2048 bytes of its datagram, and the buffer keeps its size. *)
Lemma read_into_spec buffer payload :
  length buffer = buffer_size ->
  take (fst (read_into buffer payload)) (snd (read_into buffer payload))
    = take buffer_size payload
  /\ length (snd (read_into buffer payload)) = buffer_size.
Proof.
  intros Hb. unfold read_into; cbn [fst snd]. rewrite Hb.
  assert (length (take (min (length payload) buffer_size) payload)
          = min (length payload) buffer_size) as Hn by (rewrite length_take; lia).
  split.
  - rewrite take_app, Hn, Nat.sub_diag, take_0, app_nil_r, take_take, Nat.min_id.
    destruct (decide (length payload ≤ buffer_size)).
    + by rewrite Nat.min_l, take_ge, (take_ge payload buffer_size) by lia.
    + by rewrite Nat.min_r by lia.
  - rewrite length_app, length_drop, Hn, Hb. lia.
Qed.

Lemma after_read_length buffer ev :
  length buffer = buffer_size -> length (after_read buffer ev) = buffer_size.
Proof. intros Hb. destruct ev as [|p a]; [done|]. apply (read_into_spec buffer p Hb). Qed.

(** ** Running the events against the world *)

Section Interp.
Context {S : Type} `{!Source S}.
Implicit Types w : world S.

(** The lemmas are stated with [≳] (equal up to Taus on the left only),
    which both implies [≈] and can be rewritten under the guard of a
    coinductive proof. *)

Lemma halt_bind {A B} st tr (k : A -> itree haltE B) :
  ITree.bind (halt st tr) k ≳ halt st tr.
Proof.
  unfold halt. rewrite bind_bind. eapply eqit_bind'; [reflexivity|]. intros [].
Qed.

Lemma interp_trigger {T A} (e : mainE T) (k : T -> itree mainE A) w :
  interp_state handler (ITree.bind (ITree.trigger e) k) w
  ≳ ITree.bind (handler _ e w) (fun st => interp_state handler (k (snd st)) (fst st)).
Proof.
  rewrite interp_state_bind, interp_state_trigger_eqit, bind_bind.
  eapply eqit_bind'; [reflexivity|]. intros [w' x] ? <-. rewrite bind_tau, bind_ret_l.
  apply tau_euttge.
Qed.

Lemma interp_trigger_end {T} (e : mainE T) w :
  interp_state handler (ITree.trigger e) w ≳ handler _ e w.
Proof.
  rewrite interp_state_trigger_eqit. rewrite <-(bind_ret_r (handler _ e w)) at 2.
  eapply eqit_bind'; [reflexivity|]. intros ? ? <-. apply tau_euttge.
Qed.

Lemma interp_log {A} lvl msg fields err (k : unit -> itree mainE A) w :
  interp_state handler (ITree.bind (log lvl msg fields err) k) w
  ≳ interp_state handler (k tt) (record w (Log lvl msg fields err)).
Proof. unfold log. rewrite interp_trigger. cbn. rewrite bind_ret_l. reflexivity. Qed.

Lemma interp_log_end lvl msg fields err w :
  interp_state handler (log lvl msg fields err) w ≳ Ret (record w (Log lvl msg fields err), tt).
Proof. unfold log. rewrite interp_trigger_end. reflexivity. Qed.

Lemma interp_panic {A} w :
  interp_state handler (@panic A) w ≳ halt Crashed (w_trace w).
Proof. unfold panic. rewrite interp_trigger. cbn. apply halt_bind. Qed.

Lemma interp_fatal msg e w :
  interp_state handler (fatal msg e) w ≳ halt Exited (w_trace w ++ [Log Fatal msg [] (Some e)]).
Proof. unfold fatal. rewrite interp_log, interp_trigger. cbn. apply halt_bind. Qed.

Lemma interp_read_none {A} (k : event -> itree mainE A) w :
  next (w_inputs w) = None ->
  interp_state handler (ITree.bind (ITree.trigger ReadFromUDP) k) w ≳ halt Running (w_trace w).
Proof. intros Hw. rewrite interp_trigger. cbn. rewrite Hw. apply halt_bind. Qed.

Lemma interp_read_some {A} (k : event -> itree mainE A) w ev ok rest :
  next (w_inputs w) = Some ((ev, ok), rest) ->
  interp_state handler (ITree.bind (ITree.trigger ReadFromUDP) k) w
  ≳ interp_state handler (k ev) (mkWorld (w_resolve w) (w_listen w) rest ok (w_trace w)).
Proof. intros Hw. rewrite interp_trigger. cbn. rewrite Hw, bind_ret_l. reflexivity. Qed.

(** ** One round is [handle] *)

(** Close a round: the effects recorded one by one are the effects of
    [handle] appended at once. *)
Local Ltac close_round :=
  unfold record, records; cbn [w_resolve w_listen w_inputs w_send_ok w_trace];
  rewrite <-?app_assoc; reflexivity.

Lemma dispatch_spec w m a :
  length m ≤ buffer_size ->
  interp_state handler (dispatch m a) w
  ≳ match handle (Recv m a) (w_send_ok w) with
    | (effs, Running) => Ret (records w effs, tt)
    | (effs, st) => halt st (w_trace w ++ effs)
    end.
Proof.
  intros Hm. cbn [handle]. rewrite take_ge by done. unfold dispatch.
  rewrite interp_log. destruct (classify m).
  - destruct (parseGoIPMessage _ _); rewrite interp_log_end; close_round.
  - destruct (keepalive m).
    + rewrite interp_log_end. close_round.
    + rewrite interp_panic. close_round.
    + unfold send_response. rewrite interp_trigger. cbn [handler record w_send_ok].
      destruct (w_send_ok w); cbn; rewrite bind_ret_l; cbn; rewrite interp_log_end; close_round.
  - rewrite interp_state_ret. close_round.
Qed.

Lemma round_spec w buffer ev ok rest :
  next (w_inputs w) = Some ((ev, ok), rest) -> length buffer = buffer_size ->
  interp_state handler (round buffer) w
  ≳ match handle ev ok with
    | (effs, Running) =>
        Ret (mkWorld (w_resolve w) (w_listen w) rest ok (w_trace w ++ effs), after_read buffer ev)
    | (effs, st) => halt st (w_trace w ++ effs)
    end.
Proof.
  intros Hw Hb. unfold round. rewrite interp_read_some by done.
  destruct ev as [|p a].
  - cbn [handle]. rewrite interp_log, interp_state_ret. close_round.
  - rewrite handle_take. cbn [after_read].
    destruct (read_into_spec buffer p Hb) as [Hm _].
    destruct (read_into buffer p) as [n b]. cbn [fst snd] in *. rewrite Hm.
    rewrite interp_state_bind, dispatch_spec by (rewrite length_take; lia).
    cbn [w_send_ok w_trace]. destruct (handle _ ok) as [effs []].
    + rewrite bind_ret_l. cbn. rewrite interp_state_ret. close_round.
    + by rewrite halt_bind.
    + by rewrite halt_bind.
Qed.

End Interp.

(** ** The loop is [run] *)

Lemma unfold_loop buffer : loop buffer ≅ ITree.bind (round buffer) (fun b => Tau (loop b)).
Proof.
  unfold loop at 1. rewrite unfold_iter, bind_bind. eapply eqit_bind'; [reflexivity|].
  intros b ? <-. rewrite bind_ret_l. reflexivity.
Qed.

Lemma loop_spec inputs (w : world (list (event * bool))) buffer :
  w_inputs w = inputs -> length buffer = buffer_size ->
  interp_state handler (loop buffer) w ≈ halt_at (run (mkServer Running (w_trace w)) inputs).
Proof.
  revert w buffer. induction inputs as [|[ev ok] rest IH]; intros w buffer Hw Hb;
    rewrite unfold_loop, interp_state_bind.
  - unfold round. rewrite interp_read_none by (by rewrite Hw). by rewrite halt_bind.
  - rewrite round_spec by (by rewrite ?Hw). cbn [run status]. unfold step. cbn [trace].
    destruct (handle ev ok) as [effs []]; cbn [fst snd].
    + rewrite bind_ret_l. cbn. rewrite interp_state_tau, tau_eutt.
      by apply IH; [|apply after_read_length].
    + rewrite halt_bind, run_stopped by done. reflexivity.
    + rewrite halt_bind, run_stopped by done. reflexivity.
Qed.

(** ** The loop runs forever on an endless feed *)

Lemma spin_tau {E R} : @ITree.spin E R ≅ Tau ITree.spin.
Proof. rewrite (itree_eta ITree.spin) at 1. reflexivity. Qed.

Lemma loop_diverges f :
  (forall i, panics (fst (f i)) = false) ->
  forall n (w : world feed) buffer, w_inputs w = mkFeed n f -> length buffer = buffer_size ->
  interp_state handler (loop buffer) w ≈ ITree.spin.
Proof.
  intros Hall. einit. ecofix CIH. intros n w buffer Hw Hb.
  assert (next (w_inputs w) = Some ((fst (f n), snd (f n)), mkFeed (S n) f)) as Hnext
    by (rewrite Hw; unfold next, feed_source; cbn; by destruct (f n)).
  rewrite unfold_loop, interp_state_bind, (round_spec _ _ _ _ _ Hnext Hb).
  pose proof (handle_status (fst (f n)) (snd (f n))) as Hst. rewrite Hall in Hst.
  pose proof (after_read_length buffer (fst (f n)) Hb) as Hb'.
  destruct (handle _ _) as [effs st]. cbn in Hst. subst st.
  rewrite bind_ret_l. cbn [fst snd]. rewrite interp_state_tau, spin_tau.
  etau.
Qed.

(** ** Theorems *)

(** C3: refinement.  [main], run against any script of the world (socket
    set-up results and a finite sequence of datagrams with the outcome of
    each send), stops with exactly the status and the effects that the
    state machine [Server.run] computes from [Server.start], although its
    rounds share one read buffer that each read overwrites only in part:
    after the last
    datagram it is still running, waiting in [ReadFromUDP]; after
    [log.Fatal] it has exited; after the index panic it has crashed and
    reads nothing more. *)
Theorem main_refines_run r l inputs :
  interp_main r l inputs ≈ halt_at (run (start r l) inputs).
Proof.
  unfold interp_main, main. rewrite interp_state_bind, interp_state_trigger. cbn.
  rewrite bind_ret_l. cbn.
  destruct r; cbn [negb]; [|rewrite interp_fatal, run_stopped by done; reflexivity].
  rewrite interp_state_bind, interp_state_trigger. cbn. rewrite bind_ret_l. cbn.
  destruct l; cbn [negb]; [|rewrite interp_fatal, run_stopped by done; reflexivity].
  rewrite interp_log. apply loop_spec; [done|reflexivity].
Qed.


(** C6: liveness.  With the socket set up and an endless sequence of
    datagrams none of which panics (no keep-alive datagram whose record has
    fewer than two fields), [main] never stops: the interpreted program
    diverges silently, reading and handling datagram after datagram, and
    never halts, exits or crashes. *)
Theorem main_runs_forever f :
  (forall i, panics (fst (f i)) = false) ->
  interp_main true true (mkFeed 0 f) ≈ ITree.spin.
Proof.
  intros Hall. unfold interp_main, main.
  rewrite interp_trigger. cbn. rewrite bind_ret_l. cbn.
  rewrite interp_trigger. cbn. rewrite bind_ret_l. cbn.
  rewrite interp_log. eapply loop_diverges; [done..|reflexivity].
Qed.

Lemma main_runs_forever_witness :
  interp_main true true (mkFeed 0 (λ _, (Recv "req:42:online" "10.0.0.7:5060", true)))
  ≈ ITree.spin.
Proof. apply main_runs_forever. intros i. vm_compute. reflexivity. Defined.

End Loop.
